(** * Catch the Nodes: a shallow embedding of [script.js]

    The hero mini-game keeps its whole state in module-level variables and
    mutates it from event handlers: the play button, pointer and keyboard
    activation of an orb, the per-second interval, the animation frame, the
    200 ms respawn time-out and the window resize.  Each handler is embedded
    as a function from game state to game state; the host (browser) is the
    list of events it delivers.

    Numbers.  JavaScript numbers are IEEE doubles.  [score], [combo],
    [best] and [timeLeft] only ever hold small integers and are modelled in
    [Z]; clock readings, coordinates and velocities are modelled by exact
    rationals [Q], so rounding, infinities and NaN are outside the model.
    The draws of the concrete scenarios are numbers that doubles represent
    exactly.

    Host results.  Whatever the script reads from the host is an argument of
    the embedded function: the reading of [performance.now()], the rectangle
    of [getBoundingClientRect()], the frame time-stamp, and the outcomes of
    [Math.random()] together with the [Math.cos]/[Math.sin] of the drawn
    angle (record [draw]).

    Objects.  An orb is a mutable object captured by closures (its listeners
    and its respawn time-out) and listed in the array [orbs].  The objects
    live in [heap], addressed by their allocation index; [orbs], [attached]
    and [timeouts] hold references, so a closure that outlives its round
    still names its own orb.

    Not modelled: text written to the score/time/best labels, CSS classes,
    the combo and final-score callouts and their removal time-outs. *)

From Stdlib Require Import ZArith QArith Qminmax Qabs Lqa Lia Ascii.
From stdpp Require Import base list gmap strings pretty.

Local Open Scope Q_scope.

(** ** Settings (lines 17-22, and the literal cap of line 92) *)

Definition ROUND_SECONDS : Z := 20.
Definition ORB_COUNT : nat := 6.
Definition BASE_POINTS : Z := 10.
Definition COMBO_WINDOW_MS : Q := 800.
Definition SPEED_MIN : Q := 40.
Definition SPEED_MAX : Q := 140.
(** [Math.min(combo, 5)]: the cap has no name in the script. *)
Definition COMBO_CAP : Z := 5.
(** The inner margin 12 of [step] and of the resize listener. *)
Definition MARGIN : Q := 12.

(** ** Data *)

(** A reference to an orb object: its index in [heap]. *)
Abbreviation ref := nat (only parsing).

Module Orb.
(** [{ el, x, y, vx, vy, alive }]; the element [el] is identified with the
    reference of the orb that owns it. *)
Record t := mk { x : Q; y : Q; vx : Q; vy : Q; alive : bool }.

Definition set_pos (o : t) (x' y' : Q) : t :=
  {| x := x'; y := y'; vx := vx o; vy := vy o; alive := alive o |}.
Definition set_x_vx (o : t) (x' vx' : Q) : t :=
  {| x := x'; y := y o; vx := vx'; vy := vy o; alive := alive o |}.
Definition set_y_vy (o : t) (y' vy' : Q) : t :=
  {| x := x o; y := y'; vx := vx o; vy := vy'; alive := alive o |}.
Definition set_alive (o : t) (a : bool) : t :=
  {| x := x o; y := y o; vx := vx o; vy := vy o; alive := a |}.
End Orb.

Module Bounds.
(** [bounds = { w, h }], also the width and height of a measured rectangle. *)
Record t := mk { w : Q; h : Q }.
End Bounds.

(** The host results consumed by one call of [makeOrb]: three outcomes of
    [Math.random()] (for left, top and speed) and the cosine and sine of the
    angle [rand(0, 2 * PI)]. *)
Record draw := Draw {
  u_left : Q;
  u_top : Q;
  u_speed : Q;
  dir_cos : Q;
  dir_sin : Q
}.

(** The module-level variables, and the part of the host state they act on. *)
Record game := Game {
  score : Z;
  best : Z;
  timeLeft : Z;
  running : bool;
  lastHitTime : Q;
  combo : Z;
  orbs : list ref;
  (** [raf]: a frame request is outstanding.  Every request the script makes
      is stored in [raf], so at most one is outstanding. *)
  raf : bool;
  lastTs : option Q;
  (** [timerId]: the countdown interval is installed. *)
  timerId : bool;
  bounds : Bounds.t;
  prefersReduced : bool;
  (** every orb object ever created, by allocation order *)
  heap : list Orb.t;
  (** the orb elements that are children of the game area *)
  attached : list ref;
  (** [localStorage] *)
  storage : gmap string string;
  (** the respawn closures scheduled by [hitOrb] and not yet run, each with
      the orb it captured, oldest first (all have the same delay) *)
  timeouts : list ref;
  (** [playBtn.disabled] *)
  playDisabled : bool
}.

Definition with_score (v : Z) (s : game) : game :=
  Game v (best s) (timeLeft s) (running s) (lastHitTime s) (combo s) (orbs s)
       (raf s) (lastTs s) (timerId s) (bounds s) (prefersReduced s) (heap s)
       (attached s) (storage s) (timeouts s) (playDisabled s).
Definition with_best (v : Z) (s : game) : game :=
  Game (score s) v (timeLeft s) (running s) (lastHitTime s) (combo s) (orbs s)
       (raf s) (lastTs s) (timerId s) (bounds s) (prefersReduced s) (heap s)
       (attached s) (storage s) (timeouts s) (playDisabled s).
Definition with_timeLeft (v : Z) (s : game) : game :=
  Game (score s) (best s) v (running s) (lastHitTime s) (combo s) (orbs s)
       (raf s) (lastTs s) (timerId s) (bounds s) (prefersReduced s) (heap s)
       (attached s) (storage s) (timeouts s) (playDisabled s).
Definition with_running (v : bool) (s : game) : game :=
  Game (score s) (best s) (timeLeft s) v (lastHitTime s) (combo s) (orbs s)
       (raf s) (lastTs s) (timerId s) (bounds s) (prefersReduced s) (heap s)
       (attached s) (storage s) (timeouts s) (playDisabled s).
Definition with_lastHitTime (v : Q) (s : game) : game :=
  Game (score s) (best s) (timeLeft s) (running s) v (combo s) (orbs s)
       (raf s) (lastTs s) (timerId s) (bounds s) (prefersReduced s) (heap s)
       (attached s) (storage s) (timeouts s) (playDisabled s).
Definition with_combo (v : Z) (s : game) : game :=
  Game (score s) (best s) (timeLeft s) (running s) (lastHitTime s) v (orbs s)
       (raf s) (lastTs s) (timerId s) (bounds s) (prefersReduced s) (heap s)
       (attached s) (storage s) (timeouts s) (playDisabled s).
Definition with_orbs (v : list ref) (s : game) : game :=
  Game (score s) (best s) (timeLeft s) (running s) (lastHitTime s) (combo s) v
       (raf s) (lastTs s) (timerId s) (bounds s) (prefersReduced s) (heap s)
       (attached s) (storage s) (timeouts s) (playDisabled s).
Definition with_raf (v : bool) (s : game) : game :=
  Game (score s) (best s) (timeLeft s) (running s) (lastHitTime s) (combo s) (orbs s)
       v (lastTs s) (timerId s) (bounds s) (prefersReduced s) (heap s)
       (attached s) (storage s) (timeouts s) (playDisabled s).
Definition with_lastTs (v : option Q) (s : game) : game :=
  Game (score s) (best s) (timeLeft s) (running s) (lastHitTime s) (combo s) (orbs s)
       (raf s) v (timerId s) (bounds s) (prefersReduced s) (heap s)
       (attached s) (storage s) (timeouts s) (playDisabled s).
Definition with_timerId (v : bool) (s : game) : game :=
  Game (score s) (best s) (timeLeft s) (running s) (lastHitTime s) (combo s) (orbs s)
       (raf s) (lastTs s) v (bounds s) (prefersReduced s) (heap s)
       (attached s) (storage s) (timeouts s) (playDisabled s).
Definition with_bounds (v : Bounds.t) (s : game) : game :=
  Game (score s) (best s) (timeLeft s) (running s) (lastHitTime s) (combo s) (orbs s)
       (raf s) (lastTs s) (timerId s) v (prefersReduced s) (heap s)
       (attached s) (storage s) (timeouts s) (playDisabled s).
Definition with_heap (v : list Orb.t) (s : game) : game :=
  Game (score s) (best s) (timeLeft s) (running s) (lastHitTime s) (combo s) (orbs s)
       (raf s) (lastTs s) (timerId s) (bounds s) (prefersReduced s) v
       (attached s) (storage s) (timeouts s) (playDisabled s).
Definition with_attached (v : list ref) (s : game) : game :=
  Game (score s) (best s) (timeLeft s) (running s) (lastHitTime s) (combo s) (orbs s)
       (raf s) (lastTs s) (timerId s) (bounds s) (prefersReduced s) (heap s)
       v (storage s) (timeouts s) (playDisabled s).
Definition with_storage (v : gmap string string) (s : game) : game :=
  Game (score s) (best s) (timeLeft s) (running s) (lastHitTime s) (combo s) (orbs s)
       (raf s) (lastTs s) (timerId s) (bounds s) (prefersReduced s) (heap s)
       (attached s) v (timeouts s) (playDisabled s).
Definition with_timeouts (v : list ref) (s : game) : game :=
  Game (score s) (best s) (timeLeft s) (running s) (lastHitTime s) (combo s) (orbs s)
       (raf s) (lastTs s) (timerId s) (bounds s) (prefersReduced s) (heap s)
       (attached s) (storage s) v (playDisabled s).
Definition with_playDisabled (v : bool) (s : game) : game :=
  Game (score s) (best s) (timeLeft s) (running s) (lastHitTime s) (combo s) (orbs s)
       (raf s) (lastTs s) (timerId s) (bounds s) (prefersReduced s) (heap s)
       (attached s) (storage s) (timeouts s) v.

(** ** Utilities (lines 43-51) *)

(** [x < y] on numbers. *)
Definition Qlt_bool (a b : Q) : bool := negb (Qle_bool b a).

(** [clamp = (v, min, max) => Math.max(min, Math.min(max, v))] *)
Definition clamp (v min max : Q) : Q := Qmax min (Qmin max v).

(** [rand = (min, max) => Math.random() * (max - min) + min], for the
    outcome [u] of [Math.random()]. *)
Definition rand (u min max : Q) : Q := u * (max - min) + min.

(** [measure()], for the rectangle the host reports. *)
Definition measure (rc : Bounds.t) (s : game) : game := with_bounds rc s.

(** ** Orbs (lines 53-78) *)

(** [makeOrb()]: a new object and its element, appended to the game area.
    The coordinates are read back from the style strings just written, which
    gives the numbers written. *)
Definition makeOrb (d : draw) (s : game) : game * ref :=
  let left := rand (u_left d) 20 (Bounds.w (bounds s) - 20) in
  let top := rand (u_top d) 20 (Bounds.h (bounds s) - 20) in
  let speed := if prefersReduced s then 0 else rand (u_speed d) SPEED_MIN SPEED_MAX in
  let vx := dir_cos d * speed in
  let vy := dir_sin d * speed in
  let orb := Orb.mk left top vx vy true in
  let r := length (heap s) in
  (with_attached (attached s ++ [r]) (with_heap (heap s ++ [orb]) s), r).

(** [orbs.push(makeOrb())] *)
Definition pushOrb (d : draw) (s : game) : game :=
  let '(s1, r) := makeOrb d s in with_orbs (orbs s1 ++ [r]) s1.

(** [spawnOrbs(n)]; [rnd i] is what the host draws for the [i]-th orb. *)
Fixpoint spawnOrbs (n : nat) (rnd : nat -> draw) (s : game) : game :=
  match n with
  | O => s
  | S k => spawnOrbs k (fun i => rnd (S i)) (pushOrb (rnd O) s)
  end.

(** [el.remove()] for the element of orb [r]. *)
Definition detach (r : ref) (s : game) : game :=
  with_attached (filter (fun r' => r' <> r) (attached s)) s.

(** [orbs.indexOf(orb)]: strict equality on objects is equality of
    references; [None] stands for -1. *)
Fixpoint indexOf (r : ref) (l : list ref) : option nat :=
  match l with
  | [] => None
  | r' :: l' => if Nat.eqb r' r then Some O else S <$> indexOf r l'
  end.

(** ** Hits (lines 80-118) *)

(** [const idx = orbs.indexOf(orb); if (idx > -1) orbs.splice(idx, 1);] *)
Definition spliceOrb (r : ref) (l : list ref) : list ref :=
  match indexOf r l with
  | Some idx => delete idx l
  | None => l
  end.

(** The respawn closure of [hitOrb], for the orb it captured. *)
Definition respawn (r : ref) (d : draw) (s : game) : game :=
  if negb (running s) then s
  else
    let s1 := detach r s in
    let s2 := with_orbs (spliceOrb r (orbs s1)) s1 in
    pushOrb d s2.

(** [hitOrb(orb)], with [t] the reading of [now()].  A reference outside the
    heap names no object; no listener exists for it. *)
Definition hitOrb (r : ref) (t : Q) (s : game) : game :=
  match heap s !! r with
  | None => s
  | Some orb =>
      if negb (running s) || negb (Orb.alive orb) then s
      else
        let combo' :=
          if Qle_bool (t - lastHitTime s) COMBO_WINDOW_MS
          then (combo s + 1)%Z else 0%Z in
        let points := (BASE_POINTS * (1 + Z.min combo' 5))%Z in
        with_timeouts (timeouts s ++ [r])
          (with_heap (<[r := Orb.set_alive orb false]> (heap s))
            (with_score (score s + points)
              (with_lastHitTime t
                (with_combo combo' s))))
  end.

(** ** Motion (lines 120-144) *)

(** Lines 133-136, one function per line. *)
Definition bounce_left (o : Orb.t) : Orb.t :=
  if Qlt_bool (Orb.x o) 12 then Orb.set_x_vx o 12 (Qabs (Orb.vx o)) else o.
Definition bounce_top (o : Orb.t) : Orb.t :=
  if Qlt_bool (Orb.y o) 12 then Orb.set_y_vy o 12 (Qabs (Orb.vy o)) else o.
Definition bounce_right (b : Bounds.t) (o : Orb.t) : Orb.t :=
  if Qlt_bool (Bounds.w b - 12) (Orb.x o)
  then Orb.set_x_vx o (Bounds.w b - 12) (- Qabs (Orb.vx o)) else o.
Definition bounce_bottom (b : Bounds.t) (o : Orb.t) : Orb.t :=
  if Qlt_bool (Bounds.h b - 12) (Orb.y o)
  then Orb.set_y_vy o (Bounds.h b - 12) (- Qabs (Orb.vy o)) else o.

(** The body of the loop of [step] for one orb. *)
Definition moveOrb (dt : Q) (b : Bounds.t) (o : Orb.t) : Orb.t :=
  if negb (Orb.alive o) then o
  else
    let o1 := Orb.set_pos o (Orb.x o + Orb.vx o * dt) (Orb.y o + Orb.vy o * dt) in
    bounce_bottom b (bounce_right b (bounce_top (bounce_left o1))).

(** [const dt = Math.min(0.032, (ts - lastTs) / 1000)], after
    [if (lastTs == null) lastTs = ts]. *)
Definition frame_dt (ts : Q) (last : option Q) : Q :=
  Qmin 0.032 ((ts - default ts last) / 1000).

(** [step(ts)] *)
Definition step (ts : Q) (s : game) : game :=
  if negb (running s) then s
  else
    let dt := frame_dt ts (lastTs s) in
    let hp := foldl (fun hp r => alter (moveOrb dt (bounds s)) r hp) (heap s) (orbs s) in
    with_raf true (with_heap hp (with_lastTs (Some ts) s)).

(** ** Round control (lines 146-206) *)

(** [clearGame()] *)
Definition clearGame (s : game) : game :=
  with_orbs []
    (with_attached (filter (fun r' => r' ∉ orbs s) (attached s))
      (with_timerId false
        (with_lastTs None
          (with_raf false s)))).

(** [endGame()] *)
Definition endGame (s : game) : game :=
  let s1 := with_playDisabled false (clearGame (with_running false s)) in
  if (score s1 >? best s1)%Z
  then with_storage (<["jk_best_score" := pretty (score s1)]> (storage s1))
         (with_best (score s1) s1)
  else s1.

(** The interval callback installed by [startTimer]. *)
Definition tick (s : game) : game :=
  let s1 := with_timeLeft (timeLeft s - 1) s in
  if (timeLeft s1 <=? 0)%Z then endGame s1 else s1.

(** [startTimer()] *)
Definition startTimer (s : game) : game :=
  with_timerId true (with_timeLeft ROUND_SECONDS s).

(** [startGame()] *)
Definition startGame (rc : Bounds.t) (rnd : nat -> draw) (s : game) : game :=
  let s1 := clearGame (measure rc s) in
  let s2 := with_playDisabled true
              (with_lastHitTime 0
                (with_combo 0%Z
                  (with_score 0%Z
                    (with_running true s1)))) in
  with_raf true (startTimer (spawnOrbs ORB_COUNT rnd s2)).

(** ** Listeners (lines 208-225) *)

(** The resize listener. *)
Definition clampOrb (b : Bounds.t) (o : Orb.t) : Orb.t :=
  Orb.set_pos o (clamp (Orb.x o) 12 (Bounds.w b - 12))
                (clamp (Orb.y o) 12 (Bounds.h b - 12)).

Definition resize (rc : Bounds.t) (s : game) : game :=
  let s1 := measure rc s in
  with_heap (foldl (fun hp r => alter (clampOrb (bounds s1)) r hp) (heap s1) (orbs s1)) s1.

(** The keydown listener of the game area, for Enter or space. *)
Definition areaKeydown (rc : Bounds.t) (rnd : nat -> draw) (s : game) : game :=
  if negb (running s) then startGame rc rnd s else s.

(** ** The host *)

(** What the browser can deliver.  A disabled button gets no click; a
    pointer or key event reaches an orb only while its element is in the
    document, and a key event on an orb bubbles to the game area; the
    oldest respawn time-out runs first; a frame or an interval callback runs
    only while requested. *)
Inductive event :=
| PlayClick (rc : Bounds.t) (rnd : nat -> draw)
| AreaKey (rc : Bounds.t) (rnd : nat -> draw)
| OrbClick (r : ref) (t : Q)
| OrbKey (r : ref) (t : Q) (rc : Bounds.t) (rnd : nat -> draw)
| Timeout (d : draw)
| Frame (ts : Q)
| Tick
| Resize (rc : Bounds.t).

Definition dispatch (s : game) (e : event) : game :=
  match e with
  | PlayClick rc rnd => if playDisabled s then s else startGame rc rnd s
  | AreaKey rc rnd => areaKeydown rc rnd s
  | OrbClick r t => if bool_decide (r ∈ attached s) then hitOrb r t s else s
  | OrbKey r t rc rnd =>
      if bool_decide (r ∈ attached s) then areaKeydown rc rnd (hitOrb r t s) else s
  | Timeout d =>
      match timeouts s with
      | [] => s
      | r :: rest => respawn r d (with_timeouts rest s)
      end
  | Frame ts => if raf s then step ts (with_raf false s) else s
  | Tick => if timerId s then tick s else s
  | Resize rc => resize rc s
  end.

Definition run (s : game) (es : list event) : game := foldl dispatch s es.

(** The state when the script has been loaded: [pr] is the media query
    result, [store] the local storage, [b] the number read from it for the
    best score, [rc] the rectangle of the initial [measure()]. *)
Definition boot (pr : bool) (store : gmap string string) (b : Z) (rc : Bounds.t) : game :=
  {| score := 0; best := b; timeLeft := ROUND_SECONDS; running := false;
     lastHitTime := 0; combo := 0; orbs := []; raf := false; lastTs := None;
     timerId := false; bounds := rc; prefersReduced := pr; heap := [];
     attached := []; storage := store; timeouts := []; playDisabled := false |}.

(** ** Scoring and scenarios *)

(** The combo counter after a hit at clock reading [t]: lines 85-89. *)
Definition next_combo (t : Q) (s : game) : Z :=
  if Qle_bool (t - lastHitTime s) COMBO_WINDOW_MS then (combo s + 1)%Z else 0%Z.

(** [orb.alive] for the object behind a reference. *)
Definition live_at (r : ref) (s : game) : bool :=
  match heap s !! r with Some o => Orb.alive o | None => false end.

(** A round on a 400 x 300 surface, every orb drawn at the centre, moving
    right at 52.5 px/s. *)
Definition centre_draw : draw := Draw (1#2) (1#2) (1#8) 1 0.
Definition arena : Bounds.t := Bounds.mk 400 300.
Definition fresh_round : game :=
  startGame arena (fun _ => centre_draw) (boot false ∅ 0 arena).

(** The combo and the awarded points of each hit of a series, and the state
    after the series. *)
Fixpoint play_hits (hits : list (ref * Q)) (s : game) : list (Z * Z) * game :=
  match hits with
  | [] => ([], s)
  | (r, t) :: rest =>
      let s1 := hitOrb r t s in
      let '(log, s2) := play_hits rest s1 in
      ((combo s1, (score s1 - score s)%Z) :: log, s2)
  end.

(** Four hits on four different orbs, at the clock readings [base + 0],
    [base + 200], [base + 500] and [base + 1700]. *)
Definition four_hits (base : Q) : list (ref * Q) :=
  [(0%nat, base + 0); (1%nat, base + 200); (2%nat, base + 500); (3%nat, base + 1700)].

(** ** Predicates used in the statements *)

(** The padded bounds: both coordinates within [[MARGIN, size - MARGIN]]. *)
Definition within (b : Bounds.t) (o : Orb.t) : Prop :=
  (MARGIN <= Orb.x o <= Bounds.w b - MARGIN) /\
  (MARGIN <= Orb.y o <= Bounds.h b - MARGIN).

(** A surface on which the spawn range [[20, size - 20)] lies inside the
    padded bounds. *)
Definition roomy (rc : Bounds.t) : Prop := 32 <= Bounds.w rc /\ 32 <= Bounds.h rc.

(** [Math.random()] returns a number in [[0, 1)]. *)
Definition unit_draw (d : draw) : Prop :=
  (0 <= u_left d < 1) /\ (0 <= u_top d < 1) /\ (0 <= u_speed d < 1).

(** An event whose measured rectangles are roomy and whose draws are outcomes
    of [Math.random()]. *)
Definition fair (e : event) : Prop :=
  match e with
  | PlayClick rc rnd | AreaKey rc rnd | OrbKey _ _ rc rnd =>
      roomy rc /\ forall i, unit_draw (rnd i)
  | Timeout d => unit_draw d
  | Resize rc => roomy rc
  | OrbClick _ _ | Frame _ | Tick => True
  end.

(** The speed [makeOrb] assigns, and the object it creates. *)
Definition spawn_speed (d : draw) (s : game) : Q :=
  if prefersReduced s then 0 else rand (u_speed d) SPEED_MIN SPEED_MAX.

Definition spawned (d : draw) (s : game) : Orb.t :=
  Orb.mk (rand (u_left d) 20 (Bounds.w (bounds s) - 20))
         (rand (u_top d) 20 (Bounds.h (bounds s) - 20))
         (dir_cos d * spawn_speed d s) (dir_sin d * spawn_speed d s) true.

(** The two velocity components have the same absolute values. *)
Definition same_speed (o o' : Orb.t) : Prop :=
  Qabs (Orb.vx o') = Qabs (Orb.vx o) /\ Qabs (Orb.vy o') = Qabs (Orb.vy o).

(** What holds of the references in every state the script reaches: the
    array lists each orb once, every listed orb exists, and the orb elements
    in the game area are those of the listed orbs, in the same order. *)
Definition wf (s : game) : Prop :=
  NoDup (orbs s) /\
  (forall r, r ∈ orbs s -> (r < length (heap s))%nat) /\
  attached s = orbs s.

(** Every reference in the array and in the game area names an object
    created after the first [n]. *)
Definition fresh_from (n : nat) (s : game) : Prop :=
  (forall r, r ∈ orbs s -> (n <= r)%nat) /\
  (forall r, r ∈ attached s -> (n <= r)%nat) /\
  (n <= length (heap s))%nat.

(** The surface is roomy and every orb of the array lies within the padded
    bounds. *)
Definition orbs_within (s : game) : Prop :=
  roomy (bounds s) /\
  forall r o, r ∈ orbs s -> heap s !! r = Some o -> within (bounds s) o.

(** The two lines of [step] that handle one axis, on the coordinate [p] and
    the velocity component [v]: the low edge first, then the high edge. *)
Definition axis (lo hi p v : Q) : Q * Q :=
  let '(p1, v1) := if Qlt_bool p lo then (lo, Qabs v) else (p, v) in
  if Qlt_bool hi p1 then (hi, - Qabs v1) else (p1, v1).

(** Every object of [s] is still an object of [s'], with the same absolute
    velocity components. *)
Definition keeps_speed (s s' : game) : Prop :=
  forall r o, heap s !! r = Some o ->
    exists o', heap s' !! r = Some o' /\ same_speed o o'.

(** The object [o] still has the speed that [makeOrb] assigned in state [s]
    from the draw [d]. *)
Definition has_spawn_speed (d : draw) (s : game) (o : Orb.t) : Prop :=
  Qabs (Orb.vx o) = Qabs (dir_cos d * spawn_speed d s) /\
  Qabs (Orb.vy o) = Qabs (dir_sin d * spawn_speed d s) /\
  (dir_cos d * dir_cos d + dir_sin d * dir_sin d == 1 ->
   Orb.vx o * Orb.vx o + Orb.vy o * Orb.vy o == spawn_speed d s * spawn_speed d s) /\
  (prefersReduced s = true -> Orb.vx o == 0 /\ Orb.vy o == 0).

(** ** Scenarios on other surfaces *)

(** A surface 30 px wide, and a draw that puts the orb at x = 10.625 on it,
    moving right at 52.5 px/s. *)
Definition narrow : Bounds.t := Bounds.mk 30 200.
Definition edge_draw : draw := Draw (15#16) (1#2) (1#8) 1 0.

(** A round on the narrow surface in which, after the first frame, the
    first orb is hit and its replacement is drawn at the edge. *)
Definition narrow_round : game :=
  run (boot false ∅ 0 narrow)
      [PlayClick narrow (fun _ => centre_draw); Frame 1000;
       OrbClick 0%nat 5000; Timeout edge_draw].

(** A reduced-motion round on the 400 x 300 surface, every orb drawn at
    x = 335. *)
Definition far_draw : draw := Draw (7#8) (1#2) (1#8) 1 0.
Definition calm_round : game :=
  run (boot true ∅ 0 arena) [PlayClick arena (fun _ => far_draw)].

(** A round in which an orb is hit just before the countdown ends, and the
    next round is started before the respawn time-out of that hit runs. *)
Definition quick_restart : list event :=
  [PlayClick arena (fun _ => centre_draw)] ++ repeat Tick 19 ++
  [OrbClick 0%nat 21900; Tick; PlayClick arena (fun _ => centre_draw);
   Timeout centre_draw].

(** The same round up to its end, with the respawn time-out of the hit still
    to run, and the state in which the next round has been started. *)
Definition last_second_hit : list event :=
  [PlayClick arena (fun _ => centre_draw)] ++ repeat Tick 19 ++
  [OrbClick 0%nat 21900; Tick].
Definition ended_round : game := run (boot false ∅ 0 arena) last_second_hit.
Definition restarted_round : game :=
  dispatch ended_round (PlayClick arena (fun _ => centre_draw)).

(** The hit an event delivers to [hitOrb], if any. *)
Definition hit_of (e : event) : option (ref * Q) :=
  match e with
  | OrbClick r t | OrbKey r t _ _ => Some (r, t)
  | PlayClick _ _ | AreaKey _ _ | Timeout _ | Frame _ | Tick | Resize _ => None
  end.

(** ** Rounds without a stale respawn *)

(** The events whose listener can call [startGame]. *)
Definition can_start (e : event) : bool :=
  match e with
  | PlayClick _ _ | AreaKey _ _ | OrbKey _ _ _ _ => true
  | OrbClick _ _ | Timeout _ | Frame _ | Tick | Resize _ => false
  end.

(** A run in which no round is started while a respawn closure of an
    earlier round is still scheduled. *)
Fixpoint patient (s : game) (es : list event) : Prop :=
  match es with
  | [] => True
  | e :: es' =>
      (running s = false -> can_start e = true -> timeouts s = []) /\
      patient (dispatch s e) es'
  end.

(** While a round runs: six orbs in the array, the play button disabled,
    and every scheduled respawn closure holds an orb of the array that is no
    longer alive, each orb at most once. *)
Definition round_ok (s : game) : Prop :=
  wf s /\ NoDup (timeouts s) /\
  (running s = true ->
     length (orbs s) = ORB_COUNT /\ playDisabled s = true /\
     forall r, r ∈ timeouts s -> r ∈ orbs s /\ live_at r s = false).

(** ** The page status and the books *)

(** The variables that tell whether a round runs, the score sheet of the
    round, and what outlives a round. *)
Definition status (s : game) : bool * bool * bool * Z :=
  (running s, timerId s, playDisabled s, timeLeft s).
Definition sheet (s : game) : Z * Z * Q := (score s, combo s, lastHitTime s).
Definition vault (s : game) : Z * gmap string string := (best s, storage s).

(** The number of interval callbacks in a run of events. *)
Fixpoint ticks (es : list event) : nat :=
  match es with
  | [] => O
  | Tick :: es' => S (ticks es')
  | _ :: es' => ticks es'
  end.

(** What holds of the status in every state the page reaches. *)
Definition settled (s : game) : Prop :=
  timerId s = running s /\ raf s = running s /\ playDisabled s = running s /\
  (running s = false ->
     orbs s = [] /\ (timeLeft s = ROUND_SECONDS \/ timeLeft s = 0%Z)) /\
  (running s = true -> (1 <= timeLeft s <= ROUND_SECONDS)%Z).

(** ** Reading the best score back (line 28) *)

(** The value of a decimal digit: the characters with codes 48 to 57. *)
Definition digit_of (c : ascii) : option N :=
  let code := N_of_ascii c in
  if ((48 <=? code) && (code <=? 57))%N then Some (code - 48)%N else None.

Fixpoint digits_value (acc : N) (s : string) : option N :=
  match s with
  | EmptyString => Some acc
  | String c s' =>
      match digit_of c with
      | Some d => digits_value (acc * 10 + d) s'
      | None => None
      end
  end.

(** [Number(s)] for a string of decimal digits (0 for the empty string), as
    the integer it denotes: numbers are the idealised integers of this
    model.  [None] stands for the other strings, on which the script would
    get a number that this integer model does not cover. *)
Definition Number (s : string) : option Z := Z.of_N <$> digits_value 0 s.

(** [Number(localStorage.getItem('jk_best_score') || 0)]: a missing entry
    and the empty string are falsy and give the number 0. *)
Definition loadBest (store : gmap string string) : option Z :=
  match store !! "jk_best_score" with
  | Some s => if decide (s = EmptyString) then Some 0%Z else Number s
  | None => Some 0%Z
  end.

(** The page as the script leaves it when loaded with the local storage
    [store]; [None] when the stored text is outside the model of [Number]. *)
Definition load (pr : bool) (store : gmap string string) (rc : Bounds.t) : option game :=
  (fun b => boot pr store b rc) <$> loadBest store.

(** ** Chains of hits *)

(** Each hit of the series is within the combo window of the one before it,
    the first one of the reading [last]. *)
Fixpoint chained (last : Q) (hits : list (ref * Q)) : Prop :=
  match hits with
  | [] => True
  | (_, t) :: rest => t - last <= COMBO_WINDOW_MS /\ chained t rest
  end.

(** The combos and points of a chain of [n] hits that starts from the combo
    counter [c]. *)
Fixpoint chain_log (c : Z) (n : nat) : list (Z * Z) :=
  match n with
  | O => []
  | S k => ((c + 1)%Z, (BASE_POINTS * (1 + Z.min (c + 1) COMBO_CAP))%Z) :: chain_log (c + 1) k
  end.

(** ** Objects over time *)

(** Every object of [s] is still an object of [s'], related to it by [R]. *)
Definition carries (R : Orb.t -> Orb.t -> Prop) (s s' : game) : Prop :=
  forall r o, heap s !! r = Some o -> exists o', heap s' !! r = Some o' /\ R o o'.

(** An orb that has been hit stays hit. *)
Definition no_revival (o o' : Orb.t) : Prop :=
  Orb.alive o = false -> Orb.alive o' = false.

(** A hit orb is left as it is. *)
Definition frozen (o o' : Orb.t) : Prop := Orb.alive o = false -> o' = o.

(** The events that are not a resize. *)
Definition no_resize (e : event) : Prop :=
  match e with Resize _ => False | _ => True end.

(** ** The books *)

(** What holds of the score sheet in every state the page reaches. *)
Definition sheet_ok (s : game) : Prop :=
  (0 <= combo s)%Z /\ (0 <= score s)%Z /\ (BASE_POINTS | score s)%Z.

(** The local storage [st'] is [st] or [st] with a new best score. *)
Definition only_best_written (st st' : gmap string string) : Prop :=
  forall k, k <> "jk_best_score" -> st' !! k = st !! k.

(** ** Further scenarios *)

(** The object that [r] names in [s]. *)
Definition orb_at (r : ref) (s : game) : Orb.t :=
  default (Orb.mk 0 0 0 0 false) (heap s !! r).

(** The round of [fresh_round] after its first frame, at time stamp 1000. *)
Definition moving_round : game :=
  run (boot false ∅ 0 arena) [PlayClick arena (fun _ => centre_draw); Frame 1000].

(** A draw in the direction (3/5, 4/5), on a surface of 40 px by 300 px. *)
Definition slant_draw : draw := Draw (1#2) (1#4) (1#2) (3#5) (4#5).
Definition strip : Bounds.t := Bounds.mk 40 300.

(** * Properties *)

(** ** Comparisons *)

Lemma Qlt_bool_iff (a b : Q) : Qlt_bool a b = true <-> a < b.
Proof.
  unfold Qlt_bool. rewrite negb_true_iff. split.
  - intros H. apply Qnot_le_lt. intros Hle.
    apply Qle_bool_iff in Hle. congruence.
  - intros H. destruct (Qle_bool b a) eqn:E; [|reflexivity].
    apply Qle_bool_iff in E. lra.
Qed.

Lemma Qlt_bool_false (a b : Q) : Qlt_bool a b = false <-> b <= a.
Proof.
  unfold Qlt_bool. rewrite negb_false_iff. apply Qle_bool_iff.
Qed.

Lemma Qle_bool_false (a b : Q) : Qle_bool a b = false <-> b < a.
Proof.
  split.
  - intros H. apply Qnot_le_lt. intros Hle.
    apply Qle_bool_iff in Hle. congruence.
  - intros H. destruct (Qle_bool a b) eqn:E; [|reflexivity].
    apply Qle_bool_iff in E. lra.
Qed.

(** ** The utilities on numbers *)

Example clamp_below : clamp 5 12 388 == 12.
Proof. vm_compute. reflexivity. Qed.

Example clamp_above : clamp 400 12 388 == 388.
Proof. vm_compute. reflexivity. Qed.

Example clamp_between : clamp 100 12 388 == 100.
Proof. vm_compute. reflexivity. Qed.

Example rand_low : rand 0 40 140 == 40.
Proof. vm_compute. reflexivity. Qed.

Example first_frame_has_no_duration : frame_dt 1000 None == 0.
Proof. vm_compute. reflexivity. Qed.

Example frame_duration_in_seconds : frame_dt 1016 (Some 1000) == 16 # 1000.
Proof. vm_compute. reflexivity. Qed.

Example frame_duration_is_capped : frame_dt 3000 (Some 1000) == 32 # 1000.
Proof. vm_compute. reflexivity. Qed.

(** ** Arrays of references and the heap *)

Section HeapLoops.
Variable f : Orb.t -> Orb.t.

Lemma foldl_alter_length (l : list ref) (hp : list Orb.t) :
  length (foldl (fun hp r => alter f r hp) hp l) = length hp.
Proof.
  revert hp. induction l as [|a l IH]; intros hp; simpl; [reflexivity|].
  rewrite IH. apply length_alter.
Qed.

Lemma foldl_alter_lookup (l : list ref) (hp : list Orb.t) (r : ref) :
  foldl (fun hp r => alter f r hp) hp l !! r
  = Nat.iter (count_occ Nat.eq_dec l r) f <$> hp !! r.
Proof.
  revert hp. induction l as [|a l IH]; intros hp; simpl.
  - destruct (hp !! r); reflexivity.
  - rewrite IH. destruct (Nat.eq_dec a r) as [->|Hne].
    + rewrite list_lookup_alter_eq. destruct (hp !! r) as [o|]; simpl; [|reflexivity].
      f_equal. symmetry. apply Nat.iter_succ_r.
    + rewrite list_lookup_alter_ne by exact Hne. reflexivity.
Qed.

Lemma foldl_alter_lookup_once (l : list ref) (hp : list Orb.t) (r : ref) :
  NoDup l -> r ∈ l ->
  foldl (fun hp r => alter f r hp) hp l !! r = f <$> hp !! r.
Proof.
  intros Hnd Hin. rewrite foldl_alter_lookup.
  replace (count_occ Nat.eq_dec l r) with 1%nat; [reflexivity|].
  symmetry. apply NoDup_ListNoDup in Hnd.
  apply (proj1 (List.NoDup_count_occ' Nat.eq_dec l) Hnd).
  apply list_elem_of_In. exact Hin.
Qed.

(** A property kept by [f] is kept by the loop. *)
Lemma foldl_alter_keeps (P : Orb.t -> Prop) (l : list ref) (hp : list Orb.t)
      (r : ref) (o' : Orb.t) :
  (forall o, P o -> P (f o)) ->
  foldl (fun hp r => alter f r hp) hp l !! r = Some o' ->
  exists o, hp !! r = Some o /\ (P o -> P o').
Proof.
  intros HP. rewrite foldl_alter_lookup.
  destruct (hp !! r) as [o|]; simpl; [|discriminate].
  intros [= <-]. exists o. split; [reflexivity|].
  generalize (count_occ Nat.eq_dec l r). intros n.
  induction n as [|n IH]; simpl; auto.
Qed.

(** A property established by [f] holds of every listed object. *)
Lemma foldl_alter_makes (P : Orb.t -> Prop) (l : list ref) (hp : list Orb.t)
      (r : ref) (o' : Orb.t) :
  (forall o, P (f o)) -> r ∈ l ->
  foldl (fun hp r => alter f r hp) hp l !! r = Some o' -> P o'.
Proof.
  intros HP Hin. rewrite foldl_alter_lookup.
  destruct (hp !! r) as [o|]; simpl; [|discriminate].
  intros [= <-].
  assert (Hn : (0 < count_occ Nat.eq_dec l r)%nat).
  { apply List.count_occ_In. apply list_elem_of_In. exact Hin. }
  destruct (count_occ Nat.eq_dec l r) as [|n]; [lia|]. simpl. apply HP.
Qed.
End HeapLoops.

Lemma filter_all (P : ref -> Prop) `{!forall r, Decision (P r)} (l : list ref) :
  (forall r, r ∈ l -> P r) -> filter P l = l.
Proof.
  induction l as [|a l IH]; intros HP; [reflexivity|].
  rewrite filter_cons_True by (apply HP; left).
  f_equal. apply IH. intros r Hr. apply HP. right. exact Hr.
Qed.

Lemma filter_none (P : ref -> Prop) `{!forall r, Decision (P r)} (l : list ref) :
  (forall r, r ∈ l -> ~ P r) -> filter P l = [].
Proof.
  induction l as [|a l IH]; intros HP; [reflexivity|].
  rewrite filter_cons_False by (apply HP; left).
  apply IH. intros r Hr. apply HP. right. exact Hr.
Qed.

Lemma spliceOrb_filter (r : ref) (l : list ref) :
  NoDup l -> spliceOrb r l = filter (fun r' => r' <> r) l.
Proof.
  unfold spliceOrb. induction l as [|a l IH]; intros Hnd; [reflexivity|].
  apply NoDup_cons in Hnd as [Ha Hnd]. simpl.
  destruct (Nat.eqb a r) eqn:E.
  - apply Nat.eqb_eq in E. subst a. simpl.
    rewrite filter_cons_False by (intros H; apply H; reflexivity).
    symmetry. apply filter_all. intros r' Hr' ->. contradiction.
  - apply Nat.eqb_neq in E. rewrite filter_cons_True by exact E.
    specialize (IH Hnd). destruct (indexOf r l) as [i|]; simpl; f_equal; exact IH.
Qed.

Lemma spliceOrb_subseteq (r : ref) (l : list ref) (r' : ref) :
  r' ∈ spliceOrb r l -> r' ∈ l.
Proof.
  unfold spliceOrb. destruct (indexOf r l) as [i|]; [|auto].
  apply list_elem_of_delete_inv.
Qed.

Lemma spliceOrb_length (r : ref) (l : list ref) :
  r ∈ l -> S (length (spliceOrb r l)) = length l.
Proof.
  unfold spliceOrb. induction l as [|a l IH]; intros Hin.
  - inversion Hin.
  - simpl. destruct (Nat.eqb a r) eqn:E; [reflexivity|].
    apply Nat.eqb_neq in E. apply elem_of_cons in Hin as [->|Hin]; [congruence|].
    specialize (IH Hin). destruct (indexOf r l) as [i|]; simpl in *; lia.
Qed.

(** ** Field by field *)

Ltac fields :=
  cbn [score best timeLeft running lastHitTime combo orbs raf lastTs timerId
       bounds prefersReduced heap attached storage timeouts playDisabled
       with_score with_best with_timeLeft with_running with_lastHitTime
       with_combo with_orbs with_raf with_lastTs with_timerId with_bounds
       with_heap with_attached with_storage with_timeouts with_playDisabled
       measure detach startTimer fst snd].

Lemma pushOrb_orbs (d : draw) (s : game) :
  orbs (pushOrb d s) = orbs s ++ [length (heap s)].
Proof. reflexivity. Qed.

Lemma pushOrb_heap (d : draw) (s : game) :
  heap (pushOrb d s) = heap s ++ [spawned d s].
Proof. reflexivity. Qed.

Lemma pushOrb_attached (d : draw) (s : game) :
  attached (pushOrb d s) = attached s ++ [length (heap s)].
Proof. reflexivity. Qed.

Lemma spawnOrbs_orbs (n : nat) (rnd : nat -> draw) (s : game) :
  orbs (spawnOrbs n rnd s) = orbs s ++ seq (length (heap s)) n.
Proof.
  revert rnd s. induction n as [|n IH]; intros rnd s; simpl.
  - symmetry. apply app_nil_r.
  - rewrite IH, pushOrb_orbs, pushOrb_heap, length_app, <- app_assoc. simpl.
    repeat f_equal. lia.
Qed.

Lemma spawnOrbs_attached (n : nat) (rnd : nat -> draw) (s : game) :
  attached (spawnOrbs n rnd s) = attached s ++ seq (length (heap s)) n.
Proof.
  revert rnd s. induction n as [|n IH]; intros rnd s; simpl.
  - symmetry. apply app_nil_r.
  - rewrite IH, pushOrb_attached, pushOrb_heap, length_app, <- app_assoc. simpl.
    repeat f_equal. lia.
Qed.

Lemma spawnOrbs_heap (n : nat) (rnd : nat -> draw) (s : game) :
  heap (spawnOrbs n rnd s) = heap s ++ map (fun i => spawned (rnd i) s) (seq 0 n).
Proof.
  revert rnd s. induction n as [|n IH]; intros rnd s; simpl.
  - symmetry. apply app_nil_r.
  - rewrite IH, pushOrb_heap, <- app_assoc. cbn [app map seq]. do 2 f_equal.
    rewrite <- seq_shift, map_map. reflexivity.
Qed.

Lemma spawnOrbs_rest (n : nat) (rnd : nat -> draw) (s : game) :
  score (spawnOrbs n rnd s) = score s /\
  combo (spawnOrbs n rnd s) = combo s /\
  lastHitTime (spawnOrbs n rnd s) = lastHitTime s /\
  running (spawnOrbs n rnd s) = running s /\
  bounds (spawnOrbs n rnd s) = bounds s /\
  prefersReduced (spawnOrbs n rnd s) = prefersReduced s /\
  timeouts (spawnOrbs n rnd s) = timeouts s /\
  best (spawnOrbs n rnd s) = best s /\
  storage (spawnOrbs n rnd s) = storage s.
Proof.
  revert rnd s. induction n as [|n IH]; intros rnd s; simpl.
  - repeat split.
  - exact (IH (fun i => rnd (S i)) (pushOrb (rnd O) s)).
Qed.

(** ** Well-formed references *)

Lemma wf_boot pr store b rc : wf (boot pr store b rc).
Proof. repeat split; simpl; [constructor | intros r Hr; inversion Hr]. Qed.

Lemma wf_pushOrb (d : draw) (s : game) : wf s -> wf (pushOrb d s).
Proof.
  intros (Hnd & Hlt & Hat).
  unfold wf. rewrite pushOrb_orbs, pushOrb_heap, pushOrb_attached, length_app.
  split; [|split].
  - apply NoDup_app. split; [exact Hnd|]. split; [|apply NoDup_singleton].
    intros r Hr Hr'. apply list_elem_of_singleton in Hr'. subst r.
    specialize (Hlt _ Hr). lia.
  - intros r Hr. apply elem_of_app in Hr as [Hr|Hr].
    + specialize (Hlt _ Hr). lia.
    + apply list_elem_of_singleton in Hr. subst r. simpl. lia.
  - rewrite Hat. reflexivity.
Qed.

Lemma wf_spawnOrbs (n : nat) (rnd : nat -> draw) (s : game) :
  wf s -> wf (spawnOrbs n rnd s).
Proof.
  revert rnd s. induction n as [|n IH]; intros rnd s H; simpl; [exact H|].
  apply IH, wf_pushOrb, H.
Qed.

(** [wf] reads three fields only. *)
Lemma wf_same (s s' : game) :
  orbs s' = orbs s -> length (heap s') = length (heap s) -> attached s' = attached s ->
  wf s -> wf s'.
Proof. unfold wf. intros -> -> ->. auto. Qed.

Lemma clearGame_orbs (s : game) : orbs (clearGame s) = [].
Proof. reflexivity. Qed.

Lemma clearGame_attached (s : game) :
  attached s = orbs s -> attached (clearGame s) = [].
Proof.
  intros H. unfold clearGame. fields. rewrite H.
  apply filter_none. intros r Hr Hn. exact (Hn Hr).
Qed.

Lemma wf_clearGame (s : game) : wf s -> wf (clearGame s).
Proof.
  intros (Hnd & Hlt & Hat). split; [|split].
  - rewrite clearGame_orbs. constructor.
  - rewrite clearGame_orbs. intros r Hr. inversion Hr.
  - rewrite clearGame_attached by exact Hat. reflexivity.
Qed.

Lemma wf_startGame (rc : Bounds.t) (rnd : nat -> draw) (s : game) :
  wf s -> wf (startGame rc rnd s).
Proof.
  intros H. unfold startGame.
  assert (H0 : wf (measure rc s)) by (revert H; apply wf_same; reflexivity).
  apply wf_clearGame in H0. revert H0.
  generalize (clearGame (measure rc s)). intros s1 H1. cbv zeta.
  assert (H2 : wf (with_playDisabled true (with_lastHitTime 0 (with_combo 0
                     (with_score 0 (with_running true s1))))))
    by (revert H1; apply wf_same; reflexivity).
  revert H2. generalize (with_playDisabled true (with_lastHitTime 0 (with_combo 0
                     (with_score 0 (with_running true s1))))).
  intros s2 H2. apply (wf_spawnOrbs ORB_COUNT rnd) in H2.
  revert H2. generalize (spawnOrbs ORB_COUNT rnd s2). intros s3.
  apply wf_same; reflexivity.
Qed.

Lemma wf_endGame (s : game) : wf s -> wf (endGame s).
Proof.
  intros H. unfold endGame.
  assert (H0 : wf (with_running false s)) by (revert H; apply wf_same; reflexivity).
  apply wf_clearGame in H0. revert H0.
  generalize (clearGame (with_running false s)). intros s1 H1. cbv zeta.
  assert (H2 : wf (with_playDisabled false s1))
    by (revert H1; apply wf_same; reflexivity).
  revert H2. generalize (with_playDisabled false s1). intros s2 H2.
  destruct (_ >? _)%Z; [|exact H2]. revert H2. apply wf_same; reflexivity.
Qed.

Lemma wf_tick (s : game) : wf s -> wf (tick s).
Proof.
  intros H. unfold tick.
  assert (H0 : wf (with_timeLeft (timeLeft s - 1) s))
    by (revert H; apply wf_same; reflexivity).
  revert H0. generalize (with_timeLeft (timeLeft s - 1) s). intros s1 H1.
  cbv zeta. destruct (_ <=? _)%Z; [apply wf_endGame|]; exact H1.
Qed.

Lemma hitOrb_orbs (r : ref) (t : Q) (s : game) : orbs (hitOrb r t s) = orbs s.
Proof.
  unfold hitOrb. destruct (heap s !! r) as [o|]; [|reflexivity].
  destruct (negb (running s) || negb (Orb.alive o)); reflexivity.
Qed.

Lemma hitOrb_attached (r : ref) (t : Q) (s : game) : attached (hitOrb r t s) = attached s.
Proof.
  unfold hitOrb. destruct (heap s !! r) as [o|]; [|reflexivity].
  destruct (negb (running s) || negb (Orb.alive o)); reflexivity.
Qed.

Lemma hitOrb_heap_length (r : ref) (t : Q) (s : game) :
  length (heap (hitOrb r t s)) = length (heap s).
Proof.
  unfold hitOrb. destruct (heap s !! r) as [o|]; [|reflexivity].
  destruct (negb (running s) || negb (Orb.alive o)); [reflexivity|].
  fields. apply length_insert.
Qed.

Lemma wf_hitOrb (r : ref) (t : Q) (s : game) : wf s -> wf (hitOrb r t s).
Proof.
  apply wf_same;
    [apply hitOrb_orbs | apply hitOrb_heap_length | apply hitOrb_attached].
Qed.

Lemma wf_respawn (r : ref) (d : draw) (s : game) : wf s -> wf (respawn r d s).
Proof.
  intros H. unfold respawn. destruct (negb (running s)); [exact H|].
  apply wf_pushOrb. destruct H as (Hnd & Hlt & Hat).
  unfold wf. fields. rewrite Hat, (spliceOrb_filter r (orbs s) Hnd).
  split; [|split].
  - apply NoDup_filter, Hnd.
  - intros r' Hr'. apply list_elem_of_filter in Hr'. apply Hlt, Hr'.
  - reflexivity.
Qed.

Lemma step_heap_length (ts : Q) (s : game) :
  length (heap (step ts s)) = length (heap s).
Proof.
  unfold step. destruct (negb (running s)); [reflexivity|].
  fields. apply foldl_alter_length.
Qed.

Lemma wf_step (ts : Q) (s : game) : wf s -> wf (step ts s).
Proof.
  apply wf_same; [| apply step_heap_length |];
    unfold step; destruct (negb (running s)); reflexivity.
Qed.

Lemma wf_resize (rc : Bounds.t) (s : game) : wf s -> wf (resize rc s).
Proof.
  apply wf_same; [reflexivity | | reflexivity].
  unfold resize. fields. apply foldl_alter_length.
Qed.

Lemma wf_areaKeydown (rc : Bounds.t) (rnd : nat -> draw) (s : game) :
  wf s -> wf (areaKeydown rc rnd s).
Proof.
  intros H. unfold areaKeydown. destruct (negb (running s)); [|exact H].
  apply wf_startGame, H.
Qed.

Lemma wf_dispatch (s : game) (e : event) : wf s -> wf (dispatch s e).
Proof.
  intros H. destruct e as [rc rnd|rc rnd|r t|r t rc rnd|d|ts| |rc]; simpl.
  - destruct (playDisabled s); [exact H | apply wf_startGame, H].
  - apply wf_areaKeydown, H.
  - destruct (bool_decide _); [apply wf_hitOrb, H | exact H].
  - destruct (bool_decide _); [apply wf_areaKeydown, wf_hitOrb, H | exact H].
  - destruct (timeouts s) as [|r rest]; [exact H|].
    apply wf_respawn. eapply wf_same; [| | | exact H]; reflexivity.
  - destruct (raf s); [|exact H].
    apply wf_step. eapply wf_same; [| | | exact H]; reflexivity.
  - destruct (timerId s); [apply wf_tick, H | exact H].
  - apply wf_resize, H.
Qed.

(** ** Runs *)

Lemma run_invariant (P : game -> Prop) (ok : event -> Prop) :
  (forall s e, P s -> ok e -> P (dispatch s e)) ->
  forall es s, P s -> Forall ok es -> P (run s es).
Proof.
  intros Hstep es. induction es as [|e es IH]; intros s Hs Hok; simpl; [exact Hs|].
  apply Forall_cons in Hok as [He Hes]. apply IH; auto.
Qed.

Lemma run_invariant_all (P : game -> Prop) :
  (forall s e, P s -> P (dispatch s e)) ->
  forall es s, P s -> P (run s es).
Proof.
  intros Hstep es s Hs.
  apply (run_invariant P (fun _ => True)); auto.
  apply Forall_forall. auto.
Qed.

Lemma wf_run (s : game) (es : list event) : wf s -> wf (run s es).
Proof. apply run_invariant_all. intros s' e. apply wf_dispatch. Qed.

Lemma wf_reachable pr store b rc (es : list event) : wf (run (boot pr store b rc) es).
Proof. apply wf_run, wf_boot. Qed.

(** ** Scoring: what a live hit does *)

Lemma live_at_Some (r : ref) (s : game) :
  live_at r s = true -> exists o, heap s !! r = Some o /\ Orb.alive o = true.
Proof. unfold live_at. destruct (heap s !! r) as [o|]; [eauto | discriminate]. Qed.

Lemma hitOrb_live (r : ref) (t : Q) (s : game) (o : Orb.t) :
  heap s !! r = Some o -> running s = true -> Orb.alive o = true ->
  hitOrb r t s =
    with_timeouts (timeouts s ++ [r])
      (with_heap (<[r := Orb.set_alive o false]> (heap s))
        (with_score (score s + BASE_POINTS * (1 + Z.min (next_combo t s) 5))
          (with_lastHitTime t (with_combo (next_combo t s) s)))).
Proof.
  intros Hr Hrun Hal. unfold hitOrb, next_combo.
  rewrite Hr, Hrun, Hal. reflexivity.
Qed.

Lemma hitOrb_combo (r : ref) (t : Q) (s : game) (o : Orb.t) :
  heap s !! r = Some o -> running s = true -> Orb.alive o = true ->
  combo (hitOrb r t s) = next_combo t s.
Proof. intros Hr Hrun Hal. rewrite (hitOrb_live r t s o); auto. Qed.

Lemma hitOrb_score (r : ref) (t : Q) (s : game) (o : Orb.t) :
  heap s !! r = Some o -> running s = true -> Orb.alive o = true ->
  score (hitOrb r t s) = (score s + BASE_POINTS * (1 + Z.min (next_combo t s) 5))%Z.
Proof. intros Hr Hrun Hal. rewrite (hitOrb_live r t s o); auto. Qed.

Lemma hitOrb_running (r : ref) (t : Q) (s : game) : running (hitOrb r t s) = running s.
Proof.
  unfold hitOrb. destruct (heap s !! r) as [o|]; [|reflexivity].
  destruct (negb (running s) || negb (Orb.alive o)); reflexivity.
Qed.

Lemma hitOrb_heap_other (r r' : ref) (t : Q) (s : game) :
  r' <> r -> heap (hitOrb r t s) !! r' = heap s !! r'.
Proof.
  intros Hne. unfold hitOrb. destruct (heap s !! r) as [o|]; [|reflexivity].
  destruct (negb (running s) || negb (Orb.alive o)); [reflexivity|].
  cbn. apply list_lookup_insert_ne. congruence.
Qed.

Lemma hitOrb_live_other (r r' : ref) (t : Q) (s : game) :
  r' <> r -> live_at r' (hitOrb r t s) = live_at r' s.
Proof. intros Hne. unfold live_at. rewrite hitOrb_heap_other; auto. Qed.

Lemma hitOrb_lastHitTime (r : ref) (t : Q) (s : game) :
  running s = true -> live_at r s = true -> lastHitTime (hitOrb r t s) = t.
Proof.
  intros Hrun Hl. destruct (live_at_Some _ _ Hl) as (o & Ho & Ha).
  rewrite (hitOrb_live r t s o); auto.
Qed.

Lemma next_combo_late (t : Q) (s : game) :
  COMBO_WINDOW_MS < t - lastHitTime s -> next_combo t s = 0%Z.
Proof.
  intros H. unfold next_combo. apply Qle_bool_false in H. rewrite H. reflexivity.
Qed.

Lemma next_combo_chained (t : Q) (s : game) :
  t - lastHitTime s <= COMBO_WINDOW_MS -> next_combo t s = (combo s + 1)%Z.
Proof.
  intros H. unfold next_combo. apply Qle_bool_iff in H. rewrite H. reflexivity.
Qed.

Lemma hit_late (r : ref) (t : Q) (s : game) :
  running s = true -> live_at r s = true ->
  COMBO_WINDOW_MS < t - lastHitTime s ->
  combo (hitOrb r t s) = 0%Z /\ score (hitOrb r t s) = (score s + 10)%Z.
Proof.
  intros Hrun Hl Ht. destruct (live_at_Some _ _ Hl) as (o & Ho & Ha).
  rewrite (hitOrb_combo r t s o), (hitOrb_score r t s o) by auto.
  rewrite next_combo_late by auto. split; reflexivity.
Qed.

Lemma hit_chained (r : ref) (t : Q) (s : game) :
  running s = true -> live_at r s = true ->
  t - lastHitTime s <= COMBO_WINDOW_MS ->
  combo (hitOrb r t s) = (combo s + 1)%Z /\
  score (hitOrb r t s) = (score s + BASE_POINTS * (1 + Z.min (combo s + 1) 5))%Z.
Proof.
  intros Hrun Hl Ht. destruct (live_at_Some _ _ Hl) as (o & Ho & Ha).
  rewrite (hitOrb_combo r t s o), (hitOrb_score r t s o) by auto.
  rewrite next_combo_chained by auto. split; reflexivity.
Qed.

(** ** The four-hit scenario *)

(** C1, evaluated on the code.  With the clock reading 0 at the first hit
    and [lastHitTime] freshly reset to 0, the gap of the first hit is 0, so
    it already counts as chained: the combos are 1, 2, 3, 0, the points
    20, 30, 40, 10 and the score is 100, where the scenario expects
    0, 1, 2, 0, then 10, 20, 30, 10 and 70. *)
Theorem first_hit_at_clock_zero_is_chained :
  fst (play_hits (four_hits 0) fresh_round) = [(1, 20); (2, 30); (3, 40); (0, 10)]%Z
  /\ score (snd (play_hits (four_hits 0) fresh_round)) = 100%Z.
Proof. split; vm_compute; reflexivity. Qed.

(** The same four hits when the clock is past the combo window at the first
    hit give the scenario's figures, in any running round whose first four
    orbs are alive. *)
Lemma four_hits_from (base : Q) (s : game) :
  running s = true -> lastHitTime s = 0 ->
  live_at 0%nat s = true -> live_at 1%nat s = true ->
  live_at 2%nat s = true -> live_at 3%nat s = true ->
  COMBO_WINDOW_MS < base ->
  fst (play_hits (four_hits base) s) = [(0, 10); (1, 20); (2, 30); (0, 10)]%Z
  /\ score (snd (play_hits (four_hits base) s)) = (score s + 70)%Z.
Proof.
  intros Hrun Hlast L0 L1 L2 L3 Hb. unfold COMBO_WINDOW_MS in Hb.
  set (s1 := hitOrb 0%nat (base + 0) s).
  set (s2 := hitOrb 1%nat (base + 200) s1).
  set (s3 := hitOrb 2%nat (base + 500) s2).
  set (s4 := hitOrb 3%nat (base + 1700) s3).
  assert (R1 : running s1 = true) by (unfold s1; rewrite hitOrb_running; auto).
  assert (R2 : running s2 = true) by (unfold s2; rewrite hitOrb_running; auto).
  assert (R3 : running s3 = true) by (unfold s3; rewrite hitOrb_running; auto).
  assert (A1 : live_at 1%nat s1 = true) by (unfold s1; rewrite hitOrb_live_other; auto).
  assert (A2 : live_at 2%nat s2 = true)
    by (unfold s2, s1; rewrite !hitOrb_live_other; auto).
  assert (A3 : live_at 3%nat s3 = true)
    by (unfold s3, s2, s1; rewrite !hitOrb_live_other; auto).
  assert (T1 : lastHitTime s1 = base + 0) by (apply hitOrb_lastHitTime; auto).
  assert (T2 : lastHitTime s2 = base + 200) by (apply hitOrb_lastHitTime; auto).
  assert (T3 : lastHitTime s3 = base + 500) by (apply hitOrb_lastHitTime; auto).
  destruct (hit_late 0%nat (base + 0) s) as [C1 S1]; auto.
  { rewrite Hlast. unfold COMBO_WINDOW_MS. lra. }
  destruct (hit_chained 1%nat (base + 200) s1) as [C2 S2]; auto.
  { rewrite T1. unfold COMBO_WINDOW_MS. lra. }
  destruct (hit_chained 2%nat (base + 500) s2) as [C3 S3]; auto.
  { rewrite T2. unfold COMBO_WINDOW_MS. lra. }
  destruct (hit_late 3%nat (base + 1700) s3) as [C4 S4]; auto.
  { rewrite T3. unfold COMBO_WINDOW_MS. lra. }
  fold s1 in C1, S1. fold s2 in C2, S2. fold s3 in C3, S3. fold s4 in C4, S4.
  rewrite C1 in C2, S2. rewrite C2 in C3, S3.
  change (play_hits (four_hits base) s)
    with ([(combo s1, (score s1 - score s)%Z); (combo s2, (score s2 - score s1)%Z);
           (combo s3, (score s3 - score s2)%Z); (combo s4, (score s4 - score s3)%Z)], s4).
  cbn [fst snd]. rewrite C1, C2, C3, C4, S4, S3, S2, S1. unfold BASE_POINTS.
  split; [|lia].
  repeat f_equal; lia.
Qed.

Lemma four_hits_late_clock (base : Q) :
  COMBO_WINDOW_MS < base ->
  fst (play_hits (four_hits base) fresh_round) = [(0, 10); (1, 20); (2, 30); (0, 10)]%Z
  /\ score (snd (play_hits (four_hits base) fresh_round)) = 70%Z.
Proof.
  intros Hb. apply (four_hits_from base fresh_round); auto; vm_compute; reflexivity.
Qed.

(** ** Points and combo of a hit *)

(** C5.  A successful hit awards [BASE_POINTS * (1 + min(c, cap))] points,
    where [c] is the combo counter after the update made by that hit; the
    multiplier is at most [1 + cap], so a hit never awards more than
    [BASE_POINTS * (1 + cap)], however long the chain; and [c] is not
    negative when the counter was not. *)
Theorem awarded_points_formula (r : ref) (t : Q) (s : game) :
  running s = true -> live_at r s = true ->
  let c := combo (hitOrb r t s) in
  (score (hitOrb r t s) - score s = BASE_POINTS * (1 + Z.min c COMBO_CAP))%Z /\
  (1 + Z.min c COMBO_CAP <= 1 + COMBO_CAP)%Z /\
  (score (hitOrb r t s) - score s <= BASE_POINTS * (1 + COMBO_CAP))%Z /\
  (0 <= combo s -> 0 <= c)%Z.
Proof.
  intros Hrun Hl c. destruct (live_at_Some _ _ Hl) as (o & Ho & Ha).
  assert (Hc : c = next_combo t s) by (apply (hitOrb_combo r t s o); auto).
  rewrite (hitOrb_score r t s o) by auto. rewrite Hc.
  unfold BASE_POINTS, COMBO_CAP. repeat split; try lia.
  intros H0. unfold next_combo. destruct (Qle_bool _ _); lia.
Qed.

Lemma awarded_points_formula_witness :
  (score (hitOrb 0%nat 5000 fresh_round) - score fresh_round
   = BASE_POINTS * (1 + Z.min (combo (hitOrb 0%nat 5000 fresh_round)) COMBO_CAP))%Z.
Proof.
  apply (awarded_points_formula 0%nat 5000 fresh_round); vm_compute; reflexivity.
Defined.

(** C6.  On the activation of an alive orb in a running round at clock
    reading [t]: when [t - lastHitTime] exceeds the combo window the counter
    is 0 and the points are those of combo 0 ([BASE_POINTS]); when it is
    within the window the counter grows by exactly 1; in both cases [t]
    becomes the new reference. *)
Theorem combo_window_rule (r : ref) (t : Q) (s : game) :
  running s = true -> live_at r s = true ->
  (COMBO_WINDOW_MS < t - lastHitTime s ->
     combo (hitOrb r t s) = 0%Z /\
     score (hitOrb r t s) = (score s + BASE_POINTS)%Z) /\
  (t - lastHitTime s <= COMBO_WINDOW_MS ->
     combo (hitOrb r t s) = (combo s + 1)%Z) /\
  lastHitTime (hitOrb r t s) = t.
Proof.
  intros Hrun Hl. split; [|split].
  - intros Ht. apply hit_late; auto.
  - intros Ht. apply hit_chained; auto.
  - apply hitOrb_lastHitTime; auto.
Qed.

Lemma combo_window_rule_witness :
  combo (hitOrb 1%nat 5900 (hitOrb 0%nat 5000 fresh_round)) = 0%Z /\
  combo (hitOrb 1%nat 5800 (hitOrb 0%nat 5000 fresh_round))
    = (combo (hitOrb 0%nat 5000 fresh_round) + 1)%Z.
Proof.
  split.
  - apply (combo_window_rule 1%nat 5900 (hitOrb 0%nat 5000 fresh_round));
      vm_compute; reflexivity.
  - apply (combo_window_rule 1%nat 5800 (hitOrb 0%nat 5000 fresh_round));
      vm_compute; first [reflexivity | intros; discriminate].
Defined.

(** ** End of a round *)

Lemma endGame_running (s : game) : running (endGame s) = false.
Proof. unfold endGame. cbn. destruct (score s >? best s)%Z; reflexivity. Qed.

Lemma endGame_score (s : game) : score (endGame s) = score s.
Proof. unfold endGame. cbn. destruct (score s >? best s)%Z; reflexivity. Qed.

(** C7.  A round that ends with a score above the stored best stores exactly
    that score, in [best] and under the key of the local storage; a round
    that ends with a score at most the stored best leaves both as they
    were. *)
Theorem endGame_best (s : game) :
  ((best s < score s)%Z ->
     best (endGame s) = score s /\
     storage (endGame s) !! "jk_best_score" = Some (pretty (score s))) /\
  ((score s <= best s)%Z ->
     best (endGame s) = best s /\ storage (endGame s) = storage s).
Proof.
  unfold endGame. cbn. split; intros H.
  - replace (score s >? best s)%Z with true by (symmetry; apply Z.gtb_lt; lia).
    cbn. split; [reflexivity|]. apply lookup_insert_eq.
  - replace (score s >? best s)%Z with false.
    + split; reflexivity.
    + symmetry. rewrite Z.gtb_ltb. apply Z.ltb_ge. lia.
Qed.

Lemma endGame_best_witness :
  best (endGame (hitOrb 0%nat 5000 fresh_round)) = 10%Z /\
  best (endGame (with_best 50 (hitOrb 0%nat 5000 fresh_round))) = 50%Z.
Proof.
  split.
  - apply (proj1 (endGame_best (hitOrb 0%nat 5000 fresh_round))).
    vm_compute. reflexivity.
  - apply (proj2 (endGame_best (with_best 50 (hitOrb 0%nat 5000 fresh_round)))).
    vm_compute. intros; discriminate.
Defined.

(** The countdown ends the round at its last tick. *)
Lemma tick_ends_round (s : game) :
  (timeLeft s <= 1)%Z -> tick s = endGame (with_timeLeft (timeLeft s - 1) s).
Proof.
  intros H. unfold tick. cbn.
  replace (timeLeft s - 1 <=? 0)%Z with true; [reflexivity|].
  symmetry. apply Z.leb_le. lia.
Qed.

(** Twenty ticks after the start of a round the time left is 0 and the round
    has ended; after nineteen it still runs. *)
Example countdown_ends_round :
  timeLeft (run fresh_round (repeat Tick 20)) = 0%Z /\
  running (run fresh_round (repeat Tick 20)) = false /\
  orbs (run fresh_round (repeat Tick 20)) = [] /\
  running (run fresh_round (repeat Tick 19)) = true.
Proof. repeat split; vm_compute; reflexivity. Qed.

(** ** Guards *)

(** The guards, as the code has them.  Activating an orb while no round is
    running, activating an orb that is not alive, and running a respawn
    closure while no round is running return the state they were given:
    score, combo, last-hit reference, orb set and stored best included.  The
    embedded handlers are total, so no error is raised.  The guard of the
    closure tests the flag when the closure runs, whichever round set it. *)
Theorem guarded_calls_are_noops (r : ref) (t : Q) (d : draw) (s : game) :
  (running s = false -> hitOrb r t s = s) /\
  (live_at r s = false -> hitOrb r t s = s) /\
  (running s = false -> respawn r d s = s).
Proof.
  split; [|split].
  - intros H. unfold hitOrb. rewrite H. destruct (heap s !! r); reflexivity.
  - unfold live_at, hitOrb. destruct (heap s !! r) as [o|]; [|reflexivity].
    intros ->. rewrite orb_true_r. reflexivity.
  - intros H. unfold respawn. rewrite H. reflexivity.
Qed.

Lemma guarded_calls_are_noops_witness :
  hitOrb 0%nat 5000 (endGame fresh_round) = endGame fresh_round /\
  hitOrb 0%nat 5100 (hitOrb 0%nat 5000 fresh_round) = hitOrb 0%nat 5000 fresh_round /\
  respawn 0%nat centre_draw (endGame (hitOrb 0%nat 5000 fresh_round))
    = endGame (hitOrb 0%nat 5000 fresh_round).
Proof.
  split; [|split].
  - refine (proj1 (guarded_calls_are_noops 0%nat 5000 centre_draw
                     (endGame fresh_round)) _).
    vm_compute. reflexivity.
  - refine (proj1 (proj2 (guarded_calls_are_noops 0%nat 5100 centre_draw
                            (hitOrb 0%nat 5000 fresh_round))) _).
    vm_compute. reflexivity.
  - refine (proj2 (proj2 (guarded_calls_are_noops 0%nat 5000 centre_draw
                            (endGame (hitOrb 0%nat 5000 fresh_round)))) _).
    vm_compute. reflexivity.
Defined.


(** ** Objects created before a given moment *)

Lemma fresh_from_same (n : nat) (s s' : game) :
  orbs s' = orbs s -> length (heap s') = length (heap s) -> attached s' = attached s ->
  fresh_from n s -> fresh_from n s'.
Proof. unfold fresh_from. intros -> -> ->. auto. Qed.

Lemma fresh_from_pushOrb (n : nat) (d : draw) (s : game) :
  fresh_from n s -> fresh_from n (pushOrb d s).
Proof.
  intros (Ho & Ha & Hn). unfold fresh_from.
  rewrite pushOrb_orbs, pushOrb_heap, pushOrb_attached, length_app.
  split; [|split]; [| |lia]; intros r Hr; apply elem_of_app in Hr as [Hr|Hr]; auto;
    apply list_elem_of_singleton in Hr; lia.
Qed.

Lemma fresh_from_spawnOrbs (n k : nat) (rnd : nat -> draw) (s : game) :
  fresh_from n s -> fresh_from n (spawnOrbs k rnd s).
Proof.
  revert rnd s. induction k as [|k IH]; intros rnd s H; simpl; [exact H|].
  apply IH, fresh_from_pushOrb, H.
Qed.

Lemma fresh_from_clearGame (n : nat) (s : game) :
  fresh_from n s -> fresh_from n (clearGame s).
Proof.
  intros (Ho & Ha & Hn). split; [|split].
  - intros r Hr. inversion Hr.
  - intros r Hr. unfold clearGame in Hr. cbn in Hr.
    apply list_elem_of_filter in Hr. apply Ha, Hr.
  - exact Hn.
Qed.

Lemma fresh_from_startGame (n : nat) (rc : Bounds.t) (rnd : nat -> draw) (s : game) :
  fresh_from n s -> fresh_from n (startGame rc rnd s).
Proof.
  intros H. unfold startGame.
  assert (H0 : fresh_from n (measure rc s))
    by (revert H; apply fresh_from_same; reflexivity).
  apply fresh_from_clearGame in H0. revert H0.
  generalize (clearGame (measure rc s)). intros s1 H1. cbv zeta.
  assert (H2 : fresh_from n (with_playDisabled true (with_lastHitTime 0 (with_combo 0
                     (with_score 0 (with_running true s1))))))
    by (revert H1; apply fresh_from_same; reflexivity).
  revert H2. generalize (with_playDisabled true (with_lastHitTime 0 (with_combo 0
                     (with_score 0 (with_running true s1))))).
  intros s2 H2. apply (fresh_from_spawnOrbs n ORB_COUNT rnd) in H2.
  revert H2. generalize (spawnOrbs ORB_COUNT rnd s2). intros s3.
  apply fresh_from_same; reflexivity.
Qed.

Lemma fresh_from_endGame (n : nat) (s : game) :
  fresh_from n s -> fresh_from n (endGame s).
Proof.
  intros H. unfold endGame.
  assert (H0 : fresh_from n (with_running false s))
    by (revert H; apply fresh_from_same; reflexivity).
  apply fresh_from_clearGame in H0. revert H0.
  generalize (clearGame (with_running false s)). intros s1 H1. cbv zeta.
  assert (H2 : fresh_from n (with_playDisabled false s1))
    by (revert H1; apply fresh_from_same; reflexivity).
  revert H2. generalize (with_playDisabled false s1). intros s2 H2.
  destruct (_ >? _)%Z; [|exact H2]. revert H2. apply fresh_from_same; reflexivity.
Qed.

Lemma fresh_from_tick (n : nat) (s : game) :
  fresh_from n s -> fresh_from n (tick s).
Proof.
  intros H. unfold tick.
  assert (H0 : fresh_from n (with_timeLeft (timeLeft s - 1) s))
    by (revert H; apply fresh_from_same; reflexivity).
  revert H0. generalize (with_timeLeft (timeLeft s - 1) s). intros s1 H1.
  cbv zeta. destruct (_ <=? _)%Z; [apply fresh_from_endGame|]; exact H1.
Qed.

Lemma fresh_from_hitOrb (n : nat) (r : ref) (t : Q) (s : game) :
  fresh_from n s -> fresh_from n (hitOrb r t s).
Proof.
  apply fresh_from_same;
    [apply hitOrb_orbs | apply hitOrb_heap_length | apply hitOrb_attached].
Qed.

Lemma fresh_from_respawn (n : nat) (r : ref) (d : draw) (s : game) :
  fresh_from n s -> fresh_from n (respawn r d s).
Proof.
  intros H. unfold respawn. destruct (negb (running s)); [exact H|].
  apply fresh_from_pushOrb. destruct H as (Ho & Ha & Hn).
  unfold fresh_from. fields. split; [|split]; [| |exact Hn].
  - intros r' Hr'. apply spliceOrb_subseteq in Hr'. apply Ho, Hr'.
  - intros r' Hr'. apply list_elem_of_filter in Hr'. apply Ha, Hr'.
Qed.

Lemma fresh_from_step (n : nat) (ts : Q) (s : game) :
  fresh_from n s -> fresh_from n (step ts s).
Proof.
  apply fresh_from_same; [| apply step_heap_length |];
    unfold step; destruct (negb (running s)); reflexivity.
Qed.

Lemma fresh_from_resize (n : nat) (rc : Bounds.t) (s : game) :
  fresh_from n s -> fresh_from n (resize rc s).
Proof.
  apply fresh_from_same; [reflexivity | | reflexivity].
  unfold resize. fields. apply foldl_alter_length.
Qed.

Lemma fresh_from_areaKeydown (n : nat) (rc : Bounds.t) (rnd : nat -> draw) (s : game) :
  fresh_from n s -> fresh_from n (areaKeydown rc rnd s).
Proof.
  intros H. unfold areaKeydown. destruct (negb (running s)); [|exact H].
  apply fresh_from_startGame, H.
Qed.

Lemma fresh_from_dispatch (n : nat) (s : game) (e : event) :
  fresh_from n s -> fresh_from n (dispatch s e).
Proof.
  intros H. destruct e as [rc rnd|rc rnd|r t|r t rc rnd|d|ts| |rc]; simpl.
  - destruct (playDisabled s); [exact H | apply fresh_from_startGame, H].
  - apply fresh_from_areaKeydown, H.
  - destruct (bool_decide _); [apply fresh_from_hitOrb, H | exact H].
  - destruct (bool_decide _);
      [apply fresh_from_areaKeydown, fresh_from_hitOrb, H | exact H].
  - destruct (timeouts s) as [|r rest]; [exact H|].
    apply fresh_from_respawn. revert H. apply fresh_from_same; reflexivity.
  - destruct (raf s); [|exact H].
    apply fresh_from_step. revert H. apply fresh_from_same; reflexivity.
  - destruct (timerId s); [apply fresh_from_tick, H | exact H].
  - apply fresh_from_resize, H.
Qed.

Lemma fresh_from_run (n : nat) (s : game) (es : list event) :
  fresh_from n s -> fresh_from n (run s es).
Proof. apply run_invariant_all. intros s' e. apply fresh_from_dispatch. Qed.

(** ** What [startGame] leaves *)

Lemma startGame_round (rc : Bounds.t) (rnd : nat -> draw) (s : game) :
  score (startGame rc rnd s) = 0%Z /\
  combo (startGame rc rnd s) = 0%Z /\
  lastHitTime (startGame rc rnd s) = 0 /\
  running (startGame rc rnd s) = true /\
  timeLeft (startGame rc rnd s) = ROUND_SECONDS /\
  bounds (startGame rc rnd s) = rc /\
  prefersReduced (startGame rc rnd s) = prefersReduced s /\
  timeouts (startGame rc rnd s) = timeouts s.
Proof.
  unfold startGame. cbv zeta.
  pose proof (spawnOrbs_rest ORB_COUNT rnd
    (with_playDisabled true (with_lastHitTime 0 (with_combo 0
       (with_score 0 (with_running true (clearGame (measure rc s))))))))
    as (Hs & Hc & Hl & Hr & Hb & Hp & Ht & _).
  revert Hs Hc Hl Hr Hb Hp Ht.
  generalize (spawnOrbs ORB_COUNT rnd
    (with_playDisabled true (with_lastHitTime 0 (with_combo 0
       (with_score 0 (with_running true (clearGame (measure rc s)))))))).
  intros s3. fields. intros -> -> -> -> -> -> ->.
  repeat split.
Qed.

Lemma startGame_orbs (rc : Bounds.t) (rnd : nat -> draw) (s : game) :
  orbs (startGame rc rnd s) = seq (length (heap s)) ORB_COUNT.
Proof.
  unfold startGame. cbv zeta.
  pose proof (spawnOrbs_orbs ORB_COUNT rnd
    (with_playDisabled true (with_lastHitTime 0 (with_combo 0
       (with_score 0 (with_running true (clearGame (measure rc s))))))))
    as Ho.
  revert Ho.
  generalize (spawnOrbs ORB_COUNT rnd
    (with_playDisabled true (with_lastHitTime 0 (with_combo 0
       (with_score 0 (with_running true (clearGame (measure rc s)))))))).
  intros s3. fields. intros ->. reflexivity.
Qed.

Lemma startGame_heap (rc : Bounds.t) (rnd : nat -> draw) (s : game) :
  heap (startGame rc rnd s)
  = heap s ++ map (fun i => spawned (rnd i) (measure rc s)) (seq 0 ORB_COUNT).
Proof.
  unfold startGame. cbv zeta.
  pose proof (spawnOrbs_heap ORB_COUNT rnd
    (with_playDisabled true (with_lastHitTime 0 (with_combo 0
       (with_score 0 (with_running true (clearGame (measure rc s))))))))
    as Ho.
  revert Ho.
  generalize (spawnOrbs ORB_COUNT rnd
    (with_playDisabled true (with_lastHitTime 0 (with_combo 0
       (with_score 0 (with_running true (clearGame (measure rc s)))))))).
  intros s3. fields. intros ->. reflexivity.
Qed.

Lemma startGame_attached (rc : Bounds.t) (rnd : nat -> draw) (s : game) :
  attached s = orbs s ->
  attached (startGame rc rnd s) = seq (length (heap s)) ORB_COUNT.
Proof.
  intros Hat. unfold startGame. cbv zeta.
  pose proof (spawnOrbs_attached ORB_COUNT rnd
    (with_playDisabled true (with_lastHitTime 0 (with_combo 0
       (with_score 0 (with_running true (clearGame (measure rc s))))))))
    as Ho.
  revert Ho.
  generalize (spawnOrbs ORB_COUNT rnd
    (with_playDisabled true (with_lastHitTime 0 (with_combo 0
       (with_score 0 (with_running true (clearGame (measure rc s)))))))).
  intros s3. fields. intros ->.
  change (attached (clearGame (measure rc s)) ++ seq (length (heap s)) ORB_COUNT
          = seq (length (heap s)) ORB_COUNT).
  rewrite (clearGame_attached (measure rc s)) by exact Hat. reflexivity.
Qed.

Lemma startGame_live (rc : Bounds.t) (rnd : nat -> draw) (s : game) (r : ref) :
  r ∈ orbs (startGame rc rnd s) -> live_at r (startGame rc rnd s) = true.
Proof.
  rewrite startGame_orbs. intros Hr. apply elem_of_seq in Hr.
  unfold live_at. rewrite startGame_heap.
  rewrite lookup_app_r by lia.
  rewrite list_lookup_fmap.
  destruct (seq 0 ORB_COUNT !! (r - length (heap s))%nat) as [i|] eqn:E.
  - reflexivity.
  - apply lookup_ge_None in E. rewrite length_seq in E. lia.
Qed.

(** C9.  Whatever happened before (any run [history] from the loaded page),
    a call of [startGame] resets score, combo and last-hit reference, and
    leaves in the array and in the game area exactly the six orbs it has
    just created, all alive; the respawn closures scheduled earlier stay
    scheduled, and whatever happens next (any run [later], which may run
    them), no object created before the call is in the array or in the game
    area again. *)
Theorem startGame_reinitialises
    (pr : bool) (store : gmap string string) (b : Z) (rc0 : Bounds.t)
    (history : list event) (rc : Bounds.t) (rnd : nat -> draw)
    (later : list event) :
  let s := run (boot pr store b rc0) history in
  let s1 := startGame rc rnd s in
  score s1 = 0%Z /\ combo s1 = 0%Z /\ lastHitTime s1 = 0 /\ running s1 = true /\
  orbs s1 = seq (length (heap s)) ORB_COUNT /\
  attached s1 = orbs s1 /\
  (forall r, r ∈ orbs s1 -> live_at r s1 = true) /\
  timeouts s1 = timeouts s /\
  (forall r, r ∈ orbs (run s1 later) \/ r ∈ attached (run s1 later) ->
             (length (heap s) <= r)%nat).
Proof.
  intros s s1.
  destruct (startGame_round rc rnd s) as (Hs & Hc & Hl & Hr & _ & _ & _ & Ht).
  assert (Hwf : wf s) by apply wf_reachable.
  assert (Ho : orbs s1 = seq (length (heap s)) ORB_COUNT) by apply startGame_orbs.
  assert (Ha : attached s1 = seq (length (heap s)) ORB_COUNT)
    by (apply startGame_attached, Hwf).
  repeat split; auto.
  - congruence.
  - apply startGame_live.
  - assert (Hf : fresh_from (length (heap s)) (run s1 later)).
    { apply fresh_from_run. split; [|split].
      - rewrite Ho. intros r Hr'. apply elem_of_seq in Hr'. lia.
      - rewrite Ha. intros r Hr'. apply elem_of_seq in Hr'. lia.
      - unfold s1. rewrite startGame_heap, length_app. lia. }
    destruct Hf as (H1 & H2 & _). intros r [Hr'|Hr']; auto.
Qed.


(** ** One axis of the bounce *)

Lemma Qabs_Qabs (v : Q) : Qabs (Qabs v) = Qabs v.
Proof. destruct v as [n d]. simpl. rewrite Z.abs_idemp. reflexivity. Qed.

Lemma Qabs_Qopp' (v : Q) : Qabs (- v) = Qabs v.
Proof. destruct v as [n d]. unfold Qabs, Qopp. simpl. rewrite Z.abs_opp. reflexivity. Qed.

Lemma axis_low (lo hi p v : Q) :
  p < lo -> lo <= hi -> axis lo hi p v = (lo, Qabs v).
Proof.
  intros Hp Hlh. unfold axis.
  rewrite (proj2 (Qlt_bool_iff p lo) Hp).
  rewrite (proj2 (Qlt_bool_false hi lo) Hlh). reflexivity.
Qed.

Lemma axis_high (lo hi p v : Q) :
  hi < p -> axis lo hi p v = (hi, - Qabs v).
Proof.
  intros Hp. unfold axis. destruct (Qlt_bool p lo) eqn:E.
  - apply Qlt_bool_iff in E.
    assert (H : hi < lo) by lra.
    rewrite (proj2 (Qlt_bool_iff hi lo) H), Qabs_Qabs. reflexivity.
  - rewrite (proj2 (Qlt_bool_iff hi p) Hp). reflexivity.
Qed.

Lemma axis_inside (lo hi p v : Q) :
  lo <= p <= hi -> axis lo hi p v = (p, v).
Proof.
  intros [Hl Hh]. unfold axis.
  rewrite (proj2 (Qlt_bool_false p lo) Hl).
  rewrite (proj2 (Qlt_bool_false hi p) Hh). reflexivity.
Qed.

Lemma axis_speed (lo hi p v : Q) : Qabs (snd (axis lo hi p v)) = Qabs v.
Proof.
  unfold axis. destruct (Qlt_bool p lo); destruct (Qlt_bool hi _); cbn [snd];
    rewrite ?Qabs_Qopp', ?Qabs_Qabs; reflexivity.
Qed.

Lemma axis_range (lo hi p v : Q) :
  lo <= hi -> lo <= fst (axis lo hi p v) <= hi.
Proof.
  intros Hlh. unfold axis. destruct (Qlt_bool p lo) eqn:E1.
  - destruct (Qlt_bool hi lo) eqn:E2; cbn [fst].
    + apply Qlt_bool_iff in E2. lra.
    + lra.
  - apply Qlt_bool_false in E1. destruct (Qlt_bool hi p) eqn:E2; cbn [fst].
    + lra.
    + apply Qlt_bool_false in E2. lra.
Qed.

(** ** The frame update of one orb *)

Lemma moveOrb_dead (dt : Q) (b : Bounds.t) (o : Orb.t) :
  Orb.alive o = false -> moveOrb dt b o = o.
Proof. intros H. unfold moveOrb. rewrite H. reflexivity. Qed.

Lemma bounce_left_x (o : Orb.t) :
  Orb.x (bounce_left o) = if Qlt_bool (Orb.x o) 12 then 12 else Orb.x o.
Proof. unfold bounce_left. destruct (Qlt_bool _ _); reflexivity. Qed.

Lemma bounce_left_vx (o : Orb.t) :
  Orb.vx (bounce_left o) = if Qlt_bool (Orb.x o) 12 then Qabs (Orb.vx o) else Orb.vx o.
Proof. unfold bounce_left. destruct (Qlt_bool _ _); reflexivity. Qed.

Lemma bounce_left_y (o : Orb.t) : Orb.y (bounce_left o) = Orb.y o.
Proof. unfold bounce_left. destruct (Qlt_bool _ _); reflexivity. Qed.

Lemma bounce_left_vy (o : Orb.t) : Orb.vy (bounce_left o) = Orb.vy o.
Proof. unfold bounce_left. destruct (Qlt_bool _ _); reflexivity. Qed.

Lemma bounce_left_alive (o : Orb.t) : Orb.alive (bounce_left o) = Orb.alive o.
Proof. unfold bounce_left. destruct (Qlt_bool _ _); reflexivity. Qed.

Lemma bounce_top_y (o : Orb.t) :
  Orb.y (bounce_top o) = if Qlt_bool (Orb.y o) 12 then 12 else Orb.y o.
Proof. unfold bounce_top. destruct (Qlt_bool _ _); reflexivity. Qed.

Lemma bounce_top_vy (o : Orb.t) :
  Orb.vy (bounce_top o) = if Qlt_bool (Orb.y o) 12 then Qabs (Orb.vy o) else Orb.vy o.
Proof. unfold bounce_top. destruct (Qlt_bool _ _); reflexivity. Qed.

Lemma bounce_top_x (o : Orb.t) : Orb.x (bounce_top o) = Orb.x o.
Proof. unfold bounce_top. destruct (Qlt_bool _ _); reflexivity. Qed.

Lemma bounce_top_vx (o : Orb.t) : Orb.vx (bounce_top o) = Orb.vx o.
Proof. unfold bounce_top. destruct (Qlt_bool _ _); reflexivity. Qed.

Lemma bounce_top_alive (o : Orb.t) : Orb.alive (bounce_top o) = Orb.alive o.
Proof. unfold bounce_top. destruct (Qlt_bool _ _); reflexivity. Qed.

Lemma bounce_right_x (b : Bounds.t) (o : Orb.t) :
  Orb.x (bounce_right b o)
  = if Qlt_bool (Bounds.w b - 12) (Orb.x o) then Bounds.w b - 12 else Orb.x o.
Proof. unfold bounce_right. destruct (Qlt_bool _ _); reflexivity. Qed.

Lemma bounce_right_vx (b : Bounds.t) (o : Orb.t) :
  Orb.vx (bounce_right b o)
  = if Qlt_bool (Bounds.w b - 12) (Orb.x o) then - Qabs (Orb.vx o) else Orb.vx o.
Proof. unfold bounce_right. destruct (Qlt_bool _ _); reflexivity. Qed.

Lemma bounce_right_y (b : Bounds.t) (o : Orb.t) : Orb.y (bounce_right b o) = Orb.y o.
Proof. unfold bounce_right. destruct (Qlt_bool _ _); reflexivity. Qed.

Lemma bounce_right_vy (b : Bounds.t) (o : Orb.t) : Orb.vy (bounce_right b o) = Orb.vy o.
Proof. unfold bounce_right. destruct (Qlt_bool _ _); reflexivity. Qed.

Lemma bounce_right_alive (b : Bounds.t) (o : Orb.t) : Orb.alive (bounce_right b o) = Orb.alive o.
Proof. unfold bounce_right. destruct (Qlt_bool _ _); reflexivity. Qed.

Lemma bounce_bottom_y (b : Bounds.t) (o : Orb.t) :
  Orb.y (bounce_bottom b o)
  = if Qlt_bool (Bounds.h b - 12) (Orb.y o) then Bounds.h b - 12 else Orb.y o.
Proof. unfold bounce_bottom. destruct (Qlt_bool _ _); reflexivity. Qed.

Lemma bounce_bottom_vy (b : Bounds.t) (o : Orb.t) :
  Orb.vy (bounce_bottom b o)
  = if Qlt_bool (Bounds.h b - 12) (Orb.y o) then - Qabs (Orb.vy o) else Orb.vy o.
Proof. unfold bounce_bottom. destruct (Qlt_bool _ _); reflexivity. Qed.

Lemma bounce_bottom_x (b : Bounds.t) (o : Orb.t) : Orb.x (bounce_bottom b o) = Orb.x o.
Proof. unfold bounce_bottom. destruct (Qlt_bool _ _); reflexivity. Qed.

Lemma bounce_bottom_vx (b : Bounds.t) (o : Orb.t) : Orb.vx (bounce_bottom b o) = Orb.vx o.
Proof. unfold bounce_bottom. destruct (Qlt_bool _ _); reflexivity. Qed.

Lemma bounce_bottom_alive (b : Bounds.t) (o : Orb.t) : Orb.alive (bounce_bottom b o) = Orb.alive o.
Proof. unfold bounce_bottom. destruct (Qlt_bool _ _); reflexivity. Qed.

Lemma moveOrb_alive (dt : Q) (b : Bounds.t) (o : Orb.t) :
  Orb.alive (moveOrb dt b o) = Orb.alive o.
Proof.
  unfold moveOrb. destruct (Orb.alive o) eqn:E; cbn [negb]; [|exact E].
  rewrite bounce_bottom_alive, bounce_right_alive, bounce_top_alive, bounce_left_alive.
  exact E.
Qed.

Lemma moveOrb_x (dt : Q) (b : Bounds.t) (o : Orb.t) :
  Orb.alive o = true ->
  (Orb.x (moveOrb dt b o), Orb.vx (moveOrb dt b o))
  = axis 12 (Bounds.w b - 12) (Orb.x o + Orb.vx o * dt) (Orb.vx o).
Proof.
  intros Ha. unfold moveOrb. rewrite Ha. cbn [negb].
  generalize (eq_refl (Orb.x (Orb.set_pos o (Orb.x o + Orb.vx o * dt)
                                           (Orb.y o + Orb.vy o * dt)))).
  generalize (eq_refl (Orb.vx (Orb.set_pos o (Orb.x o + Orb.vx o * dt)
                                            (Orb.y o + Orb.vy o * dt)))).
  generalize (Orb.set_pos o (Orb.x o + Orb.vx o * dt) (Orb.y o + Orb.vy o * dt)) at 1 3 5 6.
  intros o1 Hv Hx. cbn [Orb.set_pos Orb.x Orb.vx] in Hv, Hx.
  rewrite bounce_bottom_x, bounce_bottom_vx, bounce_right_x, bounce_right_vx.
  rewrite bounce_top_x, bounce_top_vx, bounce_left_x, bounce_left_vx, Hx, Hv.
  unfold axis. destruct (Qlt_bool _ 12); destruct (Qlt_bool (Bounds.w b - 12) _);
    reflexivity.
Qed.

Lemma moveOrb_y (dt : Q) (b : Bounds.t) (o : Orb.t) :
  Orb.alive o = true ->
  (Orb.y (moveOrb dt b o), Orb.vy (moveOrb dt b o))
  = axis 12 (Bounds.h b - 12) (Orb.y o + Orb.vy o * dt) (Orb.vy o).
Proof.
  intros Ha. unfold moveOrb. rewrite Ha. cbn [negb].
  generalize (eq_refl (Orb.y (Orb.set_pos o (Orb.x o + Orb.vx o * dt)
                                           (Orb.y o + Orb.vy o * dt)))).
  generalize (eq_refl (Orb.vy (Orb.set_pos o (Orb.x o + Orb.vx o * dt)
                                            (Orb.y o + Orb.vy o * dt)))).
  generalize (Orb.set_pos o (Orb.x o + Orb.vx o * dt) (Orb.y o + Orb.vy o * dt)) at 1 3 5 6.
  intros o1 Hv Hy. cbn [Orb.set_pos Orb.y Orb.vy] in Hv, Hy.
  rewrite bounce_bottom_y, bounce_bottom_vy, bounce_right_y, bounce_right_vy.
  rewrite bounce_top_y, bounce_top_vy, bounce_left_y, bounce_left_vy, Hy, Hv.
  unfold axis. destruct (Qlt_bool _ 12); destruct (Qlt_bool (Bounds.h b - 12) _);
    reflexivity.
Qed.







(** ** Orbs inside the padded bounds *)

Lemma clamp_range (v lo hi : Q) : lo <= hi -> lo <= clamp v lo hi <= hi.
Proof.
  intros H. unfold clamp.
  destruct (Q.min_spec hi v) as [[H1 E1]|[H1 E1]];
    destruct (Q.max_spec lo (Qmin hi v)) as [[H2 E2]|[H2 E2]]; lra.
Qed.

Lemma clampOrb_within (b : Bounds.t) (o : Orb.t) :
  MARGIN <= Bounds.w b - MARGIN -> MARGIN <= Bounds.h b - MARGIN ->
  within b (clampOrb b o).
Proof.
  unfold within, MARGIN, clampOrb. cbn [Orb.set_pos Orb.x Orb.y].
  intros Hw Hh. split; apply clamp_range; assumption.
Qed.

Lemma moveOrb_within (dt : Q) (b : Bounds.t) (o : Orb.t) :
  MARGIN <= Bounds.w b - MARGIN -> MARGIN <= Bounds.h b - MARGIN ->
  Orb.alive o = true -> within b (moveOrb dt b o).
Proof.
  unfold within, MARGIN. intros Hw Hh Ha.
  pose proof (f_equal fst (moveOrb_x dt b o Ha)) as Hx.
  pose proof (f_equal fst (moveOrb_y dt b o Ha)) as Hy.
  cbn [fst] in Hx, Hy. rewrite Hx, Hy.
  split; apply axis_range; assumption.
Qed.

Lemma moveOrb_keeps_within (dt : Q) (b : Bounds.t) (o : Orb.t) :
  MARGIN <= Bounds.w b - MARGIN -> MARGIN <= Bounds.h b - MARGIN ->
  within b o -> within b (moveOrb dt b o).
Proof.
  intros Hw Hh Ho. destruct (Orb.alive o) eqn:Ha.
  - apply moveOrb_within; assumption.
  - rewrite moveOrb_dead; assumption.
Qed.

Lemma roomy_margins (rc : Bounds.t) :
  roomy rc -> MARGIN <= Bounds.w rc - MARGIN /\ MARGIN <= Bounds.h rc - MARGIN.
Proof. unfold roomy, MARGIN. intros [H1 H2]. split; lra. Qed.

Lemma rand_range (u size : Q) :
  0 <= u < 1 -> 32 <= size ->
  MARGIN <= rand u 20 (size - 20) <= size - MARGIN.
Proof.
  unfold rand, MARGIN. intros [H0 H1] Hs.
  assert (E : u * (size - 20 - 20) + 20 == u * (size - 40) + 20) by ring.
  rewrite E. clear E.
  destruct (Qlt_le_dec size 40) as [Hlt|Hge].
  - assert (Ha : 0 <= u * (40 - size)) by (apply Qmult_le_0_compat; lra).
    assert (Hb : 0 <= (1 - u) * (40 - size)) by (apply Qmult_le_0_compat; lra).
    assert (E1 : u * (40 - size) == - (u * (size - 40))) by ring.
    assert (E2 : (1 - u) * (40 - size) == (40 - size) + u * (size - 40)) by ring.
    lra.
  - assert (Ha : 0 <= u * (size - 40)) by (apply Qmult_le_0_compat; lra).
    assert (Hb : 0 <= (1 - u) * (size - 40)) by (apply Qmult_le_0_compat; lra).
    assert (E2 : (1 - u) * (size - 40) == (size - 40) - u * (size - 40)) by ring.
    lra.
Qed.

Lemma spawned_within (d : draw) (s : game) :
  roomy (bounds s) -> unit_draw d -> within (bounds s) (spawned d s).
Proof.
  intros [Hw Hh] (Hl & Ht & _). unfold within, spawned. cbn [Orb.x Orb.y].
  split; apply rand_range; assumption.
Qed.


Lemma orbs_within_same (s s' : game) :
  orbs s' = orbs s -> heap s' = heap s -> bounds s' = bounds s ->
  orbs_within s -> orbs_within s'.
Proof. unfold orbs_within. intros -> -> ->. auto. Qed.

Lemma orbs_within_empty (s : game) :
  orbs s = [] -> roomy (bounds s) -> orbs_within s.
Proof.
  intros Ho Hb. split; [exact Hb|]. rewrite Ho. intros r o Hr. inversion Hr.
Qed.

Lemma orbs_within_pushOrb (d : draw) (s : game) :
  unit_draw d -> orbs_within s -> orbs_within (pushOrb d s).
Proof.
  intros Hd [Hb Hin]. split; [exact Hb|].
  change (bounds (pushOrb d s)) with (bounds s).
  rewrite pushOrb_orbs, pushOrb_heap. intros r o Hr Ho.
  destruct (decide (r < length (heap s))%nat) as [Hlt|Hge].
  - rewrite lookup_app_l in Ho by exact Hlt.
    apply elem_of_app in Hr as [Hr|Hr]; [eauto|].
    apply list_elem_of_singleton in Hr. lia.
  - rewrite lookup_app_r in Ho by lia.
    destruct (r - length (heap s))%nat as [|k]; [|destruct k; discriminate].
    injection Ho as <-. apply spawned_within; assumption.
Qed.

Lemma orbs_within_spawnOrbs (n : nat) (rnd : nat -> draw) (s : game) :
  (forall i, unit_draw (rnd i)) -> orbs_within s -> orbs_within (spawnOrbs n rnd s).
Proof.
  revert rnd s. induction n as [|n IH]; intros rnd s Hd H; simpl; [exact H|].
  apply IH; [intros i; apply Hd|]. apply orbs_within_pushOrb; [apply Hd | exact H].
Qed.

Lemma orbs_within_startGame (rc : Bounds.t) (rnd : nat -> draw) (s : game) :
  roomy rc -> (forall i, unit_draw (rnd i)) -> orbs_within (startGame rc rnd s).
Proof.
  intros Hrc Hd. unfold startGame. cbv zeta.
  assert (H2 : orbs_within (with_playDisabled true (with_lastHitTime 0 (with_combo 0
                 (with_score 0 (with_running true (clearGame (measure rc s))))))))
    by (apply orbs_within_empty; [reflexivity | exact Hrc]).
  apply (orbs_within_spawnOrbs ORB_COUNT rnd _ Hd) in H2. revert H2.
  generalize (spawnOrbs ORB_COUNT rnd (with_playDisabled true (with_lastHitTime 0
                (with_combo 0 (with_score 0 (with_running true
                   (clearGame (measure rc s)))))))).
  intros s3. apply orbs_within_same; reflexivity.
Qed.

Lemma orbs_within_endGame (s : game) : orbs_within s -> orbs_within (endGame s).
Proof.
  intros [Hb _]. unfold endGame. cbv zeta.
  assert (H2 : orbs_within (with_playDisabled false (clearGame (with_running false s))))
    by (apply orbs_within_empty; [reflexivity | exact Hb]).
  revert H2. generalize (with_playDisabled false (clearGame (with_running false s))).
  intros s2 H2. destruct (_ >? _)%Z; [|exact H2].
  revert H2. apply orbs_within_same; reflexivity.
Qed.

Lemma orbs_within_tick (s : game) : orbs_within s -> orbs_within (tick s).
Proof.
  intros H. unfold tick.
  assert (H0 : orbs_within (with_timeLeft (timeLeft s - 1) s))
    by (revert H; apply orbs_within_same; reflexivity).
  revert H0. generalize (with_timeLeft (timeLeft s - 1) s). intros s1 H1.
  cbv zeta. destruct (_ <=? _)%Z; [apply orbs_within_endGame|]; exact H1.
Qed.

Lemma hitOrb_bounds (r : ref) (t : Q) (s : game) : bounds (hitOrb r t s) = bounds s.
Proof.
  unfold hitOrb. destruct (heap s !! r) as [o|]; [|reflexivity].
  destruct (negb (running s) || negb (Orb.alive o)); reflexivity.
Qed.

(** A hit changes nothing of an object but the [alive] flag of its orb. *)
Lemma hitOrb_heap_lookup (r r' : ref) (t : Q) (s : game) (o' : Orb.t) :
  heap (hitOrb r t s) !! r' = Some o' ->
  exists o, heap s !! r' = Some o /\ (o' = o \/ o' = Orb.set_alive o false).
Proof.
  unfold hitOrb. destruct (heap s !! r) as [o|] eqn:E; [|eauto].
  destruct (negb (running s) || negb (Orb.alive o)); [eauto|].
  fields. destruct (decide (r = r')) as [->|Hne].
  - rewrite list_lookup_insert_eq by (apply lookup_lt_Some in E; exact E).
    intros [= <-]. eauto.
  - rewrite list_lookup_insert_ne by exact Hne. eauto.
Qed.

Lemma orbs_within_hitOrb (r : ref) (t : Q) (s : game) :
  orbs_within s -> orbs_within (hitOrb r t s).
Proof.
  intros [Hb Hin]. unfold orbs_within.
  rewrite hitOrb_bounds, hitOrb_orbs. split; [exact Hb|].
  intros r' o' Hr' Ho'. apply hitOrb_heap_lookup in Ho' as (o & Ho & [->| ->]).
  - eauto.
  - apply (Hin r' o Hr' Ho).
Qed.

Lemma orbs_within_respawn (r : ref) (d : draw) (s : game) :
  unit_draw d -> orbs_within s -> orbs_within (respawn r d s).
Proof.
  intros Hd H. unfold respawn. destruct (negb (running s)); [exact H|].
  apply orbs_within_pushOrb; [exact Hd|]. destruct H as [Hb Hin].
  split; [exact Hb|]. fields. intros r' o Hr' Ho.
  apply spliceOrb_subseteq in Hr'. eauto.
Qed.

Lemma orbs_within_step (ts : Q) (s : game) :
  orbs_within s -> orbs_within (step ts s).
Proof.
  intros H. unfold step. destruct (negb (running s)); [exact H|].
  destruct H as [Hb Hin]. split; [exact Hb|]. fields.
  intros r o' Hr Ho'.
  destruct (roomy_margins _ Hb) as [Hw Hh].
  apply (foldl_alter_keeps _ (within (bounds s))) in Ho' as (o & Ho & Hk).
  - apply Hk. eauto.
  - intros o1. apply moveOrb_keeps_within; assumption.
Qed.

Lemma orbs_within_resize (rc : Bounds.t) (s : game) :
  roomy rc -> orbs_within (resize rc s).
Proof.
  intros Hrc. split; [exact Hrc|]. unfold resize. fields.
  intros r o' Hr Ho'.
  destruct (roomy_margins _ Hrc) as [Hw Hh].
  apply (foldl_alter_makes _ (within rc)) in Ho'; [exact Ho' | | exact Hr].
  intros o1. apply clampOrb_within; assumption.
Qed.

Lemma orbs_within_areaKeydown (rc : Bounds.t) (rnd : nat -> draw) (s : game) :
  roomy rc -> (forall i, unit_draw (rnd i)) ->
  orbs_within s -> orbs_within (areaKeydown rc rnd s).
Proof.
  intros Hrc Hd H. unfold areaKeydown. destruct (negb (running s)); [|exact H].
  apply orbs_within_startGame; assumption.
Qed.

Lemma orbs_within_dispatch (s : game) (e : event) :
  orbs_within s -> fair e -> orbs_within (dispatch s e).
Proof.
  intros H He. destruct e as [rc rnd|rc rnd|r t|r t rc rnd|d|ts| |rc]; simpl in *.
  - destruct (playDisabled s); [exact H|]. apply orbs_within_startGame; apply He.
  - apply orbs_within_areaKeydown; [apply He | apply He | exact H].
  - destruct (bool_decide _); [apply orbs_within_hitOrb, H | exact H].
  - destruct (bool_decide _); [|exact H].
    apply orbs_within_areaKeydown; [apply He | apply He |].
    apply orbs_within_hitOrb, H.
  - destruct (timeouts s) as [|r rest]; [exact H|].
    apply orbs_within_respawn; [exact He|].
    revert H. apply orbs_within_same; reflexivity.
  - destruct (raf s); [|exact H].
    apply orbs_within_step. revert H. apply orbs_within_same; reflexivity.
  - destruct (timerId s); [apply orbs_within_tick, H | exact H].
  - apply orbs_within_resize, He.
Qed.

(** C4, as the code has it.  On a surface that measures at least 32 px on
    each axis whenever it is measured, with draws that are outcomes of
    [Math.random()], every orb of the array, alive or not, has both
    coordinates within [[MARGIN, size - MARGIN]] after every event: after
    each frame, each spawn (round start or respawn) and each resize. *)
Theorem orbs_stay_within
    (pr : bool) (store : gmap string string) (b : Z) (rc0 : Bounds.t)
    (es : list event) :
  roomy rc0 -> Forall fair es ->
  let s := run (boot pr store b rc0) es in
  forall r o, r ∈ orbs s -> heap s !! r = Some o ->
    (MARGIN <= Orb.x o <= Bounds.w (bounds s) - MARGIN) /\
    (MARGIN <= Orb.y o <= Bounds.h (bounds s) - MARGIN).
Proof.
  intros Hrc Hes s.
  assert (H : orbs_within s).
  { apply (run_invariant orbs_within fair); [apply orbs_within_dispatch | | exact Hes].
    apply orbs_within_empty; [reflexivity | exact Hrc]. }
  intros r o Hr Ho. apply (proj2 H r o Hr Ho).
Qed.


(** ** Speed *)

Lemma same_speed_refl (o : Orb.t) : same_speed o o.
Proof. split; reflexivity. Qed.

Lemma same_speed_trans (o1 o2 o3 : Orb.t) :
  same_speed o1 o2 -> same_speed o2 o3 -> same_speed o1 o3.
Proof. unfold same_speed. intros [H1 H2] [H3 H4]. split; congruence. Qed.

Lemma same_speed_moveOrb (dt : Q) (b : Bounds.t) (o : Orb.t) :
  same_speed o (moveOrb dt b o).
Proof.
  destruct (Orb.alive o) eqn:Ha.
  - pose proof (f_equal snd (moveOrb_x dt b o Ha)) as Hx.
    pose proof (f_equal snd (moveOrb_y dt b o Ha)) as Hy.
    cbn [snd] in Hx, Hy. unfold same_speed. rewrite Hx, Hy.
    split; apply axis_speed.
  - rewrite moveOrb_dead by exact Ha. apply same_speed_refl.
Qed.

Lemma same_speed_clampOrb (b : Bounds.t) (o : Orb.t) : same_speed o (clampOrb b o).
Proof. split; reflexivity. Qed.

Lemma same_speed_iter (f : Orb.t -> Orb.t) (n : nat) (o : Orb.t) :
  (forall o1, same_speed o1 (f o1)) -> same_speed o (Nat.iter n f o).
Proof.
  intros Hf. induction n as [|n IH]; simpl.
  - apply same_speed_refl.
  - eapply same_speed_trans; [exact IH | apply Hf].
Qed.

Lemma keeps_speed_refl (s : game) : keeps_speed s s.
Proof. intros r o Ho. exists o. split; [exact Ho | apply same_speed_refl]. Qed.

Lemma keeps_speed_trans (s1 s2 s3 : game) :
  keeps_speed s1 s2 -> keeps_speed s2 s3 -> keeps_speed s1 s3.
Proof.
  intros H12 H23 r o Ho. destruct (H12 r o Ho) as (o2 & Ho2 & S2).
  destruct (H23 r o2 Ho2) as (o3 & Ho3 & S3).
  exists o3. split; [exact Ho3 | eapply same_speed_trans; eassumption].
Qed.

Lemma keeps_speed_same (s s' : game) : heap s' = heap s -> keeps_speed s s'.
Proof.
  intros E r o Ho. exists o. rewrite E. split; [exact Ho | apply same_speed_refl].
Qed.

Lemma keeps_speed_grow (s s' : game) (l : list Orb.t) :
  heap s' = heap s ++ l -> keeps_speed s s'.
Proof.
  intros E r o Ho. exists o. rewrite E.
  split; [apply lookup_app_l_Some, Ho | apply same_speed_refl].
Qed.

Lemma keeps_speed_loop (f : Orb.t -> Orb.t) (s s' : game) (l : list ref) :
  (forall o1, same_speed o1 (f o1)) ->
  heap s' = foldl (fun hp r => alter f r hp) (heap s) l ->
  keeps_speed s s'.
Proof.
  intros Hf E r o Ho. rewrite E, foldl_alter_lookup, Ho. simpl.
  eexists. split; [reflexivity|]. apply same_speed_iter, Hf.
Qed.

Lemma keeps_speed_startGame (rc : Bounds.t) (rnd : nat -> draw) (s : game) :
  keeps_speed s (startGame rc rnd s).
Proof. eapply keeps_speed_grow. apply startGame_heap. Qed.

Lemma endGame_heap (s : game) : heap (endGame s) = heap s.
Proof. unfold endGame. cbv zeta. destruct (_ >? _)%Z; reflexivity. Qed.

Lemma tick_heap (s : game) : heap (tick s) = heap s.
Proof.
  unfold tick. cbv zeta. destruct (_ <=? _)%Z; [|reflexivity].
  rewrite endGame_heap. reflexivity.
Qed.

Lemma keeps_speed_hitOrb (r : ref) (t : Q) (s : game) : keeps_speed s (hitOrb r t s).
Proof.
  intros r' o' Ho'. unfold hitOrb. destruct (heap s !! r) as [o|] eqn:E.
  2:{ exists o'. split; [exact Ho' | apply same_speed_refl]. }
  destruct (negb (running s) || negb (Orb.alive o)).
  { exists o'. split; [exact Ho' | apply same_speed_refl]. }
  fields. destruct (decide (r = r')) as [->|Hne].
  - rewrite list_lookup_insert_eq by (apply lookup_lt_Some in E; exact E).
    eexists. split; [reflexivity|]. rewrite E in Ho'. injection Ho' as ->.
    split; reflexivity.
  - rewrite list_lookup_insert_ne by exact Hne.
    exists o'. split; [exact Ho' | apply same_speed_refl].
Qed.

Lemma respawn_heap (r : ref) (d : draw) (s : game) :
  running s = true -> heap (respawn r d s) = heap s ++ [spawned d s].
Proof. intros H. unfold respawn. rewrite H. reflexivity. Qed.

Lemma keeps_speed_respawn (r : ref) (d : draw) (s : game) :
  keeps_speed s (respawn r d s).
Proof.
  destruct (running s) eqn:E.
  - eapply keeps_speed_grow. apply respawn_heap, E.
  - unfold respawn. rewrite E. apply keeps_speed_refl.
Qed.

Lemma keeps_speed_step (ts : Q) (s : game) : keeps_speed s (step ts s).
Proof.
  unfold step. destruct (negb (running s)); [apply keeps_speed_refl|].
  eapply keeps_speed_loop; [|reflexivity]. apply same_speed_moveOrb.
Qed.

Lemma keeps_speed_resize (rc : Bounds.t) (s : game) : keeps_speed s (resize rc s).
Proof.
  unfold resize. eapply keeps_speed_loop; [|reflexivity]. apply same_speed_clampOrb.
Qed.

Lemma keeps_speed_areaKeydown (rc : Bounds.t) (rnd : nat -> draw) (s : game) :
  keeps_speed s (areaKeydown rc rnd s).
Proof.
  unfold areaKeydown. destruct (negb (running s));
    [apply keeps_speed_startGame | apply keeps_speed_refl].
Qed.

Lemma keeps_speed_dispatch (s : game) (e : event) : keeps_speed s (dispatch s e).
Proof.
  destruct e as [rc rnd|rc rnd|r t|r t rc rnd|d|ts| |rc]; simpl.
  - destruct (playDisabled s); [apply keeps_speed_refl | apply keeps_speed_startGame].
  - apply keeps_speed_areaKeydown.
  - destruct (bool_decide _); [apply keeps_speed_hitOrb | apply keeps_speed_refl].
  - destruct (bool_decide _); [|apply keeps_speed_refl].
    eapply keeps_speed_trans; [apply keeps_speed_hitOrb | apply keeps_speed_areaKeydown].
  - destruct (timeouts s) as [|r rest]; [apply keeps_speed_refl|].
    eapply keeps_speed_trans; [|apply keeps_speed_respawn].
    apply keeps_speed_same. reflexivity.
  - destruct (raf s); [|apply keeps_speed_refl].
    eapply keeps_speed_trans; [|apply keeps_speed_step].
    apply keeps_speed_same. reflexivity.
  - destruct (timerId s); [|apply keeps_speed_refl].
    apply keeps_speed_same, tick_heap.
  - apply keeps_speed_resize.
Qed.

Lemma keeps_speed_run (s : game) (es : list event) : keeps_speed s (run s es).
Proof.
  revert s. induction es as [|e es IH]; intros s; simpl.
  - apply keeps_speed_refl.
  - eapply keeps_speed_trans; [apply keeps_speed_dispatch | apply IH].
Qed.

Lemma Qabs_eq_square (a c : Q) : Qabs a = Qabs c -> a * a == c * c.
Proof.
  intros H.
  assert (Ha : a * a == Qabs a * Qabs a).
  { apply (Qabs_case a (fun z => a * a == z * z)); intros _; ring. }
  assert (Hc : c * c == Qabs c * Qabs c).
  { apply (Qabs_case c (fun z => c * c == z * z)); intros _; ring. }
  rewrite Ha, Hc, H. reflexivity.
Qed.

Lemma Qabs_zero (a : Q) : Qabs a == 0 -> a == 0.
Proof.
  apply (Qabs_case a (fun z => z == 0 -> a == 0)); intros _ H; lra.
Qed.

Lemma spawned_has_spawn_speed (d : draw) (s : game) (o : Orb.t) :
  same_speed (spawned d s) o -> has_spawn_speed d s o.
Proof.
  unfold same_speed, spawned. cbn [Orb.vx Orb.vy]. intros [Hx Hy].
  split; [exact Hx|]. split; [exact Hy|]. split.
  - intros Hu. rewrite (Qabs_eq_square _ _ Hx), (Qabs_eq_square _ _ Hy).
    set (v := spawn_speed d s).
    assert (E : dir_cos d * v * (dir_cos d * v) + dir_sin d * v * (dir_sin d * v)
                == (dir_cos d * dir_cos d + dir_sin d * dir_sin d) * (v * v)) by ring.
    rewrite E, Hu. ring.
  - intros Hp. unfold spawn_speed in Hx, Hy. rewrite Hp in Hx, Hy.
    split; apply Qabs_zero.
    + rewrite Hx. assert (E : dir_cos d * 0 == 0) by ring. rewrite E. reflexivity.
    + rewrite Hy. assert (E : dir_sin d * 0 == 0) by ring. rewrite E. reflexivity.
Qed.

(** An orb with no velocity, inside the bounds, is left where it is by the
    frame update. *)
Lemma still_orb_stays (dt : Q) (b : Bounds.t) (o : Orb.t) :
  Orb.vx o == 0 -> Orb.vy o == 0 -> within b o ->
  Orb.x (moveOrb dt b o) == Orb.x o /\ Orb.y (moveOrb dt b o) == Orb.y o.
Proof.
  intros Hvx Hvy [Hx Hy]. unfold MARGIN in Hx, Hy.
  destruct (Orb.alive o) eqn:Ha.
  2:{ rewrite moveOrb_dead by exact Ha. split; reflexivity. }
  assert (Ex : Orb.x o + Orb.vx o * dt == Orb.x o) by (rewrite Hvx; ring).
  assert (Ey : Orb.y o + Orb.vy o * dt == Orb.y o) by (rewrite Hvy; ring).
  pose proof (f_equal fst (moveOrb_x dt b o Ha)) as Mx.
  pose proof (f_equal fst (moveOrb_y dt b o Ha)) as My.
  cbn [fst] in Mx, My.
  rewrite axis_inside in Mx by (rewrite Ex; exact Hx).
  rewrite axis_inside in My by (rewrite Ey; exact Hy).
  cbn [fst] in Mx, My. rewrite Mx, My. split; assumption.
Qed.

(** C10, as the code has it.  No handler changes the absolute value of a
    velocity component of any orb object: the bounce replaces a component by
    plus or minus its absolute value and nothing else writes a velocity.
    Hence an orb created by [startGame] or by a respawn keeps, whatever
    happens later, the absolute components it was given, so its speed is the
    speed drawn at spawn when the drawn direction is a unit vector; under
    reduced motion both components are and stay zero, and the frame update
    leaves an orb with no velocity where it is as long as it lies within the
    padded bounds. *)
Theorem speed_is_kept (s : game) (es : list event) :
  (forall r o, heap s !! r = Some o ->
     exists o', heap (run s es) !! r = Some o' /\
       Qabs (Orb.vx o') = Qabs (Orb.vx o) /\ Qabs (Orb.vy o') = Qabs (Orb.vy o)) /\
  (forall rc rnd i, (i < ORB_COUNT)%nat ->
     exists o', heap (run (startGame rc rnd s) es) !! (length (heap s) + i)%nat = Some o' /\
       has_spawn_speed (rnd i) s o') /\
  (forall r d, running s = true ->
     exists o', heap (run (respawn r d s) es) !! length (heap s) = Some o' /\
       has_spawn_speed d s o') /\
  (forall dt b o, Orb.vx o == 0 -> Orb.vy o == 0 -> within b o ->
     Orb.x (moveOrb dt b o) == Orb.x o /\ Orb.y (moveOrb dt b o) == Orb.y o).
Proof.
  split; [|split; [|split]].
  - intros r o Ho. destruct (keeps_speed_run s es r o Ho) as (o' & Ho' & S1 & S2).
    eauto.
  - intros rc rnd i Hi.
    assert (H0 : heap (startGame rc rnd s) !! (length (heap s) + i)%nat
                 = Some (spawned (rnd i) (measure rc s))).
    { rewrite startGame_heap, lookup_app_r by lia.
      replace (length (heap s) + i - length (heap s))%nat with i by lia.
      rewrite list_lookup_fmap, lookup_seq_lt by exact Hi. reflexivity. }
    destruct (keeps_speed_run _ es _ _ H0) as (o' & Ho' & S).
    exists o'. split; [exact Ho'|].
    apply (spawned_has_spawn_speed (rnd i) (measure rc s) o' S).
  - intros r d Hrun.
    assert (H0 : heap (respawn r d s) !! length (heap s) = Some (spawned d s)).
    { rewrite respawn_heap by exact Hrun. apply list_lookup_middle. reflexivity. }
    destruct (keeps_speed_run _ es _ _ H0) as (o' & Ho' & S).
    exists o'. split; [exact Ho'|]. apply spawned_has_spawn_speed, S.
  - apply still_orb_stays.
Qed.


(** ** Frames and the array *)

(** In a state the script reaches, a frame moves every orb of the array
    exactly once. *)
Lemma step_moves_each_orb_once (ts : Q) (s : game) (r : ref) (o : Orb.t) :
  wf s -> running s = true -> r ∈ orbs s -> heap s !! r = Some o ->
  heap (step ts s) !! r = Some (moveOrb (frame_dt ts (lastTs s)) (bounds s) o).
Proof.
  intros (Hnd & _ & _) Hrun Hr Ho. unfold step. rewrite Hrun. cbn [negb]. fields.
  rewrite foldl_alter_lookup_once by assumption. rewrite Ho. reflexivity.
Qed.

(** ** The orb count of a round *)

Lemma live_at_loop (f : Orb.t -> Orb.t) (l : list ref) (r : ref) (s s' : game) :
  (forall o, Orb.alive (f o) = Orb.alive o) ->
  heap s' = foldl (fun hp r => alter f r hp) (heap s) l ->
  live_at r s' = live_at r s.
Proof.
  intros Hf E. unfold live_at. rewrite E, foldl_alter_lookup.
  destruct (heap s !! r) as [o|]; simpl; [|reflexivity].
  generalize (count_occ Nat.eq_dec l r). intros n.
  induction n as [|n IH]; simpl; [reflexivity|]. rewrite Hf. exact IH.
Qed.

Lemma round_ok_same (s s' : game) :
  orbs s' = orbs s -> heap s' = heap s -> attached s' = attached s ->
  timeouts s' = timeouts s -> running s' = running s ->
  playDisabled s' = playDisabled s ->
  round_ok s -> round_ok s'.
Proof.
  unfold round_ok, wf, live_at. intros -> -> -> -> -> ->. auto.
Qed.

Lemma round_ok_idle (s : game) :
  wf s -> NoDup (timeouts s) -> running s = false -> round_ok s.
Proof.
  intros Hwf Hnd Hrun. split; [exact Hwf|]. split; [exact Hnd|].
  rewrite Hrun. discriminate.
Qed.

Lemma round_ok_boot pr store b rc : round_ok (boot pr store b rc).
Proof. apply round_ok_idle; [apply wf_boot | constructor | reflexivity]. Qed.

Lemma startGame_playDisabled (rc : Bounds.t) (rnd : nat -> draw) (s : game) :
  playDisabled (startGame rc rnd s) = true.
Proof.
  unfold startGame. cbv zeta.
  assert (H : forall n rnd' s', playDisabled (spawnOrbs n rnd' s') = playDisabled s').
  { intros n. induction n as [|n IH]; intros rnd' s'; simpl; [reflexivity|].
    rewrite IH. reflexivity. }
  pose proof (H ORB_COUNT rnd
    (with_playDisabled true (with_lastHitTime 0 (with_combo 0
       (with_score 0 (with_running true (clearGame (measure rc s)))))))) as Hp.
  revert Hp.
  generalize (spawnOrbs ORB_COUNT rnd
    (with_playDisabled true (with_lastHitTime 0 (with_combo 0
       (with_score 0 (with_running true (clearGame (measure rc s)))))))).
  intros s3. fields. intros ->. reflexivity.
Qed.

Lemma round_ok_startGame (rc : Bounds.t) (rnd : nat -> draw) (s : game) :
  wf s -> timeouts s = [] -> round_ok (startGame rc rnd s).
Proof.
  intros Hwf Ht.
  destruct (startGame_round rc rnd s) as (_ & _ & _ & _ & _ & _ & _ & Ht').
  rewrite Ht in Ht'. split; [apply wf_startGame, Hwf|]. rewrite Ht'.
  split; [constructor|]. intros _.
  split; [rewrite startGame_orbs; apply length_seq|].
  split; [apply startGame_playDisabled|].
  intros r Hr. inversion Hr.
Qed.

Lemma endGame_running_orbs (s : game) :
  running (endGame s) = false /\ timeouts (endGame s) = timeouts s.
Proof. unfold endGame. cbv zeta. destruct (_ >? _)%Z; split; reflexivity. Qed.

Lemma round_ok_endGame (s : game) : round_ok s -> round_ok (endGame s).
Proof.
  intros (Hwf & Hnd & _). destruct (endGame_running_orbs s) as [Hr Ht].
  apply round_ok_idle; [apply wf_endGame, Hwf | rewrite Ht; exact Hnd | exact Hr].
Qed.

Lemma round_ok_tick (s : game) : round_ok s -> round_ok (tick s).
Proof.
  intros H. unfold tick.
  assert (H0 : round_ok (with_timeLeft (timeLeft s - 1) s))
    by (revert H; apply round_ok_same; reflexivity).
  revert H0. generalize (with_timeLeft (timeLeft s - 1) s). intros s1 H1.
  cbv zeta. destruct (_ <=? _)%Z; [apply round_ok_endGame|]; exact H1.
Qed.

Lemma hitOrb_noop_or_live (r : ref) (t : Q) (s : game) :
  hitOrb r t s = s \/
  (running s = true /\ live_at r s = true /\
   timeouts (hitOrb r t s) = timeouts s ++ [r] /\
   playDisabled (hitOrb r t s) = playDisabled s /\
   live_at r (hitOrb r t s) = false).
Proof.
  unfold hitOrb, live_at. destruct (heap s !! r) as [o|] eqn:E; [|left; reflexivity].
  destruct (running s); [|left; reflexivity].
  destruct (Orb.alive o) eqn:Ha; [|left; reflexivity].
  right. cbn [negb orb]. fields.
  rewrite list_lookup_insert_eq by (apply lookup_lt_Some in E; exact E).
  repeat split.
Qed.

Lemma round_ok_hitOrb (r : ref) (t : Q) (s : game) :
  r ∈ attached s -> round_ok s -> round_ok (hitOrb r t s).
Proof.
  intros Hr H. destruct (hitOrb_noop_or_live r t s) as [->|(Hrun & Hl & Ht & Hp & Hd)];
    [exact H|].
  destruct H as (Hwf & Hnd & Hok). destruct (Hok Hrun) as (Hlen & Hdis & Hpend).
  assert (Hro : r ∈ orbs s) by (destruct Hwf as (_ & _ & <-); exact Hr).
  split; [apply wf_hitOrb, Hwf|]. rewrite Ht, hitOrb_running, hitOrb_orbs, Hp.
  split.
  - apply NoDup_app. split; [exact Hnd|]. split; [|apply NoDup_singleton].
    intros r' Hr' Hr''. apply list_elem_of_singleton in Hr''. subst r'.
    destruct (Hpend r Hr') as [_ Hdead]. congruence.
  - intros _. split; [exact Hlen|]. split; [exact Hdis|].
    intros r' Hr'. apply elem_of_app in Hr' as [Hr'|Hr'].
    + destruct (Hpend r' Hr') as [Hin Hdead]. split; [exact Hin|].
      destruct (decide (r' = r)) as [->|Hne]; [exact Hd|].
      rewrite hitOrb_live_other by exact Hne. exact Hdead.
    + apply list_elem_of_singleton in Hr'. subst r'. split; [exact Hro | exact Hd].
Qed.

Lemma round_ok_respawn (r : ref) (rest : list ref) (d : draw) (s : game) :
  timeouts s = r :: rest -> round_ok s ->
  round_ok (respawn r d (with_timeouts rest s)).
Proof.
  intros Ht (Hwf & Hnd & Hok). rewrite Ht in Hnd.
  apply NoDup_cons in Hnd as [Hr Hnd].
  assert (Hwf0 : wf (with_timeouts rest s)) by (revert Hwf; apply wf_same; reflexivity).
  split; [apply wf_respawn, Hwf0|].
  unfold respawn. change (running (with_timeouts rest s)) with (running s).
  destruct (running s) eqn:Hrun; cbn [negb].
  2:{ split; [exact Hnd|]. fields. rewrite Hrun. discriminate. }
  destruct (Hok eq_refl) as (Hlen & Hdis & Hpend).
  destruct Hwf as (Hndo & Hlt & Hat).
  assert (Hro : r ∈ orbs s) by (apply Hpend; rewrite Ht; left).
  split; [exact Hnd|]. intros _.
  rewrite pushOrb_orbs. fields.
  split; [|split; [exact Hdis|]].
  - rewrite length_app. simpl. pose proof (spliceOrb_length r (orbs s) Hro). lia.
  - intros r' Hr'.
    destruct (Hpend r') as [Hin Hdead]; [rewrite Ht; right; exact Hr'|].
    assert (Hne : r' <> r) by (intros ->; contradiction).
    split.
    + apply elem_of_app. left. rewrite (spliceOrb_filter r (orbs s) Hndo).
      apply list_elem_of_filter. split; assumption.
    + unfold live_at in *. rewrite pushOrb_heap. fields.
      rewrite lookup_app_l by (apply Hlt, Hin). exact Hdead.
Qed.

Lemma round_ok_step (ts : Q) (s : game) : round_ok s -> round_ok (step ts s).
Proof.
  intros (Hwf & Hnd & Hok). split; [apply wf_step, Hwf|].
  unfold step. destruct (running s) eqn:Hrun; cbn [negb].
  2:{ split; [exact Hnd|]. rewrite Hrun. discriminate. }
  fields. split; [exact Hnd|]. intros _.
  destruct (Hok eq_refl) as (Hlen & Hdis & Hpend).
  split; [exact Hlen|]. split; [exact Hdis|]. intros r Hr.
  destruct (Hpend r Hr) as [Hin Hdead]. split; [exact Hin|].
  rewrite <- Hdead. eapply live_at_loop; [|reflexivity].
  intros o. apply moveOrb_alive.
Qed.

Lemma round_ok_resize (rc : Bounds.t) (s : game) : round_ok s -> round_ok (resize rc s).
Proof.
  intros (Hwf & Hnd & Hok). split; [apply wf_resize, Hwf|].
  unfold resize. fields. split; [exact Hnd|]. intros Hrun.
  destruct (Hok Hrun) as (Hlen & Hdis & Hpend).
  split; [exact Hlen|]. split; [exact Hdis|]. intros r Hr.
  destruct (Hpend r Hr) as [Hin Hdead]. split; [exact Hin|].
  rewrite <- Hdead. eapply live_at_loop; [|reflexivity].
  intros o. reflexivity.
Qed.

Lemma round_ok_areaKeydown (rc : Bounds.t) (rnd : nat -> draw) (s : game) :
  (running s = false -> timeouts s = []) ->
  round_ok s -> round_ok (areaKeydown rc rnd s).
Proof.
  intros Hp H. unfold areaKeydown. destruct (running s) eqn:Hrun; cbn [negb];
    [exact H|].
  apply round_ok_startGame; [apply H | apply Hp; reflexivity].
Qed.

Lemma round_ok_dispatch (s : game) (e : event) :
  (running s = false -> can_start e = true -> timeouts s = []) ->
  round_ok s -> round_ok (dispatch s e).
Proof.
  intros Hp H. destruct e as [rc rnd|rc rnd|r t|r t rc rnd|d|ts| |rc]; simpl in *.
  - destruct (playDisabled s) eqn:Hdis; [exact H|].
    apply round_ok_startGame; [apply H|]. apply Hp; [|reflexivity].
    destruct (running s) eqn:Hrun; [|reflexivity].
    destruct H as (_ & _ & Hok). destruct (Hok Hrun) as (_ & Hd & _). congruence.
  - apply round_ok_areaKeydown; [|exact H]. intros Hrun. apply Hp; auto.
  - destruct (bool_decide (r ∈ attached s)) eqn:Hr; [|exact H].
    apply bool_decide_eq_true in Hr. apply round_ok_hitOrb; assumption.
  - destruct (bool_decide (r ∈ attached s)) eqn:Hr; [|exact H].
    apply bool_decide_eq_true in Hr. apply round_ok_areaKeydown.
    + rewrite hitOrb_running. intros Hrun.
      destruct (hitOrb_noop_or_live r t s) as [->|(Hrun' & _)]; [|congruence].
      apply Hp; auto.
    + apply round_ok_hitOrb; assumption.
  - destruct (timeouts s) as [|r rest] eqn:Ht; [exact H|].
    apply round_ok_respawn; assumption.
  - destruct (raf s); [|exact H].
    apply round_ok_step. revert H. apply round_ok_same; reflexivity.
  - destruct (timerId s); [apply round_ok_tick, H | exact H].
  - apply round_ok_resize, H.
Qed.

Lemma round_ok_run (es : list event) (s : game) :
  patient s es -> round_ok s -> round_ok (run s es).
Proof.
  revert s. induction es as [|e es IH]; intros s Hp Hs; [exact Hs|].
  destruct Hp as [Hp1 Hp2]. simpl. apply IH; [exact Hp2|].
  apply round_ok_dispatch; assumption.
Qed.

(** X20.  Where the code does keep the orb count: as long as no round is started
    while a respawn closure of an earlier round is still scheduled, a running
    round has exactly [ORB_COUNT] orbs in the array after every event. *)
Lemma orb_count_without_stale_respawn
    (pr : bool) (store : gmap string string) (b : Z) (rc0 : Bounds.t)
    (es : list event) :
  patient (boot pr store b rc0) es ->
  running (run (boot pr store b rc0) es) = true ->
  length (orbs (run (boot pr store b rc0) es)) = ORB_COUNT.
Proof.
  intros Hp Hrun.
  destruct (round_ok_run es _ Hp (round_ok_boot pr store b rc0)) as (_ & _ & Hok).
  apply (Hok Hrun).
Qed.

(** ** The last-hit reference *)

Lemma endGame_lastHitTime (s : game) : lastHitTime (endGame s) = lastHitTime s.
Proof. unfold endGame. cbv zeta. destruct (_ >? _)%Z; reflexivity. Qed.

Lemma tick_lastHitTime (s : game) : lastHitTime (tick s) = lastHitTime s.
Proof.
  unfold tick. cbv zeta. destruct (_ <=? _)%Z; [|reflexivity].
  rewrite endGame_lastHitTime. reflexivity.
Qed.

Lemma respawn_lastHitTime (r : ref) (d : draw) (s : game) :
  lastHitTime (respawn r d s) = lastHitTime s.
Proof. unfold respawn. destruct (negb (running s)); reflexivity. Qed.

Lemma step_lastHitTime (ts : Q) (s : game) : lastHitTime (step ts s) = lastHitTime s.
Proof. unfold step. destruct (negb (running s)); reflexivity. Qed.

Lemma hitOrb_lastHitTime_cases (r : ref) (t : Q) (s : game) :
  hitOrb r t s = s \/
  (running s = true /\ live_at r s = true /\ lastHitTime (hitOrb r t s) = t).
Proof.
  destruct (hitOrb_noop_or_live r t s) as [H|(Hrun & Hl & _)]; [left; exact H|].
  right. split; [exact Hrun|]. split; [exact Hl|].
  apply hitOrb_lastHitTime; assumption.
Qed.

(** X21.  [lastHitTime] is the clock reading of the last successful hit of
    the round, or 0 when the round has none: an event leaves it as it is, or
    starts a round and resets it together with the combo, or is a successful
    hit and stores its clock reading. *)
Lemma lastHitTime_dispatch (s : game) (e : event) :
  lastHitTime (dispatch s e) = lastHitTime s \/
  (running (dispatch s e) = true /\ lastHitTime (dispatch s e) = 0 /\
   combo (dispatch s e) = 0%Z) \/
  (exists r t, hit_of e = Some (r, t) /\ running s = true /\ live_at r s = true /\
               lastHitTime (dispatch s e) = t).
Proof.
  assert (Hstart : forall rc rnd s0,
            running (startGame rc rnd s0) = true /\
            lastHitTime (startGame rc rnd s0) = 0 /\
            combo (startGame rc rnd s0) = 0%Z).
  { intros rc rnd s0.
    destruct (startGame_round rc rnd s0) as (_ & Hc & Hl & Hr & _). auto. }
  destruct e as [rc rnd|rc rnd|r t|r t rc rnd|d|ts| |rc]; simpl.
  - destruct (playDisabled s); [left; reflexivity | right; left; apply Hstart].
  - unfold areaKeydown. destruct (negb (running s));
      [right; left; apply Hstart | left; reflexivity].
  - destruct (bool_decide _); [|left; reflexivity].
    destruct (hitOrb_lastHitTime_cases r t s) as [->|(Hrun & Hl & Ht)];
      [left; reflexivity|]. right; right. exists r, t. auto.
  - destruct (bool_decide _); [|left; reflexivity].
    unfold areaKeydown. rewrite hitOrb_running.
    destruct (running s) eqn:Hrun; cbn [negb]; [|right; left; apply Hstart].
    destruct (hitOrb_lastHitTime_cases r t s) as [->|(_ & Hl & Ht)];
      [left; reflexivity|]. right; right. exists r, t. auto.
  - destruct (timeouts s) as [|r rest]; [left; reflexivity|].
    left. rewrite respawn_lastHitTime. reflexivity.
  - destruct (raf s); [|left; reflexivity].
    left. rewrite step_lastHitTime. reflexivity.
  - destruct (timerId s); [|left; reflexivity]. left. apply tick_lastHitTime.
  - left. reflexivity.
Qed.

(** ** The scenarios, evaluated *)

(** Closes a closed comparison, equation or membership by evaluation. *)
Ltac evaluate :=
  first [ apply (bool_decide_unpack _); vm_compute; exact I
        | vm_compute; first [reflexivity | discriminate | intros; discriminate] ].


(** Where the rule does not apply.  On the 30 px wide surface the
    replacement orb is spawned at x = 10.625, outside the padded bounds, and
    moves right at 52.5 px/s: it crosses no edge.  In the next frame (16 ms)
    it reaches 11.465, the low-edge line of [step] still sets x to the
    margin, and the velocity component, which points away from the edge
    already, keeps its sign. *)
Lemma inward_move_outside_margin_keeps_sign :
  exists o o',
    running narrow_round = true /\
    orbs narrow_round = [1; 2; 3; 4; 5; 6]%nat /\
    heap narrow_round !! 6%nat = Some o /\ Orb.alive o = true /\
    Orb.x o == 85 # 8 /\ Orb.vx o == 105 # 2 /\
    Orb.x o + Orb.vx o * frame_dt 1016 (lastTs narrow_round) < MARGIN /\
    heap (dispatch narrow_round (Frame 1016)) !! 6%nat = Some o' /\
    Orb.x o' = MARGIN /\ Orb.vx o' == 105 # 2 /\ ~ Orb.vx o' == - Orb.vx o.
Proof.
  eexists. eexists.
  split; [evaluate|]. split; [evaluate|]. split; [evaluate|].
  split; [evaluate|]. split; [evaluate|]. split; [evaluate|].
  split; [evaluate|]. split; [evaluate|]. split; [evaluate|].
  split; evaluate.
Qed.

Lemma orbs_stay_within_witness :
  (MARGIN <= Orb.x (spawned centre_draw fresh_round)
          <= Bounds.w (bounds (run (boot false ∅ 0 arena)
                                   [PlayClick arena (fun _ => centre_draw)])) - MARGIN) /\
  (MARGIN <= Orb.y (spawned centre_draw fresh_round)
          <= Bounds.h (bounds (run (boot false ∅ 0 arena)
                                   [PlayClick arena (fun _ => centre_draw)])) - MARGIN).
Proof.
  apply (orbs_stay_within false ∅ 0 arena [PlayClick arena (fun _ => centre_draw)])
    with (r := 0%nat).
  - split; evaluate.
  - repeat constructor; evaluate.
  - evaluate.
  - evaluate.
Defined.

(** C4 fails as stated.  On the 30 px wide surface a round starts with an
    alive orb at x = 10.625, below the margin 12: the spawn range
    [rand(20, 30 - 20)] is not inside the padded bounds [[12, 18]]. *)
Lemma spawn_outside_padded_bounds :
  exists o,
    unit_draw edge_draw /\
    running (run (boot false ∅ 0 narrow) [PlayClick narrow (fun _ => edge_draw)]) = true /\
    orbs (run (boot false ∅ 0 narrow) [PlayClick narrow (fun _ => edge_draw)])
      = [0; 1; 2; 3; 4; 5]%nat /\
    heap (run (boot false ∅ 0 narrow) [PlayClick narrow (fun _ => edge_draw)]) !! 0%nat
      = Some o /\
    Orb.alive o = true /\ Orb.x o == 85 # 8 /\ Orb.x o < MARGIN.
Proof.
  eexists.
  split; [repeat split; evaluate|]. split; [evaluate|]. split; [evaluate|].
  split; [evaluate|]. split; [evaluate|]. split; evaluate.
Qed.

Lemma startGame_reinitialises_witness :
  (length (heap (run (boot false ∅ 0 arena)
                     [PlayClick arena (fun _ => centre_draw); OrbClick 0%nat 5000]))
   <= 12)%nat.
Proof.
  refine (proj2 (proj2 (proj2 (proj2 (proj2 (proj2 (proj2 (proj2
    (startGame_reinitialises false ∅ 0 arena
       [PlayClick arena (fun _ => centre_draw); OrbClick 0%nat 5000]
       arena (fun _ => centre_draw) [Timeout centre_draw])))))))) 12%nat _).
  left. evaluate.
Defined.

Lemma speed_is_kept_witness :
  exists o',
    heap (run fresh_round [Frame 1000; Frame 1016]) !! 0%nat = Some o' /\
    Qabs (Orb.vx o') = Qabs (Orb.vx (spawned centre_draw fresh_round)) /\
    Qabs (Orb.vy o') = Qabs (Orb.vy (spawned centre_draw fresh_round)).
Proof.
  apply (proj1 (speed_is_kept fresh_round [Frame 1000; Frame 1016])).
  evaluate.
Defined.

(** C10 fails as stated in its last clause.  In a reduced-motion round on
    the 400 x 300 surface an orb is spawned at x = 335 with no velocity;
    the surface shrinks to 200 x 300, and the resize listener moves the orb
    to x = 188, where the next frame finds it. *)
Lemma resize_moves_still_orb :
  exists o o',
    prefersReduced calm_round = true /\ running calm_round = true /\
    orbs calm_round = [0; 1; 2; 3; 4; 5]%nat /\
    heap calm_round !! 0%nat = Some o /\ Orb.alive o = true /\
    Orb.vx o == 0 /\ Orb.vy o == 0 /\ Orb.x o == 335 /\
    heap (run calm_round [Resize (Bounds.mk 200 300); Frame 1000]) !! 0%nat = Some o' /\
    Orb.alive o' = true /\ Orb.x o' == 188 /\ ~ Orb.x o' == Orb.x o.
Proof.
  eexists. eexists.
  split; [evaluate|]. split; [evaluate|]. split; [evaluate|].
  split; [evaluate|]. split; [evaluate|]. split; [evaluate|].
  split; [evaluate|]. split; [evaluate|]. split; [evaluate|].
  split; [evaluate|]. split; evaluate.
Qed.

(** C2, evaluated on the code.  An orb is hit in the last second of a
    round, the countdown ends the round, and the next round is started
    before the respawn time-out of that hit runs.  The closure finds
    [running] true again, does not find its orb in the new array and still
    pushes a replacement: the running round has seven orbs in the array and
    in the game area, all alive. *)
Theorem quick_restart_leaves_seven_orbs :
  running (run (boot false ∅ 0 arena) quick_restart) = true /\
  orbs (run (boot false ∅ 0 arena) quick_restart) = [6; 7; 8; 9; 10; 11; 12]%nat /\
  attached (run (boot false ∅ 0 arena) quick_restart) = [6; 7; 8; 9; 10; 11; 12]%nat /\
  forallb (fun r => live_at r (run (boot false ∅ 0 arena) quick_restart))
          (orbs (run (boot false ∅ 0 arena) quick_restart)) = true /\
  length (orbs (run (boot false ∅ 0 arena) quick_restart)) <> ORB_COUNT.
Proof. repeat split; evaluate. Qed.

(** C8, evaluated on the code.  The round of [quick_restart] has ended with
    the respawn time-out of its last hit still to run: while no round runs
    the closure is a no-op.  Once the next round has been started the same
    closure, whose round has ended and whose orb is not in the array, finds
    [running] true and pushes an orb: it leaves score, combo, last-hit
    reference and best score as they are and changes the orb set, from six
    orbs to seven. *)
Theorem respawn_after_restart_is_no_noop :
  running ended_round = false /\ timeouts ended_round = [0%nat] /\
  respawn 0%nat centre_draw ended_round = ended_round /\
  running restarted_round = true /\ timeouts restarted_round = [0%nat] /\
  orbs restarted_round = [6; 7; 8; 9; 10; 11]%nat /\
  dispatch restarted_round (Timeout centre_draw)
  = respawn 0%nat centre_draw (with_timeouts [] restarted_round) /\
  orbs (dispatch restarted_round (Timeout centre_draw))
  = [6; 7; 8; 9; 10; 11; 12]%nat /\
  attached (dispatch restarted_round (Timeout centre_draw))
  = [6; 7; 8; 9; 10; 11; 12]%nat /\
  orbs (dispatch restarted_round (Timeout centre_draw)) <> orbs restarted_round /\
  sheet (dispatch restarted_round (Timeout centre_draw)) = sheet restarted_round /\
  vault (dispatch restarted_round (Timeout centre_draw)) = vault restarted_round.
Proof.
  split; [evaluate|]. split; [evaluate|]. split; [evaluate|].
  split; [evaluate|]. split; [evaluate|]. split; [evaluate|].
  split; [reflexivity|]. split; [evaluate|]. split; [evaluate|].
  split; [evaluate|]. split; evaluate.
Qed.

(** * Further properties *)

(** ** What each handler leaves alone *)

Lemma pushOrb_views (d : draw) (s : game) :
  status (pushOrb d s) = status s /\ sheet (pushOrb d s) = sheet s /\
  vault (pushOrb d s) = vault s /\ raf (pushOrb d s) = raf s /\
  timeouts (pushOrb d s) = timeouts s /\ lastTs (pushOrb d s) = lastTs s.
Proof. repeat split. Qed.

Lemma spawnOrbs_views (n : nat) (rnd : nat -> draw) (s : game) :
  status (spawnOrbs n rnd s) = status s /\ sheet (spawnOrbs n rnd s) = sheet s /\
  vault (spawnOrbs n rnd s) = vault s /\ raf (spawnOrbs n rnd s) = raf s /\
  timeouts (spawnOrbs n rnd s) = timeouts s /\ lastTs (spawnOrbs n rnd s) = lastTs s.
Proof.
  revert rnd s. induction n as [|n IH]; intros rnd s; simpl; [repeat split|].
  exact (IH (fun i => rnd (S i)) (pushOrb (rnd O) s)).
Qed.

Lemma hitOrb_views (r : ref) (t : Q) (s : game) :
  status (hitOrb r t s) = status s /\ vault (hitOrb r t s) = vault s /\
  raf (hitOrb r t s) = raf s /\ lastTs (hitOrb r t s) = lastTs s.
Proof.
  unfold hitOrb. destruct (heap s !! r) as [o|]; [|repeat split].
  destruct (negb (running s) || negb (Orb.alive o)); repeat split.
Qed.

Lemma respawn_views (r : ref) (d : draw) (s : game) :
  status (respawn r d s) = status s /\ sheet (respawn r d s) = sheet s /\
  vault (respawn r d s) = vault s /\ raf (respawn r d s) = raf s /\
  timeouts (respawn r d s) = timeouts s /\ lastTs (respawn r d s) = lastTs s.
Proof. unfold respawn. destruct (negb (running s)); repeat split. Qed.

Lemma step_views (ts : Q) (s : game) :
  status (step ts s) = status s /\ sheet (step ts s) = sheet s /\
  vault (step ts s) = vault s /\ timeouts (step ts s) = timeouts s /\
  orbs (step ts s) = orbs s /\ attached (step ts s) = attached s /\
  raf (step ts s) = (running s || raf s)%bool.
Proof.
  unfold step. destruct (running s); cbn [negb orb]; repeat split.
Qed.

Lemma resize_views (rc : Bounds.t) (s : game) :
  status (resize rc s) = status s /\ sheet (resize rc s) = sheet s /\
  vault (resize rc s) = vault s /\ raf (resize rc s) = raf s /\
  timeouts (resize rc s) = timeouts s /\ lastTs (resize rc s) = lastTs s /\
  orbs (resize rc s) = orbs s /\ attached (resize rc s) = attached s /\
  bounds (resize rc s) = rc.
Proof. repeat split. Qed.

Lemma endGame_views (s : game) :
  status (endGame s) = (false, false, false, timeLeft s) /\
  sheet (endGame s) = sheet s /\ raf (endGame s) = false /\
  timeouts (endGame s) = timeouts s /\ lastTs (endGame s) = None /\
  orbs (endGame s) = [] /\ heap (endGame s) = heap s /\ bounds (endGame s) = bounds s.
Proof. unfold endGame. cbv zeta. destruct (_ >? _)%Z; repeat split. Qed.

Lemma startGame_views (rc : Bounds.t) (rnd : nat -> draw) (s : game) :
  status (startGame rc rnd s) = (true, true, true, ROUND_SECONDS) /\
  sheet (startGame rc rnd s) = (0%Z, 0%Z, 0) /\
  vault (startGame rc rnd s) = vault s /\ raf (startGame rc rnd s) = true /\
  timeouts (startGame rc rnd s) = timeouts s /\ lastTs (startGame rc rnd s) = None.
Proof.
  unfold startGame. cbv zeta.
  pose proof (spawnOrbs_views ORB_COUNT rnd
    (with_playDisabled true (with_lastHitTime 0 (with_combo 0
       (with_score 0 (with_running true (clearGame (measure rc s))))))))
    as (Hst & Hsh & Hv & _ & Ht & Hl).
  revert Hst Hsh Hv Ht Hl.
  generalize (spawnOrbs ORB_COUNT rnd
    (with_playDisabled true (with_lastHitTime 0 (with_combo 0
       (with_score 0 (with_running true (clearGame (measure rc s)))))))).
  intros s3. unfold status, sheet, vault, clearGame. fields.
  intros [= -> _ -> _] [= -> -> ->] [= -> ->] -> ->.
  repeat split.
Qed.

Lemma tick_cases (s : game) :
  ((timeLeft s <= 1)%Z /\ tick s = endGame (with_timeLeft (timeLeft s - 1) s)) \/
  ((1 < timeLeft s)%Z /\ tick s = with_timeLeft (timeLeft s - 1) s).
Proof.
  unfold tick. cbv zeta. fields.
  destruct (timeLeft s - 1 <=? 0)%Z eqn:E.
  - left. apply Z.leb_le in E. split; [lia | reflexivity].
  - right. apply Z.leb_gt in E. split; [lia | reflexivity].
Qed.

(** ** The page status *)

Lemma status_inv (s : game) (a b c : bool) (d : Z) :
  status s = (a, b, c, d) ->
  running s = a /\ timerId s = b /\ playDisabled s = c /\ timeLeft s = d.
Proof. unfold status. intros [= -> -> -> ->]. repeat split. Qed.

Lemma settled_boot pr store b rc : settled (boot pr store b rc).
Proof.
  repeat split; try discriminate. left. reflexivity.
Qed.

Lemma settled_startGame (rc : Bounds.t) (rnd : nat -> draw) (s : game) :
  settled (startGame rc rnd s).
Proof.
  destruct (startGame_views rc rnd s) as (Hst & _ & _ & Hraf & _).
  apply status_inv in Hst. destruct Hst as (Hr & Ht & Hp & Hl).
  unfold settled. rewrite Hr, Ht, Hp, Hl, Hraf.
  repeat split; try discriminate; unfold ROUND_SECONDS; lia.
Qed.

Lemma settled_endGame (s : game) :
  (timeLeft s = 0%Z \/ timeLeft s = ROUND_SECONDS) -> settled (endGame s).
Proof.
  intros Hl. destruct (endGame_views s) as (Hst & _ & Hraf & _ & _ & Ho & _).
  apply status_inv in Hst. destruct Hst as (Hr & Ht & Hp & Hl').
  unfold settled. rewrite Hr, Ht, Hp, Hl', Hraf, Ho.
  repeat split; try discriminate. tauto.
Qed.

Lemma settled_same (s s' : game) :
  status s' = status s -> raf s' = raf s -> orbs s' = orbs s ->
  settled s -> settled s'.
Proof.
  unfold status, settled. intros [= -> -> -> ->] -> ->. auto.
Qed.

Lemma settled_live (s s' : game) :
  status s' = status s -> raf s' = raf s -> running s = true ->
  settled s -> settled s'.
Proof.
  unfold status, settled. intros [= -> -> -> ->] -> Hrun. rewrite Hrun.
  intros (H1 & H2 & H3 & _ & H5).
  split; [exact H1|]. split; [exact H2|]. split; [exact H3|].
  split; [discriminate | exact H5].
Qed.

Lemma settled_respawn (r : ref) (d : draw) (s : game) :
  settled s -> settled (respawn r d s).
Proof.
  destruct (respawn_views r d s) as (Hst & _ & _ & Hraf & _).
  destruct (running s) eqn:Hrun.
  - apply settled_live; assumption.
  - unfold respawn. rewrite Hrun. exact id.
Qed.

Lemma settled_tick (s : game) : settled s -> running s = true -> settled (tick s).
Proof.
  intros H Hrun. destruct H as (Ht & Hraf & Hp & Hidle & Hlive).
  specialize (Hlive Hrun).
  destruct (tick_cases s) as [[Hle ->]|[Hlt ->]].
  - apply settled_endGame. left. cbn. lia.
  - unfold settled. fields. rewrite Ht, Hraf, Hp, Hrun.
    repeat split; try discriminate; lia.
Qed.

Lemma settled_step (ts : Q) (s : game) :
  settled (with_raf true s) -> settled (step ts (with_raf false s)).
Proof.
  intros (Ht & Hraf & Hp & Hidle & Hlive). cbn in Ht, Hraf, Hp, Hidle, Hlive.
  destruct (step_views ts (with_raf false s)) as (Hst & _ & _ & _ & Ho & _ & Hr).
  apply status_inv in Hst. destruct Hst as (E1 & E2 & E3 & E4).
  cbn in E1, E2, E3, E4, Ho, Hr.
  unfold settled. rewrite E1, E2, E3, E4, Ho, Hr, orb_false_r.
  repeat split; auto; try congruence; apply Hlive; congruence.
Qed.

Lemma settled_areaKeydown (rc : Bounds.t) (rnd : nat -> draw) (s : game) :
  settled s -> settled (areaKeydown rc rnd s).
Proof.
  intros H. unfold areaKeydown. destruct (negb (running s)); [|exact H].
  apply settled_startGame.
Qed.

Lemma settled_hitOrb (r : ref) (t : Q) (s : game) : settled s -> settled (hitOrb r t s).
Proof.
  destruct (hitOrb_views r t s) as (Hst & _ & Hraf & _).
  apply settled_same; [exact Hst | exact Hraf | apply hitOrb_orbs].
Qed.

Lemma settled_dispatch (s : game) (e : event) : settled s -> settled (dispatch s e).
Proof.
  intros H. destruct e as [rc rnd|rc rnd|r t|r t rc rnd|d|ts| |rc]; simpl.
  - destruct (playDisabled s); [exact H | apply settled_startGame].
  - apply settled_areaKeydown, H.
  - destruct (bool_decide _); [apply settled_hitOrb, H | exact H].
  - destruct (bool_decide _); [apply settled_areaKeydown, settled_hitOrb, H | exact H].
  - destruct (timeouts s) as [|r rest] eqn:Ht; [exact H|].
    apply settled_respawn. revert H. apply settled_same; reflexivity.
  - destruct (raf s) eqn:Hraf; [|exact H]. apply settled_step.
    revert H. apply settled_same; [reflexivity | exact (eq_sym Hraf) | reflexivity].
  - destruct (timerId s) eqn:Ht; [|exact H]. apply settled_tick; [exact H|].
    destruct H as (H1 & _). congruence.
  - revert H. apply settled_same; reflexivity.
Qed.

Lemma settled_reachable pr store b rc (es : list event) :
  settled (run (boot pr store b rc) es).
Proof.
  apply run_invariant_all; [intros s e; apply settled_dispatch | apply settled_boot].
Qed.

Lemma run_snoc (s : game) (es : list event) (e : event) :
  run s (es ++ [e]) = dispatch (run s es) e.
Proof. unfold run. rewrite foldl_app. reflexivity. Qed.

Lemma run_run (s : game) (es es' : list event) :
  run (run s es) es' = run s (es ++ es').
Proof. unfold run. rewrite foldl_app. reflexivity. Qed.

(** X1.  The status of the page.  In every state the page reaches, the round
    runs exactly when the countdown is installed, a frame is requested and
    the play button is disabled; an idle page has no orb in the array or in
    the game area and shows 20 or 0 seconds; a running round has between 1
    and 20 seconds left. *)
Theorem page_status
    (pr : bool) (store : gmap string string) (b : Z) (rc : Bounds.t)
    (es : list event) :
  let s := run (boot pr store b rc) es in
  timerId s = running s /\ raf s = running s /\ playDisabled s = running s /\
  (running s = false ->
     orbs s = [] /\ attached s = [] /\
     (timeLeft s = ROUND_SECONDS \/ timeLeft s = 0%Z)) /\
  (running s = true -> (1 <= timeLeft s <= ROUND_SECONDS)%Z).
Proof.
  intros s. destruct (settled_reachable pr store b rc es) as (H1 & H2 & H3 & H4 & H5).
  destruct (wf_reachable pr store b rc es) as (_ & _ & Hat).
  fold s in H1, H2, H3, H4, H5, Hat.
  repeat split; auto; try (apply H5; assumption).
  - apply H4; assumption.
  - rewrite Hat. apply H4; assumption.
  - apply H4; assumption.
Qed.

(** ** The countdown (lines 146-156) *)

Lemma ticks_app (es es' : list event) : ticks (es ++ es') = (ticks es + ticks es')%nat.
Proof.
  induction es as [|e es IH]; [reflexivity|].
  destruct e; simpl; rewrite IH; reflexivity.
Qed.

Lemma dispatch_live_status (s : game) (e : event) :
  settled s -> running s = true -> e <> Tick -> status (dispatch s e) = status s.
Proof.
  intros (Ht & Hraf & Hp & _) Hrun He.
  destruct e as [rc rnd|rc rnd|r t|r t rc rnd|d|ts| |rc]; simpl.
  - rewrite Hp, Hrun. reflexivity.
  - unfold areaKeydown. rewrite Hrun. reflexivity.
  - destruct (bool_decide _); [apply hitOrb_views | reflexivity].
  - destruct (bool_decide _); [|reflexivity].
    unfold areaKeydown. rewrite hitOrb_running, Hrun. apply hitOrb_views.
  - destruct (timeouts s) as [|r rest]; [reflexivity|].
    destruct (respawn_views r d (with_timeouts rest s)) as (-> & _). reflexivity.
  - destruct (raf s); [|reflexivity].
    destruct (step_views ts (with_raf false s)) as (-> & _). reflexivity.
  - congruence.
  - reflexivity.
Qed.

Lemma dispatch_live_tick (s : game) :
  settled s -> running s = true ->
  ((1 < timeLeft s)%Z ->
     running (dispatch s Tick) = true /\
     timeLeft (dispatch s Tick) = (timeLeft s - 1)%Z) /\
  (timeLeft s = 1%Z ->
     running (dispatch s Tick) = false /\ timeLeft (dispatch s Tick) = 0%Z).
Proof.
  intros (Ht & _) Hrun. simpl. rewrite Ht, Hrun.
  destruct (tick_cases s) as [[Hle ->]|[Hlt ->]]; split; intros H; try lia.
  - destruct (endGame_views (with_timeLeft (timeLeft s - 1) s)) as (Hst & _).
    apply status_inv in Hst. destruct Hst as (-> & _ & _ & ->).
    split; [reflexivity | cbn; lia].
  - split; [exact Hrun | reflexivity].
Qed.

Lemma event_tick_dec (e : event) : {e = Tick} + {e <> Tick}.
Proof. destruct e; (left; reflexivity) || (right; discriminate). Qed.

Lemma countdown_from (s : game) (es : list event) :
  settled s -> running s = true -> (Z.of_nat (ticks es) < timeLeft s)%Z ->
  settled (run s es) /\ running (run s es) = true /\
  timeLeft (run s es) = (timeLeft s - Z.of_nat (ticks es))%Z.
Proof.
  intros Hs Hrun. induction es as [|e es IH] using rev_ind; intros Hlt.
  - cbn. split; [exact Hs|]. split; [exact Hrun | lia].
  - rewrite ticks_app in Hlt. rewrite ticks_app, run_snoc.
    destruct IH as (Hs' & Hrun' & Hl'); [lia|].
    split; [apply settled_dispatch, Hs'|].
    destruct (event_tick_dec e) as [->|He].
    + cbn [ticks] in Hlt |- *.
      destruct (dispatch_live_tick _ Hs' Hrun') as [Hgo _].
      destruct Hgo as [-> ->]; [lia|]. split; [reflexivity | lia].
    + pose proof (dispatch_live_status _ _ Hs' Hrun' He) as Hst.
      symmetry in Hst. apply status_inv in Hst. destruct Hst as (Hr & _ & _ & Hl).
      assert (ticks [e] = O) as -> by (destruct e; try reflexivity; congruence).
      rewrite <- Hr, <- Hl. split; [exact Hrun' | lia].
Qed.

(** X2.  The length of a round.  From a state the page has reached in which a
    round runs, whatever happens next (hits, frames, resizes, keys, clicks
    on the play button, respawns), the round keeps running and the display
    shows the seconds left minus the interval callbacks so far, as long as
    these are fewer than the seconds left; the callback that brings the
    display to 0 ends the round.  With [startTimer] setting 20 seconds, a
    round lasts exactly 20 callbacks. *)
Theorem round_lasts_its_ticks
    (pr : bool) (store : gmap string string) (b : Z) (rc : Bounds.t)
    (es0 es : list event) :
  let s := run (boot pr store b rc) es0 in
  running s = true ->
  (Z.of_nat (ticks es) < timeLeft s)%Z ->
  running (run s es) = true /\
  timeLeft (run s es) = (timeLeft s - Z.of_nat (ticks es))%Z /\
  (timeLeft s = (Z.of_nat (ticks es) + 1)%Z ->
     running (run s (es ++ [Tick])) = false /\
     timeLeft (run s (es ++ [Tick])) = 0%Z /\
     orbs (run s (es ++ [Tick])) = []).
Proof.
  intros s Hrun Hlt.
  pose proof (settled_reachable pr store b rc es0) as Hs. fold s in Hs.
  destruct (countdown_from s es Hs Hrun Hlt) as (Hs' & Hrun' & Hl').
  split; [exact Hrun'|]. split; [exact Hl'|].
  intros Hlast. rewrite run_snoc.
  destruct (dispatch_live_tick _ Hs' Hrun') as [_ Hend].
  destruct Hend as [Hr Ht]; [lia|].
  split; [exact Hr|]. split; [exact Ht|].
  apply (settled_dispatch _ Tick) in Hs'.
  destruct Hs' as (_ & _ & _ & Hidle & _). apply Hidle, Hr.
Qed.

Lemma round_lasts_its_ticks_witness :
  running (run (run (boot false ∅ 0 arena) [PlayClick arena (fun _ => centre_draw)])
               [Tick; Frame 16; OrbClick 0%nat 5000; Tick]) = true.
Proof.
  refine (proj1 (round_lasts_its_ticks false ∅ 0 arena
                   [PlayClick arena (fun _ => centre_draw)]
                   [Tick; Frame 16; OrbClick 0%nat 5000; Tick] _ _)); evaluate.
Defined.

(** ** Starting and stopping *)

(** X4.  No restart during a round.  In a state the page has reached in which
    a round runs, a click on the play button and Enter or space on the game
    area change nothing, and Enter or space on an orb does what a click on
    it does: the key event that bubbles to the game area starts no round. *)
Theorem running_round_is_not_restarted
    (pr : bool) (store : gmap string string) (b : Z) (rc0 : Bounds.t)
    (es : list event) (r : ref) (t : Q) (rc : Bounds.t) (rnd : nat -> draw) :
  let s := run (boot pr store b rc0) es in
  running s = true ->
  dispatch s (PlayClick rc rnd) = s /\
  dispatch s (AreaKey rc rnd) = s /\
  dispatch s (OrbKey r t rc rnd) = dispatch s (OrbClick r t).
Proof.
  intros s Hrun.
  destruct (settled_reachable pr store b rc0 es) as (_ & _ & Hp & _). fold s in Hp.
  simpl. unfold areaKeydown. rewrite Hp, hitOrb_running, Hrun. repeat split.
Qed.

Lemma running_round_is_not_restarted_witness :
  dispatch (run (boot false ∅ 0 arena) [PlayClick arena (fun _ => centre_draw)])
           (PlayClick narrow (fun _ => edge_draw))
  = run (boot false ∅ 0 arena) [PlayClick arena (fun _ => centre_draw)].
Proof.
  refine (proj1 (running_round_is_not_restarted false ∅ 0 arena
                   [PlayClick arena (fun _ => centre_draw)] 0%nat 0
                   narrow (fun _ => edge_draw) _)).
  evaluate.
Defined.

(** X5.  An idle page.  In a state the page has reached in which no round
    runs, interval callbacks, frames and clicks or keys on orbs change
    nothing, and a pending respawn changes neither the orbs nor the score
    sheet nor the best score: only the play button, Enter or space on the
    game area and a resize act on an idle page. *)
Theorem idle_page_waits_for_start
    (pr : bool) (store : gmap string string) (b : Z) (rc0 : Bounds.t)
    (es : list event) (r : ref) (t ts : Q) (rc : Bounds.t) (rnd : nat -> draw)
    (d : draw) :
  let s := run (boot pr store b rc0) es in
  running s = false ->
  dispatch s Tick = s /\ dispatch s (Frame ts) = s /\
  dispatch s (OrbClick r t) = s /\ dispatch s (OrbKey r t rc rnd) = s /\
  orbs (dispatch s (Timeout d)) = [] /\ heap (dispatch s (Timeout d)) = heap s /\
  status (dispatch s (Timeout d)) = status s /\
  sheet (dispatch s (Timeout d)) = sheet s /\
  vault (dispatch s (Timeout d)) = vault s.
Proof.
  intros s Hrun.
  destruct (settled_reachable pr store b rc0 es) as (Ht & Hraf & _ & Hidle & _).
  destruct (wf_reachable pr store b rc0 es) as (_ & _ & Hat).
  fold s in Ht, Hraf, Hidle, Hat. destruct (Hidle Hrun) as (Ho & _).
  rewrite Ho in Hat.
  simpl. rewrite Ht, Hraf, Hrun, Hat.
  assert (forall x : ref, bool_decide (x ∈ @nil ref) = false) as Hno.
  { intros x. apply bool_decide_eq_false. apply not_elem_of_nil. }
  rewrite Hno. repeat split.
  all: destruct (timeouts s) as [|r' rest]; [first [exact Ho | reflexivity]|].
  all: unfold respawn; change (running (with_timeouts rest s)) with (running s);
       rewrite Hrun; cbn [negb]; first [exact Ho | reflexivity].
Qed.

Lemma idle_page_waits_for_start_witness :
  dispatch (run (boot false ∅ 0 arena)
                (PlayClick arena (fun _ => centre_draw) :: OrbClick 0%nat 5000
                   :: replicate 20 Tick))
           (OrbClick 1%nat 6000)
  = run (boot false ∅ 0 arena)
        (PlayClick arena (fun _ => centre_draw) :: OrbClick 0%nat 5000
           :: replicate 20 Tick).
Proof.
  refine (proj1 (proj2 (proj2 (idle_page_waits_for_start false ∅ 0 arena
            (PlayClick arena (fun _ => centre_draw) :: OrbClick 0%nat 5000
               :: replicate 20 Tick)
            1%nat 6000 0 arena (fun _ => centre_draw) centre_draw _)))).
  evaluate.
Defined.

(** ** Objects over time *)

Section Carried.
Variable R : Orb.t -> Orb.t -> Prop.
Hypothesis R_refl : forall o, R o o.
Hypothesis R_trans : forall o1 o2 o3, R o1 o2 -> R o2 o3 -> R o1 o3.
Hypothesis R_moveOrb : forall dt b o, R o (moveOrb dt b o).
Hypothesis R_clampOrb : forall b o, R o (clampOrb b o).
Hypothesis R_hit : forall o, R o (Orb.set_alive o false).

Lemma R_iter (f : Orb.t -> Orb.t) (n : nat) (o : Orb.t) :
  (forall o1, R o1 (f o1)) -> R o (Nat.iter n f o).
Proof.
  intros Hf. induction n as [|n IH]; simpl.
  - apply R_refl.
  - eapply R_trans; [exact IH | apply Hf].
Qed.

Lemma carries_refl (s : game) : carries R s s.
Proof. intros r o Ho. exists o. split; [exact Ho | apply R_refl]. Qed.

Lemma carries_trans (s1 s2 s3 : game) :
  carries R s1 s2 -> carries R s2 s3 -> carries R s1 s3.
Proof.
  intros H12 H23 r o Ho. destruct (H12 r o Ho) as (o2 & Ho2 & S2).
  destruct (H23 r o2 Ho2) as (o3 & Ho3 & S3).
  exists o3. split; [exact Ho3 | eapply R_trans; eassumption].
Qed.

Lemma carries_same (s s' : game) : heap s' = heap s -> carries R s s'.
Proof.
  intros E r o Ho. exists o. rewrite E. split; [exact Ho | apply R_refl].
Qed.

Lemma carries_grow (s s' : game) (l : list Orb.t) :
  heap s' = heap s ++ l -> carries R s s'.
Proof.
  intros E r o Ho. exists o. rewrite E.
  split; [apply lookup_app_l_Some, Ho | apply R_refl].
Qed.

Lemma carries_loop (f : Orb.t -> Orb.t) (s s' : game) (l : list ref) :
  (forall o1, R o1 (f o1)) ->
  heap s' = foldl (fun hp r => alter f r hp) (heap s) l ->
  carries R s s'.
Proof.
  intros Hf E r o Ho. rewrite E, foldl_alter_lookup, Ho. simpl.
  eexists. split; [reflexivity|]. apply R_iter, Hf.
Qed.

Lemma carries_hitOrb (r : ref) (t : Q) (s : game) : carries R s (hitOrb r t s).
Proof.
  intros r' o' Ho'. unfold hitOrb. destruct (heap s !! r) as [o|] eqn:E.
  2:{ exists o'. split; [exact Ho' | apply R_refl]. }
  destruct (negb (running s) || negb (Orb.alive o)).
  { exists o'. split; [exact Ho' | apply R_refl]. }
  fields. destruct (decide (r = r')) as [->|Hne].
  - rewrite list_lookup_insert_eq by (apply lookup_lt_Some in E; exact E).
    eexists. split; [reflexivity|]. rewrite E in Ho'. injection Ho' as ->.
    apply R_hit.
  - rewrite list_lookup_insert_ne by exact Hne.
    exists o'. split; [exact Ho' | apply R_refl].
Qed.

Lemma carries_respawn (r : ref) (d : draw) (s : game) : carries R s (respawn r d s).
Proof.
  destruct (running s) eqn:E.
  - eapply carries_grow. apply respawn_heap, E.
  - unfold respawn. rewrite E. apply carries_refl.
Qed.

Lemma carries_step (ts : Q) (s : game) : carries R s (step ts s).
Proof.
  unfold step. destruct (negb (running s)); [apply carries_refl|].
  eapply carries_loop; [|reflexivity]. intros o. apply R_moveOrb.
Qed.

Lemma carries_resize (rc : Bounds.t) (s : game) : carries R s (resize rc s).
Proof.
  unfold resize. eapply carries_loop; [|reflexivity]. intros o. apply R_clampOrb.
Qed.

Lemma carries_areaKeydown (rc : Bounds.t) (rnd : nat -> draw) (s : game) :
  carries R s (areaKeydown rc rnd s).
Proof.
  unfold areaKeydown. destruct (negb (running s)); [|apply carries_refl].
  eapply carries_grow. apply startGame_heap.
Qed.

Lemma carries_dispatch (s : game) (e : event) : carries R s (dispatch s e).
Proof.
  destruct e as [rc rnd|rc rnd|r t|r t rc rnd|d|ts| |rc]; simpl.
  - destruct (playDisabled s); [apply carries_refl|].
    eapply carries_grow. apply startGame_heap.
  - apply carries_areaKeydown.
  - destruct (bool_decide _); [apply carries_hitOrb | apply carries_refl].
  - destruct (bool_decide _); [|apply carries_refl].
    eapply carries_trans; [apply carries_hitOrb | apply carries_areaKeydown].
  - destruct (timeouts s) as [|r rest]; [apply carries_refl|].
    eapply carries_trans; [|apply carries_respawn].
    apply carries_same. reflexivity.
  - destruct (raf s); [|apply carries_refl].
    eapply carries_trans; [|apply carries_step].
    apply carries_same. reflexivity.
  - destruct (timerId s); [|apply carries_refl].
    apply carries_same, tick_heap.
  - apply carries_resize.
Qed.

Lemma carries_run (s : game) (es : list event) : carries R s (run s es).
Proof.
  revert s. induction es as [|e es IH]; intros s; [apply carries_refl|].
  eapply carries_trans; [apply carries_dispatch | apply (IH (dispatch s e))].
Qed.

End Carried.

Lemma no_revival_run (s : game) (es : list event) : carries no_revival s (run s es).
Proof.
  apply carries_run; unfold no_revival.
  - auto.
  - auto.
  - intros dt b o H. rewrite moveOrb_dead by exact H. exact H.
  - intros b o H. exact H.
  - reflexivity.
Qed.

Lemma hitOrb_kills (r : ref) (t : Q) (s : game) (o : Orb.t) :
  heap s !! r = Some o -> running s = true ->
  exists o', heap (hitOrb r t s) !! r = Some o' /\ Orb.alive o' = false.
Proof.
  intros Ho Hrun. unfold hitOrb. rewrite Ho, Hrun. cbn [negb orb].
  destruct (Orb.alive o) eqn:Ha; cbn [negb].
  - fields. rewrite list_lookup_insert_eq by (apply lookup_lt_Some in Ho; exact Ho).
    eexists. split; reflexivity.
  - exists o. split; assumption.
Qed.

Lemma hitOrb_dead (r : ref) (t : Q) (s : game) (o : Orb.t) :
  heap s !! r = Some o -> Orb.alive o = false -> hitOrb r t s = s.
Proof.
  intros Ho Ha. unfold hitOrb. rewrite Ho, Ha. rewrite orb_true_r. reflexivity.
Qed.

(** X6.  An orb scores once.  When an orb has been activated in a running
    round, whatever happens afterwards (frames, resizes, other hits,
    respawns, the end of the round, new rounds), a click or key on that orb
    changes nothing: not the score, not the combo, not the reference time
    of the combo window. *)
Theorem orb_scores_once
    (s : game) (r : ref) (t : Q) (o : Orb.t) (es : list event) (t' : Q) :
  heap s !! r = Some o -> running s = true ->
  let s' := run (hitOrb r t s) es in
  hitOrb r t' s' = s' /\ dispatch s' (OrbClick r t') = s'.
Proof.
  intros Ho Hrun s'.
  destruct (hitOrb_kills r t s o Ho Hrun) as (o1 & Ho1 & Ha1).
  destruct (no_revival_run (hitOrb r t s) es r o1 Ho1) as (o2 & Ho2 & Ha2).
  fold s' in Ho2. specialize (Ha2 Ha1).
  pose proof (hitOrb_dead r t' s' o2 Ho2 Ha2) as Hn.
  split; [exact Hn|]. simpl. rewrite Hn. destruct (bool_decide _); reflexivity.
Qed.

Lemma orb_scores_once_witness :
  hitOrb 0%nat 5100
    (run (hitOrb 0%nat 5000 fresh_round) [Frame 16; Tick; Resize narrow; Timeout far_draw])
  = run (hitOrb 0%nat 5000 fresh_round) [Frame 16; Tick; Resize narrow; Timeout far_draw].
Proof.
  refine (proj1 (orb_scores_once fresh_round 0%nat 5000
                   (default (Orb.mk 0 0 0 0 false) (heap fresh_round !! 0%nat))
                   [Frame 16; Tick; Resize narrow; Timeout far_draw] 5100 _ _));
    evaluate.
Defined.

(** ** The score sheet *)

Lemma sheet_inv (s : game) (a b : Z) (c : Q) :
  sheet s = (a, b, c) -> score s = a /\ combo s = b /\ lastHitTime s = c.
Proof. unfold sheet. intros [= -> -> ->]. repeat split. Qed.

Lemma sheet_ok_same (s s' : game) : sheet s' = sheet s -> sheet_ok s -> sheet_ok s'.
Proof. unfold sheet, sheet_ok. intros [= -> -> _]. exact id. Qed.

Lemma sheet_ok_startGame (rc : Bounds.t) (rnd : nat -> draw) (s : game) :
  sheet_ok (startGame rc rnd s).
Proof.
  destruct (startGame_views rc rnd s) as (_ & Hsh & _).
  apply sheet_inv in Hsh. destruct Hsh as (Hs & Hc & _).
  unfold sheet_ok. rewrite Hs, Hc. repeat split; try lia. apply Z.divide_0_r.
Qed.

Lemma next_combo_nonneg (t : Q) (s : game) :
  (0 <= combo s)%Z -> (0 <= next_combo t s)%Z.
Proof. unfold next_combo. destruct (Qle_bool _ _); lia. Qed.

Lemma sheet_ok_hitOrb (r : ref) (t : Q) (s : game) :
  sheet_ok s -> sheet_ok (hitOrb r t s).
Proof.
  intros (Hc & Hs & Hd). unfold hitOrb.
  destruct (heap s !! r) as [o|] eqn:E; [|repeat split; assumption].
  destruct (negb (running s) || negb (Orb.alive o)); [repeat split; assumption|].
  unfold sheet_ok. fields.
  pose proof (next_combo_nonneg t s Hc) as Hn. unfold next_combo in Hn.
  split; [exact Hn|]. split.
  - unfold BASE_POINTS. lia.
  - apply Z.divide_add_r; [exact Hd | apply Z.divide_factor_l].
Qed.

Lemma sheet_ok_areaKeydown (rc : Bounds.t) (rnd : nat -> draw) (s : game) :
  sheet_ok s -> sheet_ok (areaKeydown rc rnd s).
Proof.
  intros H. unfold areaKeydown. destruct (negb (running s)); [|exact H].
  apply sheet_ok_startGame.
Qed.

Lemma tick_sheet (s : game) : sheet (tick s) = sheet s.
Proof.
  destruct (tick_cases s) as [[_ ->]|[_ ->]]; [|reflexivity].
  destruct (endGame_views (with_timeLeft (timeLeft s - 1) s)) as (_ & -> & _).
  reflexivity.
Qed.

Lemma sheet_ok_dispatch (s : game) (e : event) : sheet_ok s -> sheet_ok (dispatch s e).
Proof.
  intros H. destruct e as [rc rnd|rc rnd|r t|r t rc rnd|d|ts| |rc]; simpl.
  - destruct (playDisabled s); [exact H | apply sheet_ok_startGame].
  - apply sheet_ok_areaKeydown, H.
  - destruct (bool_decide _); [apply sheet_ok_hitOrb, H | exact H].
  - destruct (bool_decide _); [apply sheet_ok_areaKeydown, sheet_ok_hitOrb, H | exact H].
  - destruct (timeouts s) as [|r rest]; [exact H|].
    revert H. apply sheet_ok_same.
    destruct (respawn_views r d (with_timeouts rest s)) as (_ & -> & _). reflexivity.
  - destruct (raf s); [|exact H]. revert H. apply sheet_ok_same.
    destruct (step_views ts (with_raf false s)) as (_ & -> & _). reflexivity.
  - destruct (timerId s); [|exact H]. revert H. apply sheet_ok_same, tick_sheet.
  - exact H.
Qed.

(** X9.  The score sheet.  In every state the page reaches the combo counter
    is not negative and the score is a non-negative multiple of
    [BASE_POINTS]. *)
Theorem score_is_a_multiple_of_base_points
    (pr : bool) (store : gmap string string) (b : Z) (rc : Bounds.t)
    (es : list event) :
  let s := run (boot pr store b rc) es in
  (0 <= combo s)%Z /\ (0 <= score s)%Z /\ (BASE_POINTS | score s)%Z.
Proof.
  apply (run_invariant_all sheet_ok sheet_ok_dispatch).
  repeat split; cbn; try lia. apply Z.divide_0_r.
Qed.

(** ** The best score *)

Lemma vault_inv (s : game) (a : Z) (m : gmap string string) :
  vault s = (a, m) -> best s = a /\ storage s = m.
Proof. unfold vault. intros [= -> ->]. split; reflexivity. Qed.

Lemma endGame_vault (s : game) :
  ((score s <= best s)%Z /\ vault (endGame s) = vault s) \/
  ((best s < score s)%Z /\ best (endGame s) = score s /\
   storage (endGame s) = <["jk_best_score" := pretty (score s)]> (storage s)).
Proof.
  unfold endGame. cbv zeta. unfold clearGame. fields.
  destruct (score s >? best s)%Z eqn:E.
  - right. apply Z.gtb_lt in E. repeat split. exact E.
  - left. split; [|reflexivity]. pose proof (Zgt_cases (score s) (best s)) as H.
    rewrite E in H. exact H.
Qed.

Lemma dispatch_vault (s : game) (e : event) :
  vault (dispatch s e) = vault s \/
  ((best s < score s)%Z /\ best (dispatch s e) = score s /\
   score (dispatch s e) = score s /\ running (dispatch s e) = false /\
   storage (dispatch s e) = <["jk_best_score" := pretty (score s)]> (storage s)).
Proof.
  destruct e as [rc rnd|rc rnd|r t|r t rc rnd|d|ts| |rc]; simpl.
  - left. destruct (playDisabled s); [reflexivity | apply startGame_views].
  - left. unfold areaKeydown. destruct (negb (running s));
      [apply startGame_views | reflexivity].
  - left. destruct (bool_decide _); [apply hitOrb_views | reflexivity].
  - left. destruct (bool_decide _); [|reflexivity].
    unfold areaKeydown. destruct (negb _); [|apply hitOrb_views].
    destruct (startGame_views rc rnd (hitOrb r t s)) as (_ & _ & -> & _).
    apply hitOrb_views.
  - left. destruct (timeouts s) as [|r rest]; [reflexivity|].
    destruct (respawn_views r d (with_timeouts rest s)) as (_ & _ & -> & _).
    reflexivity.
  - left. destruct (raf s); [|reflexivity].
    destruct (step_views ts (with_raf false s)) as (_ & _ & -> & _). reflexivity.
  - destruct (timerId s); [|left; reflexivity].
    destruct (tick_cases s) as [[_ ->]|[_ ->]]; [|left; reflexivity].
    destruct (endGame_vault (with_timeLeft (timeLeft s - 1) s)) as [[_ H]|(H1 & H2 & H3)].
    + left. rewrite H. reflexivity.
    + right. rewrite endGame_score, endGame_running.
      split; [exact H1|]. split; [exact H2|]. split; [reflexivity|].
      split; [reflexivity | exact H3].
  - left. reflexivity.
Qed.

(** X10.  The best score never drops.  Over any run of events from any state
    the best score does not decrease. *)
Theorem best_never_decreases (s : game) (es : list event) :
  (best s <= best (run s es))%Z.
Proof.
  revert s. induction es as [|e es IH]; intros s; [cbn; lia|].
  change (run s (e :: es)) with (run (dispatch s e) es).
  specialize (IH (dispatch s e)).
  destruct (dispatch_vault s e) as [H|(H1 & H2 & _)].
  - apply vault_inv in H. destruct H as [H _]. lia.
  - lia.
Qed.

Lemma only_best_written_dispatch (s : game) (e : event) :
  only_best_written (storage s) (storage (dispatch s e)).
Proof.
  intros k Hk. destruct (dispatch_vault s e) as [H|(_ & _ & _ & _ & H)].
  - apply vault_inv in H. destruct H as [_ ->]. reflexivity.
  - rewrite H. apply lookup_insert_ne. congruence.
Qed.

(** X12.  The local storage.  Over any run of events from any state, every
    entry of the local storage under a key other than [jk_best_score] is
    as it was: the script writes that one key only. *)
Theorem other_storage_keys_are_untouched (s : game) (es : list event) (k : string) :
  k <> "jk_best_score" -> storage (run s es) !! k = storage s !! k.
Proof.
  intros Hk. revert s. induction es as [|e es IH]; intros s; [reflexivity|].
  change (run s (e :: es)) with (run (dispatch s e) es).
  rewrite IH. apply only_best_written_dispatch, Hk.
Qed.

Lemma other_storage_keys_are_untouched_witness :
  storage (run (boot false {["theme" := "dark"]} 0 arena)
               (PlayClick arena (fun _ => centre_draw) :: OrbClick 0%nat 5000
                  :: replicate 20 Tick)) !! "theme"
  = storage (boot false {["theme" := "dark"]} 0 arena) !! "theme".
Proof.
  apply (other_storage_keys_are_untouched (boot false {["theme" := "dark"]} 0 arena)
           (PlayClick arena (fun _ => centre_draw) :: OrbClick 0%nat 5000
              :: replicate 20 Tick) "theme").
  evaluate.
Defined.

Lemma areaKeydown_running (rc : Bounds.t) (rnd : nat -> draw) (s : game) :
  running (areaKeydown rc rnd s) = true.
Proof.
  unfold areaKeydown. destruct (running s) eqn:E; cbn [negb]; [exact E|].
  destruct (startGame_views rc rnd s) as (Hst & _).
  apply status_inv in Hst. apply Hst.
Qed.

Lemma score_within_best_same (s s' : game) :
  sheet s' = sheet s -> vault s' = vault s -> running s' = running s ->
  ((0 <= best s)%Z /\ (running s = false -> (score s <= best s)%Z)) ->
  (0 <= best s')%Z /\ (running s' = false -> (score s' <= best s')%Z).
Proof. unfold sheet, vault. intros [= -> _ _] [= -> _] ->. exact id. Qed.

Lemma score_within_best_live (s s' : game) :
  vault s' = vault s -> running s' = true ->
  ((0 <= best s)%Z /\ (running s = false -> (score s <= best s)%Z)) ->
  (0 <= best s')%Z /\ (running s' = false -> (score s' <= best s')%Z).
Proof.
  unfold vault. intros [= -> _] -> [H _]. split; [exact H | discriminate].
Qed.

Lemma score_within_best_dispatch (s : game) (e : event) :
  ((0 <= best s)%Z /\ (running s = false -> (score s <= best s)%Z)) ->
  (0 <= best (dispatch s e))%Z /\
  (running (dispatch s e) = false -> (score (dispatch s e) <= best (dispatch s e))%Z).
Proof.
  intros H. destruct e as [rc rnd|rc rnd|r t|r t rc rnd|d|ts| |rc]; simpl.
  - destruct (playDisabled s); [exact H|]. revert H.
    destruct (startGame_views rc rnd s) as (Hst & _ & Hv & _).
    apply status_inv in Hst. apply score_within_best_live; [exact Hv | apply Hst].
  - revert H. apply score_within_best_live; [|apply areaKeydown_running].
    unfold areaKeydown. destruct (negb _); [apply startGame_views | reflexivity].
  - destruct (bool_decide _); [|exact H].
    destruct (hitOrb_noop_or_live r t s) as [->|(Hrun & _)]; [exact H|].
    revert H. apply score_within_best_live; [apply hitOrb_views|].
    rewrite hitOrb_running. exact Hrun.
  - destruct (bool_decide _); [|exact H].
    revert H. apply score_within_best_live; [|apply areaKeydown_running].
    unfold areaKeydown. destruct (negb _); [|apply hitOrb_views].
    destruct (startGame_views rc rnd (hitOrb r t s)) as (_ & _ & -> & _).
    apply hitOrb_views.
  - destruct (timeouts s) as [|r rest]; [exact H|]. revert H.
    destruct (respawn_views r d (with_timeouts rest s)) as (Hst & Hsh & Hv & _).
    apply status_inv in Hst.
    apply score_within_best_same; [exact Hsh | exact Hv | apply Hst].
  - destruct (raf s); [|exact H]. revert H.
    destruct (step_views ts (with_raf false s)) as (Hst & Hsh & Hv & _).
    apply status_inv in Hst.
    apply score_within_best_same; [exact Hsh | exact Hv | apply Hst].
  - destruct (timerId s); [|exact H].
    destruct (tick_cases s) as [[_ ->]|[_ ->]]; [|exact H].
    destruct H as [Hb _].
    destruct (endGame_vault (with_timeLeft (timeLeft s - 1) s))
      as [[Hle Hv]|(Hlt & Hbest & _)].
    + apply vault_inv in Hv. destruct Hv as [Hv _]. rewrite Hv, endGame_score.
      split; [exact Hb | intros _; exact Hle].
    + rewrite Hbest, endGame_score. cbn in Hlt |- *. split; [lia | intros _; lia].
  - exact H.
Qed.

(** X11.  The best score covers every finished round.  When the page was
    loaded with a best score that is not negative, in every state it reaches
    in which no round runs the score on display is at most the best score. *)
Theorem idle_score_is_within_best
    (pr : bool) (store : gmap string string) (b : Z) (rc : Bounds.t)
    (es : list event) :
  (0 <= b)%Z ->
  let s := run (boot pr store b rc) es in
  running s = false -> (score s <= best s)%Z.
Proof.
  intros Hb s. unfold s.
  apply (run_invariant_all
           (fun s => (0 <= best s)%Z /\ (running s = false -> (score s <= best s)%Z))
           score_within_best_dispatch).
  split; [exact Hb | intros _; exact Hb].
Qed.

Lemma idle_score_is_within_best_witness :
  (score (run (boot false ∅ 0 arena)
              (PlayClick arena (fun _ => centre_draw) :: OrbClick 0%nat 5000
                 :: replicate 20 Tick))
   <= best (run (boot false ∅ 0 arena)
                (PlayClick arena (fun _ => centre_draw) :: OrbClick 0%nat 5000
                   :: replicate 20 Tick)))%Z.
Proof.
  apply (idle_score_is_within_best false ∅ 0 arena
           (PlayClick arena (fun _ => centre_draw) :: OrbClick 0%nat 5000
              :: replicate 20 Tick)); evaluate.
Defined.

(** ** Reading the best score back *)

Lemma digit_of_pretty (x : N) : (x < 10)%N -> digit_of (pretty_N_char x) = Some x.
Proof.
  intros H.
  assert (x = 0 \/ x = 1 \/ x = 2 \/ x = 3 \/ x = 4 \/ x = 5 \/ x = 6 \/ x = 7
          \/ x = 8 \/ x = 9)%N as Hx by lia.
  repeat (destruct Hx as [-> | Hx]; [reflexivity|]). subst x. reflexivity.
Qed.

Lemma digits_value_pretty_go (x : N) :
  exists p : N, forall (acc : N) (s : string),
    digits_value acc (pretty_N_go x s) = digits_value (acc * p + x) s.
Proof.
  induction (N.lt_wf_0 x) as [x _ IH].
  destruct (N.eq_0_gt_0_cases x) as [->|Hpos].
  - exists 1%N. intros acc s. rewrite pretty_N_go_0. f_equal. lia.
  - destruct (IH (x `div` 10)%N) as [p Hp]; [apply N.div_lt; lia|].
    exists (p * 10)%N. intros acc s.
    rewrite pretty_N_go_step by exact Hpos. rewrite Hp. cbn [digits_value].
    rewrite digit_of_pretty by (apply N.mod_lt; lia).
    f_equal. pose proof (N.div_mod x 10). lia.
Qed.

Lemma digits_value_pretty (x : N) : digits_value 0 (pretty x) = Some x.
Proof.
  unfold pretty, pretty_N. destruct (decide (x = 0%N)) as [->|Hx]; [reflexivity|].
  destruct (digits_value_pretty_go x) as [p Hp]. rewrite Hp. cbn. f_equal.
Qed.

Lemma Number_pretty (n : Z) : (0 <= n)%Z -> Number (pretty n) = Some n.
Proof.
  intros Hn. destruct n as [|p|p]; [reflexivity| |lia].
  unfold Number. change (pretty (Z.pos p)) with (pretty (N.pos p)).
  rewrite digits_value_pretty. reflexivity.
Qed.

Lemma pretty_pos_nonempty (n : Z) : (0 < n)%Z -> pretty n <> EmptyString.
Proof.
  intros Hn E. pose proof (Number_pretty n ltac:(lia)) as H.
  rewrite E in H. cbv in H. injection H as H. lia.
Qed.

Lemma Number_nonneg (s : string) (n : Z) : Number s = Some n -> (0 <= n)%Z.
Proof.
  unfold Number. destruct (digits_value 0 s) as [x|]; [|discriminate].
  intros [= <-]. lia.
Qed.

Lemma loadBest_nonneg (store : gmap string string) (n : Z) :
  loadBest store = Some n -> (0 <= n)%Z.
Proof.
  unfold loadBest. destruct (store !! "jk_best_score") as [s|].
  - destruct (decide (s = EmptyString)); [intros [= <-]; lia | apply Number_nonneg].
  - intros [= <-]. lia.
Qed.

Lemma loadBest_dispatch (s : game) (e : event) :
  (loadBest (storage s) = Some (best s) /\ (0 <= best s)%Z) ->
  loadBest (storage (dispatch s e)) = Some (best (dispatch s e)) /\
  (0 <= best (dispatch s e))%Z.
Proof.
  intros [Hl Hb]. destruct (dispatch_vault s e) as [H|(Hlt & Hbest & _ & _ & Hst)].
  - apply vault_inv in H. destruct H as [-> ->]. split; assumption.
  - rewrite Hbest, Hst. split; [|lia].
    unfold loadBest. rewrite lookup_insert_eq.
    destruct (decide (pretty (score s) = EmptyString)) as [E|_].
    + exfalso. revert E. apply pretty_pos_nonempty. lia.
    + apply Number_pretty. lia.
Qed.

(** X13.  The best score survives a reload.  When the page was loaded from a
    local storage whose best-score entry is missing, empty or a string of
    decimal digits, then in every state it reaches the local storage reads
    back as the best score on display: a page loaded from that storage
    starts with this best score. *)
Theorem best_score_survives_reload
    (pr : bool) (store : gmap string string) (rc : Bounds.t) (s0 : game)
    (es : list event) (pr' : bool) (rc' : Bounds.t) :
  load pr store rc = Some s0 ->
  let s := run s0 es in
  loadBest (storage s) = Some (best s) /\
  load pr' (storage s) rc' = Some (boot pr' (storage s) (best s) rc').
Proof.
  intros Hload s.
  assert (loadBest (storage s) = Some (best s)) as H.
  { unfold load in Hload. destruct (loadBest store) as [b|] eqn:Hb; [|discriminate].
    injection Hload as <-.
    refine (proj1 (run_invariant_all
             (fun s => loadBest (storage s) = Some (best s) /\ (0 <= best s)%Z)
             loadBest_dispatch es _ _)).
    split; [exact Hb | exact (loadBest_nonneg store b Hb)]. }
  split; [exact H|]. unfold load. rewrite H. reflexivity.
Qed.

Lemma best_score_survives_reload_witness :
  loadBest (storage (run (boot false {["jk_best_score" := "7"]} 7 arena)
                         (PlayClick arena (fun _ => centre_draw) :: OrbClick 0%nat 5000
                            :: replicate 20 Tick)))
  = Some (best (run (boot false {["jk_best_score" := "7"]} 7 arena)
                    (PlayClick arena (fun _ => centre_draw) :: OrbClick 0%nat 5000
                       :: replicate 20 Tick))).
Proof.
  refine (proj1 (best_score_survives_reload false {["jk_best_score" := "7"]} arena
                   (boot false {["jk_best_score" := "7"]} 7 arena)
                   (PlayClick arena (fun _ => centre_draw) :: OrbClick 0%nat 5000
                      :: replicate 20 Tick) false arena _)).
  evaluate.
Defined.

(** ** Resizing (lines 210-217) *)

Lemma clamp_inside (v lo hi : Q) : lo <= v <= hi -> clamp v lo hi == v.
Proof.
  intros [H1 H2]. unfold clamp.
  rewrite (Q.min_r hi v) by exact H2. apply Q.max_r, H1.
Qed.

Lemma clampOrb_inside (b : Bounds.t) (o : Orb.t) :
  within b o ->
  Orb.x (clampOrb b o) == Orb.x o /\ Orb.y (clampOrb b o) == Orb.y o.
Proof.
  intros [Hx Hy]. unfold MARGIN in Hx, Hy.
  split; cbn; apply clamp_inside; assumption.
Qed.

Lemma clampOrb_iter (n : nat) (b : Bounds.t) (o : Orb.t) :
  Orb.vx (Nat.iter n (clampOrb b) o) = Orb.vx o /\
  Orb.vy (Nat.iter n (clampOrb b) o) = Orb.vy o /\
  Orb.alive (Nat.iter n (clampOrb b) o) = Orb.alive o /\
  (within b o ->
   Orb.x (Nat.iter n (clampOrb b) o) == Orb.x o /\
   Orb.y (Nat.iter n (clampOrb b) o) == Orb.y o).
Proof.
  induction n as [|n (IHvx & IHvy & IHa & IHp)]; cbn [Nat.iter].
  - repeat split; reflexivity.
  - split; [exact IHvx|]. split; [exact IHvy|]. split; [exact IHa|].
    intros Hw. destruct (IHp Hw) as [Ex Ey].
    assert (within b (Nat.iter n (clampOrb b) o)) as Hw'.
    { destruct Hw as [Hx Hy]. unfold within. rewrite Ex, Ey. split; assumption. }
    destruct (clampOrb_inside b _ Hw') as [Ex' Ey'].
    split; [rewrite Ex'; exact Ex | rewrite Ey'; exact Ey].
Qed.

(** X18.  A resize keeps the orbs inside.  When the resized game area is at
    least 24 px wide and high, after the resize listener every orb of the
    array lies within the padded bounds of the new rectangle, with the
    velocity and the alive flag it had; an orb that already lay within them
    has not moved.  The array, the score sheet, the status and the best
    score are as before. *)
Theorem resize_keeps_orbs_inside (rc : Bounds.t) (s : game) (r : ref) (o : Orb.t) :
  MARGIN <= Bounds.w rc - MARGIN -> MARGIN <= Bounds.h rc - MARGIN ->
  r ∈ orbs s -> heap s !! r = Some o ->
  exists o',
    heap (resize rc s) !! r = Some o' /\ within rc o' /\
    Orb.vx o' = Orb.vx o /\ Orb.vy o' = Orb.vy o /\ Orb.alive o' = Orb.alive o /\
    (within rc o -> Orb.x o' == Orb.x o /\ Orb.y o' == Orb.y o) /\
    orbs (resize rc s) = orbs s /\ sheet (resize rc s) = sheet s /\
    status (resize rc s) = status s /\ vault (resize rc s) = vault s.
Proof.
  intros Hw Hh Hin Ho. unfold resize. cbv zeta. fields.
  rewrite foldl_alter_lookup, Ho. cbn [fmap option_fmap option_map].
  eexists. split; [reflexivity|].
  destruct (clampOrb_iter (count_occ Nat.eq_dec (orbs s) r) rc o)
    as (Hvx & Hvy & Ha & Hp).
  split.
  - apply list_elem_of_In in Hin. apply (count_occ_In Nat.eq_dec) in Hin.
    destruct (count_occ Nat.eq_dec (orbs s) r) as [|n]; [lia|].
    cbn [Nat.iter]. apply clampOrb_within; assumption.
  - split; [exact Hvx|]. split; [exact Hvy|]. split; [exact Ha|].
    split; [exact Hp|]. repeat split.
Qed.

Lemma resize_keeps_orbs_inside_witness :
  exists o',
    heap (resize narrow fresh_round) !! 0%nat = Some o' /\ within narrow o'.
Proof.
  destruct (resize_keeps_orbs_inside narrow fresh_round 0%nat
              (orb_at 0%nat fresh_round))
    as (o' & H1 & H2 & _); [evaluate | evaluate | evaluate | evaluate |].
  exists o'. split; assumption.
Defined.

(** ** The frame cap (line 123) *)

Lemma frame_dt_range (ts : Q) (last : option Q) :
  (forall l, last = Some l -> l <= ts) -> 0 <= frame_dt ts last <= 0.032.
Proof.
  intros Hl. unfold frame_dt. split; [|apply Q.le_min_l].
  apply Q.min_glb; [lra|].
  destruct last as [l|]; cbn [from_option id].
  - specialize (Hl l eq_refl). apply Qle_shift_div_l; lra.
  - apply Qle_shift_div_l; lra.
Qed.

Lemma frame_dt_first (ts : Q) : frame_dt ts None == 0.
Proof.
  unfold frame_dt. cbn [from_option id].
  assert ((ts - ts) / 1000 == 0) as -> by field.
  apply Q.min_r. lra.
Qed.

Lemma axis_shift (lo hi p v d : Q) :
  lo <= p <= hi -> Qabs (fst (axis lo hi (p + d) v) - p) <= Qabs d.
Proof.
  intros [H1 H2].
  pose proof (Qle_Qabs d) as Hd1.
  pose proof (Qle_Qabs (- d)) as Hd2. rewrite Qabs_opp in Hd2.
  apply Qabs_Qle_condition.
  destruct (Qlt_le_dec (p + d) lo) as [Hlo|Hlo].
  - rewrite axis_low by (try exact Hlo; lra). cbn [fst]. split; lra.
  - destruct (Qlt_le_dec hi (p + d)) as [Hhi|Hhi].
    + rewrite axis_high by exact Hhi. cbn [fst]. split; lra.
    + rewrite axis_inside by (split; assumption). cbn [fst]. split; lra.
Qed.

Lemma moveOrb_shift (dt : Q) (b : Bounds.t) (o : Orb.t) :
  within b o ->
  Qabs (Orb.x (moveOrb dt b o) - Orb.x o) <= Qabs (Orb.vx o * dt) /\
  Qabs (Orb.y (moveOrb dt b o) - Orb.y o) <= Qabs (Orb.vy o * dt).
Proof.
  intros [Hx Hy]. unfold MARGIN in Hx, Hy. destruct (Orb.alive o) eqn:Ha.
  - pose proof (f_equal fst (moveOrb_x dt b o Ha)) as Ex.
    pose proof (f_equal fst (moveOrb_y dt b o Ha)) as Ey.
    cbn [fst] in Ex, Ey. rewrite Ex, Ey. split; apply axis_shift; assumption.
  - rewrite moveOrb_dead by exact Ha.
    assert (forall a : Q, a - a == 0) as E by (intros; ring).
    rewrite !E. split; apply Qabs_nonneg.
Qed.

Lemma capped_shift (v dt : Q) :
  0 <= dt <= 0.032 -> Qabs (v * dt) <= Qabs v * 0.032.
Proof.
  intros [H1 H2]. rewrite Qabs_Qmult, (Qabs_pos dt) by exact H1.
  pose proof (Qabs_nonneg v) as Hv.
  assert (0 <= Qabs v * (0.032 - dt)) as H by (apply Qmult_le_0_compat; lra).
  assert (Qabs v * (0.032 - dt) == Qabs v * 0.032 - Qabs v * dt) as E by ring.
  lra.
Qed.

(** X19.  The frame cap.  In a state the page has reached in which a round
    runs, a frame whose time stamp is not before the previous one moves
    an orb of the array that lies within the padded bounds by at most
    0.032 s times its speed along each axis, however long the frame took;
    the first frame of a round moves no orb. *)
Theorem frame_moves_orbs_by_at_most_the_cap
    (pr : bool) (store : gmap string string) (b : Z) (rc : Bounds.t)
    (es : list event) (ts : Q) (r : ref) (o : Orb.t) :
  let s := run (boot pr store b rc) es in
  running s = true -> r ∈ orbs s -> heap s !! r = Some o ->
  within (bounds s) o ->
  (forall l, lastTs s = Some l -> l <= ts) ->
  exists o',
    heap (step ts s) !! r = Some o' /\
    Qabs (Orb.x o' - Orb.x o) <= Qabs (Orb.vx o) * 0.032 /\
    Qabs (Orb.y o' - Orb.y o) <= Qabs (Orb.vy o) * 0.032 /\
    (lastTs s = None -> Orb.x o' == Orb.x o /\ Orb.y o' == Orb.y o).
Proof.
  intros s Hrun Hin Ho Hw Hts.
  pose proof (wf_reachable pr store b rc es) as Hwf. fold s in Hwf.
  rewrite (step_moves_each_orb_once ts s r o Hwf Hrun Hin Ho).
  eexists. split; [reflexivity|].
  destruct (moveOrb_shift (frame_dt ts (lastTs s)) (bounds s) o Hw) as [Sx Sy].
  pose proof (frame_dt_range ts (lastTs s) Hts) as Hdt.
  split; [|split].
  - eapply Qle_trans; [exact Sx | apply capped_shift, Hdt].
  - eapply Qle_trans; [exact Sy | apply capped_shift, Hdt].
  - intros Hnone. rewrite Hnone in Sx, Sy.
    assert (forall v a : Q, Qabs a <= Qabs (v * frame_dt ts None) -> a == 0) as Hz.
    { intros v a Ha. apply Qabs_zero. apply Qle_antisym; [|apply Qabs_nonneg].
      eapply Qle_trans; [exact Ha|]. rewrite frame_dt_first.
      assert (v * 0 == 0) as -> by ring. discriminate. }
    apply Hz in Sx. apply Hz in Sy. rewrite Hnone. split; lra.
Qed.

Lemma frame_moves_orbs_by_at_most_the_cap_witness :
  exists o',
    heap (step 9000 moving_round) !! 0%nat = Some o' /\
    Qabs (Orb.x o' - Orb.x (orb_at 0%nat moving_round))
      <= Qabs (Orb.vx (orb_at 0%nat moving_round)) * 0.032.
Proof.
  destruct (frame_moves_orbs_by_at_most_the_cap false ∅ 0 arena
              [PlayClick arena (fun _ => centre_draw); Frame 1000] 9000 0%nat
              (orb_at 0%nat moving_round))
    as (o' & H1 & H2 & _).
  - evaluate.
  - evaluate.
  - evaluate.
  - split; split; evaluate.
  - intros l. vm_compute. intros [= <-]. discriminate.
  - exists o'. split; [exact H1 | exact H2].
Defined.

(** ** New orbs (lines 53-72) *)

Lemma rand_between (u lo hi : Q) :
  0 <= u < 1 -> lo <= hi -> lo <= rand u lo hi <= hi.
Proof.
  intros [H0 H1] Hle. unfold rand.
  assert (Ha : 0 <= u * (hi - lo)) by (apply Qmult_le_0_compat; lra).
  assert (Hb : 0 <= (1 - u) * (hi - lo)) by (apply Qmult_le_0_compat; lra).
  assert (E : (1 - u) * (hi - lo) == (hi - lo) - u * (hi - lo)) by ring.
  lra.
Qed.

Lemma scaled_bound (c v m : Q) :
  -1 <= c <= 1 -> 0 <= v <= m -> Qabs (c * v) <= m.
Proof.
  intros [Hc1 Hc2] [Hv1 Hv2]. apply Qabs_Qle_condition.
  assert (Ha : 0 <= (1 - c) * v) by (apply Qmult_le_0_compat; lra).
  assert (Hb : 0 <= (1 + c) * v) by (apply Qmult_le_0_compat; lra).
  assert (Ea : (1 - c) * v == v - c * v) by ring.
  assert (Eb : (1 + c) * v == v + c * v) by ring.
  split; lra.
Qed.

(** X14.  What [makeOrb] creates.  For outcomes of [Math.random()], on a
    game area of at least 40 px by 40 px, [makeOrb] adds one object, alive,
    under a new reference and appends its element to the game area; its
    position lies in [[20, w - 20]] by [[20, h - 20]]; its velocity is the
    drawn direction times a speed that is at least [SPEED_MIN] and at most
    [SPEED_MAX], and 0 under reduced motion, so that for a direction with
    components in [[-1, 1]] neither velocity component exceeds [SPEED_MAX]
    in absolute value.  The objects that existed are as they were. *)
Theorem makeOrb_ranges (d : draw) (s : game) :
  unit_draw d ->
  40 <= Bounds.w (bounds s) -> 40 <= Bounds.h (bounds s) ->
  -1 <= dir_cos d <= 1 -> -1 <= dir_sin d <= 1 ->
  exists o speed,
    snd (makeOrb d s) = length (heap s) /\
    heap (fst (makeOrb d s)) = heap s ++ [o] /\
    attached (fst (makeOrb d s)) = attached s ++ [snd (makeOrb d s)] /\
    Orb.alive o = true /\
    20 <= Orb.x o <= Bounds.w (bounds s) - 20 /\
    20 <= Orb.y o <= Bounds.h (bounds s) - 20 /\
    Orb.vx o = dir_cos d * speed /\ Orb.vy o = dir_sin d * speed /\
    (prefersReduced s = false -> SPEED_MIN <= speed <= SPEED_MAX) /\
    (prefersReduced s = true -> speed = 0) /\
    Qabs (Orb.vx o) <= SPEED_MAX /\ Qabs (Orb.vy o) <= SPEED_MAX.
Proof.
  intros (Hl & Ht & Hs) Hw Hh Hcos Hsin. unfold makeOrb. cbv zeta. cbn [fst snd]. fields.
  eexists. eexists.
  split; [reflexivity|]. split; [reflexivity|]. split; [reflexivity|].
  cbn [Orb.alive Orb.x Orb.y Orb.vx Orb.vy].
  split; [reflexivity|].
  split; [apply rand_between; [exact Hl | lra]|].
  split; [apply rand_between; [exact Ht | lra]|].
  split; [reflexivity|]. split; [reflexivity|].
  pose proof (rand_between (u_speed d) SPEED_MIN SPEED_MAX Hs) as Hsp.
  unfold SPEED_MIN, SPEED_MAX in *. specialize (Hsp ltac:(lra)).
  assert (0 <= (if prefersReduced s then 0 else rand (u_speed d) 40 140) <= 140) as Hr.
  { destruct (prefersReduced s); lra. }
  split; [intros ->; exact Hsp|]. split; [intros ->; reflexivity|].
  split; apply scaled_bound; assumption.
Qed.

Lemma makeOrb_ranges_witness :
  exists o speed,
    snd (makeOrb slant_draw (boot false ∅ 0 strip)) = 0%nat /\
    heap (fst (makeOrb slant_draw (boot false ∅ 0 strip))) = [o] /\
    20 <= Orb.x o <= 20 /\
    Orb.vx o = (3#5) * speed /\ SPEED_MIN <= speed <= SPEED_MAX.
Proof.
  destruct (makeOrb_ranges slant_draw (boot false ∅ 0 strip))
    as (o & speed & H1 & H2 & _ & _ & H3 & _ & H4 & _ & H5 & _).
  - repeat split; evaluate.
  - evaluate.
  - evaluate.
  - split; evaluate.
  - split; evaluate.
  - exists o, speed. split; [exact H1|]. split; [exact H2|]. split; [exact H3|].
    split; [exact H4 | apply H5; reflexivity].
Defined.

(** ** Respawns (lines 110-117) *)

(** X16.  A respawn replaces the orb that was hit.  In a state the page has
    reached in which a round runs, the respawn closure of an orb of the
    array takes that orb out of the array and its element out of the game
    area, keeps the other orbs in their order and appends one new orb: the
    array keeps its length, and the game area still shows the array. *)
Theorem respawn_replaces_the_hit_orb
    (pr : bool) (store : gmap string string) (b : Z) (rc : Bounds.t)
    (es : list event) (r : ref) (d : draw) :
  let s := run (boot pr store b rc) es in
  running s = true -> r ∈ orbs s ->
  orbs (respawn r d s) = filter (fun r' => r' <> r) (orbs s) ++ [length (heap s)] /\
  attached (respawn r d s) = orbs (respawn r d s) /\
  heap (respawn r d s) = heap s ++ [spawned d s] /\
  length (orbs (respawn r d s)) = length (orbs s) /\
  r ∉ orbs (respawn r d s).
Proof.
  intros s Hrun Hin.
  pose proof (wf_reachable pr store b rc es) as Hwf. fold s in Hwf.
  pose proof (wf_respawn r d s Hwf) as (_ & _ & Hat').
  destruct Hwf as (Hnd & Hlt & Hat).
  assert (orbs (respawn r d s) = spliceOrb r (orbs s) ++ [length (heap s)]) as Ho.
  { unfold respawn. rewrite Hrun. reflexivity. }
  split; [rewrite Ho, spliceOrb_filter by exact Hnd; reflexivity|].
  split; [exact Hat'|]. split; [apply respawn_heap, Hrun|].
  split.
  - rewrite Ho, length_app. pose proof (spliceOrb_length r (orbs s) Hin). cbn. lia.
  - rewrite Ho, spliceOrb_filter by exact Hnd. intros H.
    apply elem_of_app in H. destruct H as [H|H].
    + apply list_elem_of_filter in H. destruct H as [H _]. apply H. reflexivity.
    + apply list_elem_of_singleton in H. specialize (Hlt r Hin). lia.
Qed.

Lemma respawn_replaces_the_hit_orb_witness :
  orbs (respawn 2%nat far_draw fresh_round)
  = filter (fun r' => r' <> 2%nat) (orbs fresh_round) ++ [length (heap fresh_round)].
Proof.
  refine (proj1 (respawn_replaces_the_hit_orb false ∅ 0 arena
                   [PlayClick arena (fun _ => centre_draw)] 2%nat far_draw _ _));
    evaluate.
Defined.

(** ** The references *)

(** X17.  The game area shows the array.  In every state the page reaches, the
    orb elements in the game area are those of the orbs of the array, in the
    same order; the array lists no orb twice, and every orb it lists
    exists. *)
Theorem game_area_shows_the_array
    (pr : bool) (store : gmap string string) (b : Z) (rc : Bounds.t)
    (es : list event) :
  let s := run (boot pr store b rc) es in
  attached s = orbs s /\ NoDup (orbs s) /\
  forall r, r ∈ orbs s -> exists o, heap s !! r = Some o.
Proof.
  intros s. destruct (wf_reachable pr store b rc es) as (Hnd & Hlt & Hat).
  fold s in Hnd, Hlt, Hat. split; [exact Hat|]. split; [exact Hnd|].
  intros r Hr. apply lookup_lt_is_Some_2, Hlt, Hr.
Qed.

(** ** Chains of hits *)

Lemma chained_hits (hits : list (ref * Q)) (s : game) :
  running s = true -> NoDup hits.*1 ->
  (forall r, r ∈ hits.*1 -> live_at r s = true) ->
  chained (lastHitTime s) hits ->
  fst (play_hits hits s) = chain_log (combo s) (length hits) /\
  combo (snd (play_hits hits s)) = (combo s + Z.of_nat (length hits))%Z /\
  running (snd (play_hits hits s)) = true.
Proof.
  revert s. induction hits as [|[r t] rest IH]; intros s Hrun Hnd Hlive Hch.
  - cbn. repeat split; [lia | exact Hrun].
  - cbn [fmap list_fmap fst] in Hnd, Hlive. apply NoDup_cons in Hnd.
    destruct Hnd as [Hr Hnd]. destruct Hch as [Ht Hch].
    assert (live_at r s = true) as Hl by (apply Hlive; left).
    destruct (hit_chained r t s Hrun Hl Ht) as [Hc Hs].
    specialize (IH (hitOrb r t s)).
    destruct IH as (IH1 & IH2 & IH3).
    + rewrite hitOrb_running. exact Hrun.
    + exact Hnd.
    + intros r' Hr'. rewrite hitOrb_live_other by (intros ->; contradiction).
      apply Hlive. right. exact Hr'.
    + rewrite hitOrb_lastHitTime by assumption. exact Hch.
    + cbn [play_hits length chain_log].
      destruct (play_hits rest (hitOrb r t s)) as [log s2].
      cbn [fst snd] in *. rewrite IH1, IH2, Hc, Hs.
      split; [|split; [lia | exact IH3]].
      f_equal. f_equal. unfold COMBO_CAP. lia.
Qed.

(** X8.  A chain of hits.  In a running round, when a series of hits on
    different alive orbs is such that each hit comes within the combo window
    of the one before it (the first one of the last hit before the series),
    the combo counter grows by one with each hit and the [k]-th hit is
    worth [BASE_POINTS * (1 + min (c + k) 5)] points, for the counter [c]
    before the series: the bonus grows up to six times the base points and
    stays there. *)
Theorem chain_of_hits (hits : list (ref * Q)) (s : game) :
  running s = true -> NoDup hits.*1 ->
  (forall r, r ∈ hits.*1 -> live_at r s = true) ->
  chained (lastHitTime s) hits ->
  fst (play_hits hits s) = chain_log (combo s) (length hits) /\
  combo (snd (play_hits hits s)) = (combo s + Z.of_nat (length hits))%Z.
Proof.
  intros Hrun Hnd Hlive Hch.
  destruct (chained_hits hits s Hrun Hnd Hlive Hch) as (H1 & H2 & _).
  split; assumption.
Qed.

Lemma chain_of_hits_witness :
  fst (play_hits [(1%nat, 5300); (2%nat, 5900); (3%nat, 6500); (4%nat, 7000);
                  (5%nat, 7700)]
                 (hitOrb 0%nat 5000 fresh_round))
  = [(1, 20); (2, 30); (3, 40); (4, 50); (5, 60)]%Z.
Proof.
  refine (eq_trans (proj1 (chain_of_hits
            [(1%nat, 5300); (2%nat, 5900); (3%nat, 6500); (4%nat, 7000); (5%nat, 7700)]
            (hitOrb 0%nat 5000 fresh_round) _ _ _ _)) _).
  - evaluate.
  - evaluate.
  - apply Forall_forall. repeat constructor; evaluate.
  - repeat split; evaluate.
  - evaluate.
Defined.

Lemma orb_count_without_stale_respawn_witness :
  length (orbs (run (boot false ∅ 0 arena)
                    [PlayClick arena (fun _ => centre_draw); OrbClick 0%nat 5000;
                     Frame 1000; Timeout far_draw; Tick])) = ORB_COUNT.
Proof.
  apply (orb_count_without_stale_respawn false ∅ 0 arena
           [PlayClick arena (fun _ => centre_draw); OrbClick 0%nat 5000;
            Frame 1000; Timeout far_draw; Tick]).
  - repeat split; intros; evaluate.
  - evaluate.
Defined.

(** ** The result of a round *)

Lemma live_vault (s : game) (es : list event) :
  settled s -> running s = true -> (Z.of_nat (ticks es) < timeLeft s)%Z ->
  vault (run s es) = vault s.
Proof.
  intros Hs Hrun. induction es as [|e es IH] using rev_ind; intros Hlt; [reflexivity|].
  destruct (countdown_from s (es ++ [e]) Hs Hrun Hlt) as (_ & Hrun' & _).
  rewrite ticks_app in Hlt. rewrite run_snoc in Hrun' |- *.
  destruct (dispatch_vault (run s es) e) as [H|(_ & _ & _ & Hstop & _)].
  - rewrite H. apply IH. lia.
  - congruence.
Qed.

(** X3.  The result of a round.  From a state the page has reached in which a
    round runs, when the events that follow bring the countdown to its last
    second, the next interval callback ends the round with the score the
    round had reached, and the best score is then the greater of that score
    and the best score before; a greater score is written to the local
    storage under [jk_best_score]. *)
Theorem round_result_is_recorded
    (pr : bool) (store : gmap string string) (b : Z) (rc : Bounds.t)
    (es0 es : list event) :
  let s := run (boot pr store b rc) es0 in
  running s = true -> timeLeft s = (Z.of_nat (ticks es) + 1)%Z ->
  running (run s (es ++ [Tick])) = false /\
  score (run s (es ++ [Tick])) = score (run s es) /\
  best (run s (es ++ [Tick])) = Z.max (best s) (score (run s es)) /\
  ((best s < score (run s es))%Z ->
     storage (run s (es ++ [Tick])) !! "jk_best_score"
     = Some (pretty (score (run s es)))) /\
  ((score (run s es) <= best s)%Z -> storage (run s (es ++ [Tick])) = storage s).
Proof.
  intros s Hrun Hleft.
  pose proof (settled_reachable pr store b rc es0) as Hs. fold s in Hs.
  assert (Z.of_nat (ticks es) < timeLeft s)%Z as Hlt by lia.
  destruct (countdown_from s es Hs Hrun Hlt) as (Hs1 & Hrun1 & Hl1).
  pose proof (live_vault s es Hs Hrun Hlt) as Hv.
  apply vault_inv in Hv. destruct Hv as [Hb Hst].
  rewrite run_snoc. revert Hs1 Hrun1 Hl1 Hb Hst. generalize (run s es). intros s1.
  intros (Ht & _) Hrun1 Hl1 Hb Hst. simpl. rewrite Ht, Hrun1.
  destruct (tick_cases s1) as [[_ ->]|[Hgt _]]; [|lia].
  rewrite endGame_running, endGame_score. split; [reflexivity|]. split; [reflexivity|].
  destruct (endGame_vault (with_timeLeft (timeLeft s1 - 1) s1))
    as [[Hle Hv]|(Hlt' & Hbest & Hsto)].
  - apply vault_inv in Hv. destruct Hv as [Hv1 Hv2]. rewrite Hv1, Hv2.
    cbn in Hle |- *. rewrite <- Hb, <- Hst.
    split; [lia|]. split; [intros; lia | reflexivity].
  - rewrite Hbest, Hsto. cbn in Hlt' |- *. rewrite <- Hb.
    split; [lia|]. split; [intros _; apply lookup_insert_eq | intros; lia].
Qed.

Lemma round_result_is_recorded_witness :
  best (run (run (boot false ∅ 0 arena) [PlayClick arena (fun _ => centre_draw)])
            ((OrbClick 0%nat 5000 :: replicate 19 Tick) ++ [Tick]))
  = Z.max (best (run (boot false ∅ 0 arena) [PlayClick arena (fun _ => centre_draw)]))
          (score (run (run (boot false ∅ 0 arena)
                           [PlayClick arena (fun _ => centre_draw)])
                      (OrbClick 0%nat 5000 :: replicate 19 Tick))).
Proof.
  refine (proj1 (proj2 (proj2 (round_result_is_recorded false ∅ 0 arena
            [PlayClick arena (fun _ => centre_draw)]
            (OrbClick 0%nat 5000 :: replicate 19 Tick) _ _)))); evaluate.
Defined.

(** ** Spawning (lines 74-78) *)

(** X15.  What [spawnOrbs] adds.  [spawnOrbs(n)] appends [n] new orbs, all
    alive, to the array and their elements to the game area, in the order of
    creation; the orbs and objects that existed, the score sheet, the status
    and the best score are as before. *)
Theorem spawnOrbs_appends (n : nat) (rnd : nat -> draw) (s : game) :
  orbs (spawnOrbs n rnd s) = orbs s ++ seq (length (heap s)) n /\
  attached (spawnOrbs n rnd s) = attached s ++ seq (length (heap s)) n /\
  (forall i, (i < n)%nat ->
     exists o, heap (spawnOrbs n rnd s) !! (length (heap s) + i)%nat = Some o /\
               Orb.alive o = true) /\
  (forall r o, heap s !! r = Some o -> heap (spawnOrbs n rnd s) !! r = Some o) /\
  length (heap (spawnOrbs n rnd s)) = (length (heap s) + n)%nat /\
  sheet (spawnOrbs n rnd s) = sheet s /\ status (spawnOrbs n rnd s) = status s /\
  vault (spawnOrbs n rnd s) = vault s.
Proof.
  split; [apply spawnOrbs_orbs|]. split; [apply spawnOrbs_attached|].
  rewrite spawnOrbs_heap.
  split.
  { intros i Hi. rewrite lookup_app_r by lia.
    replace (length (heap s) + i - length (heap s))%nat with i by lia.
    rewrite list_lookup_fmap, lookup_seq_lt by exact Hi.
    eexists. split; reflexivity. }
  split; [intros r o Ho; apply lookup_app_l_Some, Ho|].
  split; [rewrite length_app, length_map, length_seq; reflexivity|].
  destruct (spawnOrbs_views n rnd s) as (H1 & H2 & H3 & _).
  split; [exact H2|]. split; [exact H1 | exact H3].
Qed.

(** ** Hit orbs stay in place (line 128) *)

Lemma frozen_refl (o : Orb.t) : frozen o o.
Proof. intros _. reflexivity. Qed.

Lemma frozen_trans (o1 o2 o3 : Orb.t) : frozen o1 o2 -> frozen o2 o3 -> frozen o1 o3.
Proof.
  unfold frozen. intros H12 H23 Ha. specialize (H12 Ha). subst o2. apply H23, Ha.
Qed.

Lemma frozen_moveOrb (dt : Q) (b : Bounds.t) (o : Orb.t) : frozen o (moveOrb dt b o).
Proof. intros Ha. apply moveOrb_dead, Ha. Qed.

Lemma frozen_hit (o : Orb.t) : frozen o (Orb.set_alive o false).
Proof. destruct o as [x y vx vy a]. unfold frozen. cbn. intros ->. reflexivity. Qed.

Lemma frozen_dispatch (s : game) (e : event) :
  no_resize e -> carries frozen s (dispatch s e).
Proof.
  intros He. destruct e as [rc rnd|rc rnd|r t|r t rc rnd|d|ts| |rc]; simpl.
  - destruct (playDisabled s); [apply carries_refl, frozen_refl|].
    eapply carries_grow; [apply frozen_refl | apply startGame_heap].
  - apply carries_areaKeydown, frozen_refl.
  - destruct (bool_decide _); [|apply carries_refl, frozen_refl].
    apply carries_hitOrb; [apply frozen_refl | apply frozen_hit].
  - destruct (bool_decide _); [|apply carries_refl, frozen_refl].
    eapply carries_trans; [apply frozen_trans | |apply carries_areaKeydown, frozen_refl].
    apply carries_hitOrb; [apply frozen_refl | apply frozen_hit].
  - destruct (timeouts s) as [|r rest]; [apply carries_refl, frozen_refl|].
    eapply carries_trans; [apply frozen_trans | |apply carries_respawn, frozen_refl].
    apply carries_same; [apply frozen_refl | reflexivity].
  - destruct (raf s); [|apply carries_refl, frozen_refl].
    apply carries_trans with (s2 := with_raf false s); [apply frozen_trans | |].
    + apply carries_same; [apply frozen_refl | reflexivity].
    + apply carries_step; [apply frozen_refl | apply frozen_trans | apply frozen_moveOrb].
  - destruct (timerId s); [|apply carries_refl, frozen_refl].
    apply carries_same; [apply frozen_refl | apply tick_heap].
  - destruct He.
Qed.

(** X7.  A hit orb stays in place.  Over any run of events without a resize,
    an object that is not alive keeps its position and velocity and stays
    not alive: frames skip it, and nothing else writes to it. *)
Theorem hit_orb_stays_in_place (s : game) (es : list event) (r : ref) (o : Orb.t) :
  Forall no_resize es -> heap s !! r = Some o -> Orb.alive o = false ->
  heap (run s es) !! r = Some o.
Proof.
  intros Hes Ho Ha.
  assert (carries frozen s (run s es)) as H.
  { clear Ho. revert s. induction Hes as [|e es He _ IH]; intros s.
    - apply carries_refl, frozen_refl.
    - eapply carries_trans; [apply frozen_trans | apply frozen_dispatch, He |].
      apply (IH (dispatch s e)). }
  destruct (H r o Ho) as (o' & Ho' & Hf). rewrite Ho'. f_equal. apply Hf, Ha.
Qed.

Lemma hit_orb_stays_in_place_witness :
  heap (run (hitOrb 0%nat 5000 moving_round)
            [Frame 1016; Frame 1032; Tick; Timeout far_draw; Frame 1048]) !! 0%nat
  = Some (orb_at 0%nat (hitOrb 0%nat 5000 moving_round)).
Proof.
  apply (hit_orb_stays_in_place (hitOrb 0%nat 5000 moving_round)
           [Frame 1016; Frame 1032; Tick; Timeout far_draw; Frame 1048] 0%nat
           (orb_at 0%nat (hitOrb 0%nat 5000 moving_round))).
  - repeat constructor.
  - evaluate.
  - evaluate.
Defined.
